(** * Red-DiscordBot [redbot/core/config.py]: the configuration store

    A shallow embedding of the [Value] / [Group] accessors, the scoped
    read-modify-write context manager [_ValueCtxManager], and the
    [ConfigMeta] singleton cache, with the properties the specification
    states about them; then of the rest of the module ([clear],
    [clear_raw], [get_latest_confs], [Config.get_conf]) and of code that
    uses the store: the sections on temporary bans and
    [_check_guild_tempban_expirations] of [redbot/cogs/mod], and
    [_edit_prefix] of [redbot/__main__.py].

    Python data is modelled at two levels:
    - [json]: the deep (tree) value of an object, which is what [==]
      compares, what [_str_key_dict] computes from and what the driver
      persists;
    - [pyval] / [pyobj] / [heap]: the object graph, where lists and dicts are
      mutable cells reached through references, so that two names for one
      object see each other's mutations.

    Floating point numbers are left out of the value model. *)

From Stdlib Require Import List String Ascii ZArith Bool Lia Arith.
From Stdlib Require Import DecimalString DecimalPos DecimalZ.
From Stdlib Require Import Sorted Permutation.
Import ListNotations.

Local Open Scope string_scope.
Local Open Scope list_scope.
Local Open Scope Z_scope.

Set Implicit Arguments.

(** * The data *)

(** ** Exceptions and results *)

Inductive exn : Type :=
| KeyError
| TypeError
| ValueError
| AttributeError
| RuntimeError
| RecursionError
| CancelledError.

Inductive result (A : Type) : Type :=
| Ok (a : A)
| Raise (e : exn).

Arguments Ok {A} a.
Arguments Raise {A} e.

(** What awaiting gives: a value, an exception, or no resumption at all. *)
Inductive outcome (A : Type) : Type :=
| Returned (a : A)
| Raised (e : exn)
| Blocked.

Arguments Returned {A} a.
Arguments Raised {A} e.
Arguments Blocked {A}.

(** ** Deep values *)

(** Dictionary keys: the code meets [str] keys (the schema, the driver) and
    keys of other types that [_str_key_dict] casts with [str]; integers stand
    for the latter. *)
Inductive key : Type :=
| KStr (s : string)
| KInt (z : Z).

Definition key_eqb (a b : key) : bool :=
  match a, b with
  | KStr s, KStr t => String.eqb s t
  | KInt x, KInt y => Z.eqb x y
  | _, _ => false
  end.

(** Python's [str(k)]. *)
Definition str (k : key) : string :=
  match k with
  | KStr s => s
  | KInt z => NilZero.string_of_int (Z.to_int z)
  end.

(** The deep value of a Python object: what the JSON-like data looks like
    when every reference is followed. A dict is kept in insertion order. *)
Unset Elimination Schemes.
Inductive json : Type :=
| JNone
| JBool (b : bool)
| JInt (z : Z)
| JStr (s : string)
| JList (xs : list json)
| JDict (kvs : list (key * json)).
Set Elimination Schemes.

Definition items := list (key * json).

Section JsonInd.
Variable P : json -> Prop.
Hypothesis HNone : P JNone.
Hypothesis HBool : forall b, P (JBool b).
Hypothesis HInt : forall z, P (JInt z).
Hypothesis HStr : forall s, P (JStr s).
Hypothesis HList : forall xs, Forall P xs -> P (JList xs).
Hypothesis HDict : forall kvs, Forall (fun kv => P (snd kv)) kvs -> P (JDict kvs).

Fixpoint json_nested_ind (j : json) : P j :=
  match j with
  | JNone => HNone
  | JBool b => HBool b
  | JInt z => HInt z
  | JStr s => HStr s
  | JList xs =>
      HList ((fix go (l : list json) : Forall P l :=
                match l with
                | [] => Forall_nil _
                | x :: t => Forall_cons x (json_nested_ind x) (go t)
                end) xs)
  | JDict kvs =>
      HDict ((fix go (l : items) : Forall (fun kv => P (snd kv)) l :=
                match l with
                | [] => Forall_nil _
                | kv :: t => Forall_cons kv (json_nested_ind (snd kv)) (go t)
                end) kvs)
  end.
End JsonInd.

(** The deep value is a mapping. *)
Definition is_dict (j : json) : bool :=
  match j with JDict _ => true | _ => false end.

(** ** Dicts as association lists *)

Section Dict.
Variable V : Type.

(** [d.get(k)] / [d[k]] *)
Fixpoint dict_get (d : list (key * V)) (k : key) : option V :=
  match d with
  | [] => None
  | (k', v) :: t => if key_eqb k' k then Some v else dict_get t k
  end.

(** [d[k] = v]: an existing key keeps its place, a new key goes last. *)
Fixpoint dict_set (d : list (key * V)) (k : key) (v : V) : list (key * V) :=
  match d with
  | [] => [(k, v)]
  | (k', v') :: t =>
      if key_eqb k' k then (k', v) :: t else (k', v') :: dict_set t k v
  end.

Definition dict_keys (d : list (key * V)) : list key := map fst d.

End Dict.

(** ** [_str_key_dict] *)

(** [_str_key_dict(v) if isinstance(v, dict) else v], the expression the
    comprehension applies to every value of the dict. *)
Fixpoint str_key_value (v : json) : json :=
  match v with
  | JDict kvs =>
      JDict (fold_left
               (fun acc kv => dict_set acc (KStr (str (fst kv))) (str_key_value (snd kv)))
               kvs [])
  | _ => v
  end.

(** [_str_key_dict(value)]: [{str(k): ... for k, v in value.items()}]. The
    comprehension inserts in iteration order, so of two keys with one [str]
    form the later value is kept. *)
Definition _str_key_dict (value : items) : items :=
  fold_left
    (fun acc kv => dict_set acc (KStr (str (fst kv))) (str_key_value (snd kv)))
    value [].

(** ** Python equality on deep values *)

Definition bool_as_int (b : bool) : Z := if b then 1 else 0.

(** [a == b]. A [bool] is an [int] in Python, so [True == 1]; two dicts are
    equal when they have as many items and every key of the first is bound to
    an equal value in the second, whatever the insertion order. *)
Fixpoint py_eq (a b : json) : bool :=
  match a, b with
  | JNone, JNone => true
  | JBool x, JBool y => Bool.eqb x y
  | JInt x, JInt y => Z.eqb x y
  | JBool x, JInt y => Z.eqb (bool_as_int x) y
  | JInt x, JBool y => Z.eqb x (bool_as_int y)
  | JStr s, JStr t => String.eqb s t
  | JList xs, JList ys =>
      (fix go (l1 l2 : list json) : bool :=
         match l1, l2 with
         | [], [] => true
         | x :: t, y :: u => py_eq x y && go t u
         | _, _ => false
         end) xs ys
  | JDict d1, JDict d2 =>
      Nat.eqb (List.length d1) (List.length d2)
      && forallb (fun kv => match dict_get d2 (fst kv) with
                            | Some v' => py_eq (snd kv) v'
                            | None => false
                            end) d1
  | _, _ => false
  end.

(** [a != b] *)
Definition py_ne (a b : json) : bool := negb (py_eq a b).

(** A deep value is well formed when no dict in it, at any depth, binds a key
    twice: the invariant of Python's [dict]. *)
Fixpoint wf_json (j : json) : Prop :=
  match j with
  | JList xs => (fix go (l : list json) : Prop :=
                   match l with [] => True | x :: t => wf_json x /\ go t end) xs
  | JDict kvs =>
      NoDup (dict_keys kvs)
      /\ (fix go (l : items) : Prop :=
            match l with [] => True | kv :: t => wf_json (snd kv) /\ go t end) kvs
  | _ => True
  end.

(** Every key of every dict reached through dict values is a [str]. Lists are
    leaves for this predicate, as they are for [_str_key_dict]. *)
Fixpoint str_keyed (j : json) : Prop :=
  match j with
  | JDict kvs =>
      (fix go (l : items) : Prop :=
         match l with
         | [] => True
         | kv :: t => (exists s, fst kv = KStr s) /\ str_keyed (snd kv) /\ go t
         end) kvs
  | _ => True
  end.

(** Every key of every dict at any depth, also below lists, is a [str]. *)
Fixpoint all_str_keyed (j : json) : Prop :=
  match j with
  | JList xs => (fix go (l : list json) : Prop :=
                   match l with [] => True | x :: t => all_str_keyed x /\ go t end) xs
  | JDict kvs =>
      (fix go (l : items) : Prop :=
         match l with
         | [] => True
         | kv :: t => (exists s, fst kv = KStr s) /\ all_str_keyed (snd kv) /\ go t
         end) kvs
  | _ => True
  end.

(** ** [Group.nested_update] *)

(** Modelled from the spec: [Group.nested_update], the method [Group._get]
    calls on a found mapping; the source file elides it. The spec (section
    4.4, step 4): for every key present in the defaults but absent from the
    found mapping, inject the default; for every key present in both and both
    sides are mappings, merge recursively; for every key present in both where
    either side is not a mapping, the found value wins; keys present only in
    the found mapping are preserved as they are.

    [merge_value found dflt] is the value the merged mapping binds to a key
    that the found mapping binds to [found] and the defaults bind to [dflt]
    ([None] when the defaults do not have the key). *)
Fixpoint merge_value (found : json) (dflt : option json) : json :=
  match found, dflt with
  | JDict c, Some (JDict d) =>
      JDict (fold_left
               (fun acc kv =>
                  dict_set acc (fst kv) (merge_value (snd kv) (dict_get d (fst kv))))
               c d)
  | _, _ => found
  end.

(** Modelled from the spec: [nested_update(current, defaults)], see
    [merge_value]. The result starts from the defaults and takes every item
    of the found mapping. *)
Definition nested_update (current defaults : items) : items :=
  fold_left
    (fun acc kv => dict_set acc (fst kv) (merge_value (snd kv) (dict_get defaults (fst kv))))
    current defaults.

(** * Objects *)

(** ** The object graph *)

(** A Python value as a variable holds it: an immutable scalar, or a
    reference to a list or dict cell. *)
Inductive pyval : Type :=
| PNone
| PBool (b : bool)
| PInt (z : Z)
| PStr (s : string)
| PRef (l : nat).

Inductive pyobj : Type :=
| OList (xs : list pyval)
| ODict (kvs : list (key * pyval)).

(** The heap of list and dict cells; a reference is an index, and a new
    object goes at the end. *)
Definition heap := list pyobj.

Fixpoint traverse (A B : Type) (f : A -> option B) (l : list A) : option (list B) :=
  match l with
  | [] => Some []
  | x :: t =>
      match f x, traverse f t with
      | Some y, Some ys => Some (y :: ys)
      | _, _ => None
      end
  end.

(** The deep value of [v] in heap [h], following at most [n] references in a
    row. *)
Fixpoint deref_fuel (n : nat) (h : heap) (v : pyval) {struct n} : option json :=
  match v with
  | PNone => Some JNone
  | PBool b => Some (JBool b)
  | PInt z => Some (JInt z)
  | PStr s => Some (JStr s)
  | PRef l =>
      match n with
      | O => None
      | S n' =>
          match nth_error h l with
          | None => None
          | Some (OList xs) => option_map JList (traverse (deref_fuel n' h) xs)
          | Some (ODict kvs) =>
              option_map JDict
                (traverse (fun kv => option_map (pair (fst kv)) (deref_fuel n' h (snd kv)))
                   kvs)
          end
      end
  end.

(** The deep value of [v]. A chain of references in an acyclic heap visits no
    cell twice, so [length h] steps are enough; [None] means the object graph
    below [v] is cyclic (where Python's recursion stops with
    [RecursionError]) or dangling. *)
Definition deref (h : heap) (v : pyval) : option json := deref_fuel (List.length h) h v.

(** A fresh object graph for the deep value [j]. *)
Fixpoint alloc (j : json) (h : heap) : heap * pyval :=
  match j with
  | JNone => (h, PNone)
  | JBool b => (h, PBool b)
  | JInt z => (h, PInt z)
  | JStr s => (h, PStr s)
  | JList xs =>
      let '(h1, vs) :=
        (fix go (l : list json) (h0 : heap) : heap * list pyval :=
           match l with
           | [] => (h0, [])
           | x :: t =>
               let '(h1, v) := alloc x h0 in
               let '(h2, vs) := go t h1 in
               (h2, v :: vs)
           end) xs h in
      (h1 ++ [OList vs], PRef (List.length h1))
  | JDict kvs =>
      let '(h1, vs) :=
        (fix go (l : items) (h0 : heap) : heap * list (key * pyval) :=
           match l with
           | [] => (h0, [])
           | kv :: t =>
               let '(h1, v) := alloc (snd kv) h0 in
               let '(h2, vs) := go t h1 in
               (h2, (fst kv, v) :: vs)
           end) kvs h in
      (h1 ++ [ODict vs], PRef (List.length h1))
  end.

(** The list and dict loops of [alloc], named. *)
Fixpoint alloc_list (l : list json) (h0 : heap) : heap * list pyval :=
  match l with
  | [] => (h0, [])
  | x :: t =>
      let '(h1, v) := alloc x h0 in
      let '(h2, vs) := alloc_list t h1 in
      (h2, v :: vs)
  end.

Fixpoint alloc_items (l : items) (h0 : heap) : heap * list (key * pyval) :=
  match l with
  | [] => (h0, [])
  | kv :: t =>
      let '(h1, v) := alloc (snd kv) h0 in
      let '(h2, vs) := alloc_items t h1 in
      (h2, (fst kv, v) :: vs)
  end.

(** [isinstance(v, dict)] and [isinstance(v, (list, dict))] *)
Definition isinstance_dict (h : heap) (v : pyval) : bool :=
  match v with
  | PRef l => match nth_error h l with Some (ODict _) => true | _ => false end
  | _ => false
  end.

Definition isinstance_list_or_dict (h : heap) (v : pyval) : bool :=
  match v with
  | PRef l => match nth_error h l with Some _ => true | None => false end
  | _ => false
  end.

(** The items of the dict [v] refers to, if it is one. *)
Definition dict_of (h : heap) (v : pyval) : option (list (key * pyval)) :=
  match v with
  | PRef l => match nth_error h l with Some (ODict kvs) => Some kvs | _ => None end
  | _ => None
  end.

(** Python's truth value of [v], as [defaults or {}] tests it. *)
Definition truthy (h : heap) (v : pyval) : bool :=
  match v with
  | PNone => false
  | PBool b => b
  | PInt z => negb (Z.eqb z 0)
  | PStr s => negb (String.eqb s "")
  | PRef l =>
      match nth_error h l with
      | Some (OList []) | Some (ODict []) => false
      | _ => true
      end
  end.

(** [v.copy()] on a list or dict: a new cell with the same items, so the
    containers below the top level are shared with the original. *)
Definition shallow_copy (h : heap) (v : pyval) : heap * pyval :=
  match v with
  | PRef l =>
      match nth_error h l with
      | Some o => (h ++ [o], PRef (List.length h))
      | None => (h, v)
      end
  | _ => (h, v)
  end.

(** [pickle.loads(pickle.dumps(v, -1))]: a deep copy, an object graph of its
    own with the same deep value. *)
Definition pickle_copy (h : heap) (v : pyval) : result (heap * pyval) :=
  match deref h v with
  | Some j => Ok (alloc j h)
  | None => Raise RecursionError
  end.

(** ** Mutation in place *)

(** The cell at [l] becomes [o]. *)
Fixpoint heap_update (h : heap) (l : nat) (o : pyobj) : heap :=
  match h, l with
  | [], _ => []
  | _ :: t, O => o :: t
  | x :: t, S l' => x :: heap_update t l' o
  end.

(** [d[k] = v] on the dict at [l], and [xs.append(v)] on the list at [l]. *)
Definition setitem (h : heap) (l : nat) (k : key) (v : pyval) : heap :=
  match nth_error h l with
  | Some (ODict kvs) => heap_update h l (ODict (dict_set kvs k v))
  | _ => h
  end.

Definition append (h : heap) (l : nat) (v : pyval) : heap :=
  match nth_error h l with
  | Some (OList xs) => heap_update h l (OList (xs ++ [v]))
  | _ => h
  end.

(** [v.append(x)] / [v[k] = x] on whatever object [v] refers to. *)
Definition append_to (h : heap) (v : pyval) (x : pyval) : heap :=
  match v with PRef l => append h l x | _ => h end.

Definition setitem_of (h : heap) (v : pyval) (k : key) (x : pyval) : heap :=
  match v with PRef l => setitem h l k x | _ => h end.

(** ** Where objects live *)

(** [v] is a scalar or refers to a cell at or after [n]. *)
Definition val_above (n : nat) (v : pyval) : Prop :=
  match v with PRef l => (n <= l)%nat | _ => True end.

Definition obj_above (n : nat) (o : pyobj) : Prop :=
  match o with
  | OList xs => Forall (val_above n) xs
  | ODict kvs => Forall (fun kv => val_above n (snd kv)) kvs
  end.

(** The cells at or after [n] refer to cells at or after [n] only: nothing
    reached from one of them lies below [n]. *)
Definition closed_from (n : nat) (h : heap) : Prop :=
  forall l o, (n <= l)%nat -> nth_error h l = Some o -> obj_above n o.

(** [h'] has the cells of [h] below [n], unchanged. *)
Definition same_below (n : nat) (h h' : heap) : Prop :=
  forall l, (l < n)%nat -> nth_error h' l = nth_error h l.

(** * The world *)

(** ** Addresses *)

(** [IdentifierData], with the seven fields [Config._get_base_group] passes
    to its constructor; the class itself lives in [_drivers], outside the
    source at hand. *)
Record IdentifierData : Type := {
  cog_name : string;
  uuid : string;
  category : string;
  primary_key : list string;
  identifiers : list string;
  primary_key_len : nat;
  is_custom : bool
}.

Fixpoint strings_eqb (a b : list string) : bool :=
  match a, b with
  | [], [] => true
  | x :: t, y :: u => String.eqb x y && strings_eqb t u
  | _, _ => false
  end.

(** Modelled from the spec: what an address is compared and hashed by. The
    spec (section 3): two addresses are equal iff their five fields are,
    the owner's name, the owner's instance id, the category, the primary
    keys and the nested path; [primary_key_len] and [is_custom] do not
    count. *)
Definition address := (string * string * string * list string * list string)%type.

Definition address_of (a : IdentifierData) : address :=
  (cog_name a, uuid a, category a, primary_key a, identifiers a).

Definition address_eqb (x y : address) : bool :=
  let '(c1, u1, g1, p1, i1) := x in
  let '(c2, u2, g2, p2, i2) := y in
  String.eqb c1 c2 && String.eqb u1 u2 && String.eqb g1 g2
  && strings_eqb p1 p2 && strings_eqb i1 i2.

(** Modelled from the spec: [IdentifierData.__eq__], on the five fields. *)
Definition IdentifierData_eqb (a b : IdentifierData) : bool :=
  address_eqb (address_of a) (address_of b).

(** Modelled from the spec: [IdentifierData.get_child], from [_drivers]. The
    spec (section 4.1): [child(nestedKey)] returns a new address with one
    more nested-path element and never mutates the receiver. *)
Definition get_child (a : IdentifierData) (item : string) : IdentifierData :=
  {| cog_name := cog_name a;
     uuid := uuid a;
     category := category a;
     primary_key := primary_key a;
     identifiers := identifiers a ++ [item];
     primary_key_len := primary_key_len a;
     is_custom := is_custom a |}.

(** ** Driver, locks and objects *)

(** A driver object and a [Config] object are named by a number each. *)
Definition driver_ref := nat.
Definition config_ref := nat.
Definition lock_ref := nat.

(** What a table is keyed by: what an address is compared by, together with
    the driver that stores under it or the [Config] whose lock cache holds
    it. *)
Definition slot := (nat * address)%type.

Definition slot_eqb (a b : slot) : bool :=
  Nat.eqb (fst a) (fst b) && address_eqb (snd a) (snd b).

(** The slot of the address [a] with the driver or [Config] [n]. *)
Definition slot_of (n : nat) (a : IdentifierData) : slot := (n, address_of a).

Section Table.
Variable V : Type.

Fixpoint table_get (t : list (slot * V)) (k : slot) : option V :=
  match t with
  | [] => None
  | (k', v) :: r => if slot_eqb k' k then Some v else table_get r k
  end.

Fixpoint table_set (t : list (slot * V)) (k : slot) (v : V) : list (slot * V) :=
  match t with
  | [] => [(k, v)]
  | (k', v') :: r =>
      if slot_eqb k' k then (k', v) :: r else (k', v') :: table_set r k v
  end.

End Table.

Fixpoint table_remove (V : Type) (t : list (slot * V)) (k : slot) : list (slot * V) :=
  match t with
  | [] => []
  | (k', v) :: r =>
      if slot_eqb k' k then table_remove r k else (k', v) :: table_remove r k
  end.

(** The state the accessors act on.
    - [objects]: the Python heap of lists and dicts.
    - [stored]: what each driver persists, per exact address.
    - [set_calls]: every [driver.set] call made so far, oldest first.
    - [locks]: the [asyncio.Lock] objects, [true] when locked.
    - [_lock_cache]: each [Config]'s [_lock_cache], address to lock. *)
Record world : Type := {
  objects : heap;
  stored : list (slot * json);
  set_calls : list (slot * json);
  locks : list bool;
  _lock_cache : list (slot * lock_ref)
}.

Definition with_objects (w : world) (h : heap) : world :=
  {| objects := h; stored := stored w; set_calls := set_calls w;
     locks := locks w; _lock_cache := _lock_cache w |}.

Definition with_locks (w : world) (ls : list bool) : world :=
  {| objects := objects w; stored := stored w; set_calls := set_calls w;
     locks := ls; _lock_cache := _lock_cache w |}.

(** [w'] differs from [w] in its objects at most. *)
Definition only_objects (w w' : world) : Prop :=
  stored w' = stored w /\ set_calls w' = set_calls w
  /\ locks w' = locks w /\ _lock_cache w' = _lock_cache w.

(** Modelled from the spec: the driver, an external collaborator consumed
    through its contract (section 6). [get] fails with not-found, Python's
    [KeyError], when nothing is stored at exactly that address. *)
Definition driver_get (w : world) (d : driver_ref) (a : IdentifierData) : result json :=
  match table_get (stored w) (slot_of d a) with
  | Some j => Ok j
  | None => Raise KeyError
  end.

(** Modelled from the spec: [driver.set] overwrites unconditionally. *)
Definition driver_set (w : world) (d : driver_ref) (a : IdentifierData) (j : json) : world :=
  {| objects := objects w;
     stored := table_set (stored w) (slot_of d a) j;
     set_calls := set_calls w ++ [(slot_of d a, j)];
     locks := locks w;
     _lock_cache := _lock_cache w |}.

(** ** [asyncio.Lock] *)

Fixpoint list_set (A : Type) (l : list A) (n : nat) (x : A) : list A :=
  match l, n with
  | [], _ => []
  | _ :: t, O => x :: t
  | y :: t, S n' => y :: list_set t n' x
  end.

Definition locked (w : world) (l : lock_ref) : bool := nth l (locks w) false.

(** [await lock.acquire()] with nobody else running: a free lock is taken, a
    locked one is waited for without end. *)
Definition lock_acquire (w : world) (l : lock_ref) : world * outcome unit :=
  if locked w l then (w, Blocked)
  else (with_locks w (list_set (locks w) l true), Returned tt).

(** [lock.release()]; releasing an unlocked lock is a [RuntimeError]. *)
Definition lock_release (w : world) (l : lock_ref) : world * result unit :=
  if locked w l then (with_locks w (list_set (locks w) l false), Ok tt)
  else (w, Raise RuntimeError).

(** The [WeakValueDictionary] loses the entry of [k]. *)
Definition forget_lock (w : world) (k : slot) : world :=
  {| objects := objects w; stored := stored w; set_calls := set_calls w;
     locks := locks w; _lock_cache := table_remove (_lock_cache w) k |}.

(** Every cached lock is a lock object that exists. *)
Definition locks_exist (w : world) : Prop :=
  forall k l, table_get (_lock_cache w) k = Some l -> (l < List.length (locks w))%nat.

(** * The accessors *)

(** ** [Value] and [Group] *)

Record Value : Type := {
  identifier_data : IdentifierData;
  default : pyval;
  _driver : driver_ref;
  _config : config_ref
}.

(** A [Group] is a [Value] ([as_Value], with [default] bound to a dict of its
    own) with two more attributes. *)
Record Group : Type := {
  as_Value : Value;
  _defaults : pyval;
  force_registration : bool
}.

(** What attribute access hands out, and what a context manager is bound to. *)
Inductive accessor : Type :=
| AValue (v : Value)
| AGroup (g : Group).

Definition accessor_Value (x : accessor) : Value :=
  match x with AValue v => v | AGroup g => as_Value g end.

(** [Group.__init__]: [super().__init__(identifier_data, {}, driver, config)]
    makes a new empty dict. *)
Definition Group___init__ (h : heap) (identifier_data : IdentifierData) (defaults : pyval)
    (driver : driver_ref) (config : config_ref) (force_registration : bool) : heap * Group :=
  (h ++ [ODict []],
   {| as_Value := {| identifier_data := identifier_data;
                     default := PRef (List.length h);
                     _driver := driver;
                     _config := config |};
      _defaults := defaults;
      force_registration := force_registration |}).

(** [Value.get_lock]:
    [self._config._lock_cache.setdefault(self.identifier_data, asyncio.Lock())].
    The argument is evaluated first, so a lock object is made on every call
    and dropped when the address already has one. *)
Definition get_lock (w : world) (self : Value) : world * lock_ref :=
  let fresh := List.length (locks w) in
  let k := slot_of (_config self) (identifier_data self) in
  match table_get (_lock_cache w) k with
  | Some l => (with_locks w (locks w ++ [false]), l)
  | None =>
      ({| objects := objects w; stored := stored w; set_calls := set_calls w;
          locks := locks w ++ [false];
          _lock_cache := table_set (_lock_cache w) k fresh |}, fresh)
  end.

(** [Value._get]: the driver's [KeyError] is caught and answered with the
    default, the caller's if there is one ([default is not ...]); any other
    exception passes through. A found value comes back from the driver as
    objects of its own. *)
Definition Value__get (w : world) (self : Value) (default_arg : option pyval)
  : world * result pyval :=
  match driver_get w (_driver self) (identifier_data self) with
  | Ok j => let '(h, v) := alloc j (objects w) in (with_objects w h, Ok v)
  | Raise KeyError =>
      (w, Ok (match default_arg with Some d => d | None => default self end))
  | Raise e => (w, Raise e)
  end.

(** The property [Group.defaults]. *)
Definition Group_defaults (h : heap) (self : Group) : result (heap * pyval) :=
  pickle_copy h (_defaults self).

(** [self.nested_update(raw, default)] on objects: the merged mapping of
    [nested_update], as a new object. *)
Definition Group_nested_update (h : heap) (raw dflt : pyval) : result (heap * pyval) :=
  match deref h raw, deref h dflt with
  | Some r, Some d => Ok (alloc (merge_value r (Some d)) h)
  | _, _ => Raise RecursionError
  end.

(** [Group._get] *)
Definition Group__get (w : world) (self : Group) (default_arg : option pyval)
  : world * result pyval :=
  match (match default_arg with
         | Some d => Ok (objects w, d)
         | None => Group_defaults (objects w) self
         end) with
  | Raise e => (w, Raise e)
  | Ok (h, dflt) =>
      match Value__get (with_objects w h) (as_Value self) (Some dflt) with
      | (w1, Raise e) => (w1, Raise e)
      | (w1, Ok raw) =>
          if isinstance_dict (objects w1) raw then
            match Group_nested_update (objects w1) raw dflt with
            | Ok (h2, v) => (with_objects w1 h2, Ok v)
            | Raise e => (w1, Raise e)
            end
          else (w1, Ok raw)
      end
  end.

Definition accessor__get (w : world) (x : accessor) (default_arg : option pyval)
  : world * result pyval :=
  match x with
  | AValue v => Value__get w v default_arg
  | AGroup g => Group__get w g default_arg
  end.

(** A plain read, [get()]: the coroutine [x._get()] run to its end, with no
    default of the caller's. *)
Definition get (w : world) (x : accessor) : world * result pyval :=
  accessor__get w x None.

(** [Value.set]: a dict goes through [_str_key_dict], and the driver persists
    the deep value it is handed. *)
Definition Value_set (w : world) (self : Value) (value : pyval) : world * result unit :=
  match deref (objects w) value with
  | Some j => (driver_set w (_driver self) (identifier_data self) (str_key_value j), Ok tt)
  | None => (w, Raise RecursionError)
  end.

(** [Group.set] *)
Definition Group_set (w : world) (self : Group) (value : pyval) : world * result unit :=
  if isinstance_dict (objects w) value then Value_set w (as_Value self) value
  else (w, Raise ValueError).

Definition accessor_set (w : world) (x : accessor) (value : pyval) : world * result unit :=
  match x with
  | AValue v => Value_set w v value
  | AGroup g => Group_set w g value
  end.

(** [Group.set_raw], called with a nested path and a value, hands the value
    to the driver as it is. *)
Definition Group_set_raw (w : world) (self : Group) (nested_path : list key) (value : pyval)
  : world * result unit :=
  match deref (objects w) value with
  | Some j =>
      (driver_set w (_driver (as_Value self))
         (fold_left get_child (map str nested_path) (identifier_data (as_Value self))) j,
       Ok tt)
  | None => (w, Raise RecursionError)
  end.

(** ** Attribute resolution *)

(** [Group.is_group]: [isinstance(self._defaults.get(str(item)), dict)].
    [.get] on something that is not a dict is an [AttributeError]. *)
Definition Group_is_group (h : heap) (self : Group) (item : key) : result bool :=
  match dict_of h (_defaults self) with
  | None => Raise AttributeError
  | Some kvs =>
      Ok (match dict_get kvs (KStr (str item)) with
          | Some v => isinstance_dict h v
          | None => false
          end)
  end.

(** [Group.is_value]: [not isinstance(self._defaults[str(item)], dict)], and
    [False] on [KeyError]. *)
Definition Group_is_value (h : heap) (self : Group) (item : key) : result bool :=
  match dict_of h (_defaults self) with
  | None => Raise TypeError
  | Some kvs =>
      Ok (match dict_get kvs (KStr (str item)) with
          | Some v => negb (isinstance_dict h v)
          | None => false
          end)
  end.

(** [self._defaults[item]] *)
Definition defaults_getitem (h : heap) (self : Group) (item : string) : result pyval :=
  match dict_of h (_defaults self) with
  | None => Raise TypeError
  | Some kvs =>
      match dict_get kvs (KStr item) with
      | Some v => Ok v
      | None => Raise KeyError
      end
  end.

(** [Group.__getattr__]. Python calls it for the names that ordinary
    attribute lookup does not find, and [get_attr] calls it directly. *)
Definition Group___getattr__ (h : heap) (self : Group) (item : string)
  : heap * result accessor :=
  match Group_is_group h self (KStr item) with
  | Raise e => (h, Raise e)
  | Ok is_group =>
      match (if is_group then Ok false else Group_is_value h self (KStr item)) with
      | Raise e => (h, Raise e)
      | Ok is_value =>
          let new_identifiers := get_child (identifier_data (as_Value self)) item in
          if is_group then
            match defaults_getitem h self item with
            | Raise e => (h, Raise e)
            | Ok d =>
                let '(h1, g) :=
                  Group___init__ h new_identifiers d (_driver (as_Value self))
                    (_config (as_Value self)) (force_registration self) in
                (h1, Ok (AGroup g))
            end
          else if is_value then
            match defaults_getitem h self item with
            | Raise e => (h, Raise e)
            | Ok d =>
                (h, Ok (AValue {| identifier_data := new_identifiers;
                                  default := d;
                                  _driver := _driver (as_Value self);
                                  _config := _config (as_Value self) |}))
            end
          else if force_registration self then (h, Raise AttributeError)
          else
            (h, Ok (AValue {| identifier_data := new_identifiers;
                              default := PNone;
                              _driver := _driver (as_Value self);
                              _config := _config (as_Value self) |}))
      end
  end.

(** [Group.get_attr]: an [int] item is cast with [str], a [str] is passed on. *)
Definition Group_get_attr (h : heap) (self : Group) (item : key) : heap * result accessor :=
  Group___getattr__ h self (str item).

(** ** [_ValueCtxManager] *)

(** The context manager object. [coro] is the coroutine
    [value_obj._get(default)], which has not run yet when the manager is
    made: it is kept as the argument it will be called with. *)
Record _ValueCtxManager : Type := {
  value_obj : accessor;
  coro : option pyval;
  raw_value : pyval;
  __original_value : pyval;
  __acquire_lock : bool;
  __lock : lock_ref
}.

(** [Value.__call__(default, acquire_lock=...)], which runs
    [_ValueCtxManager.__init__]; a [Group] inherits it. *)
Definition Value___call__ (w : world) (self : accessor) (default_arg : option pyval)
    (acquire_lock : bool) : world * _ValueCtxManager :=
  let '(w1, l) := get_lock w (accessor_Value self) in
  (w1, {| value_obj := self;
          coro := default_arg;
          raw_value := PNone;
          __original_value := PNone;
          __acquire_lock := acquire_lock;
          __lock := l |}).

(** [__aenter__], first statement: [await self.__lock.acquire()] when the
    section takes the lock. *)
Definition aenter_acquire (w : world) (self : _ValueCtxManager) : world * outcome unit :=
  if __acquire_lock self then lock_acquire w (__lock self) else (w, Returned tt).

(** [__aenter__], the rest: [await self.coro], the type check and the
    snapshot [self.raw_value.copy()]. *)
Definition aenter_read (w : world) (self : _ValueCtxManager)
  : world * outcome _ValueCtxManager :=
  match accessor__get w (value_obj self) (coro self) with
  | (w2, Raise e) => (w2, Raised e)
  | (w2, Ok raw) =>
      if negb (isinstance_list_or_dict (objects w2) raw) then (w2, Raised TypeError)
      else
        let '(h, original) := shallow_copy (objects w2) raw in
        (with_objects w2 h,
         Returned {| value_obj := value_obj self;
                     coro := coro self;
                     raw_value := raw;
                     __original_value := original;
                     __acquire_lock := __acquire_lock self;
                     __lock := __lock self |})
  end.

(** [_ValueCtxManager.__aenter__] *)
Definition __aenter__ (w : world) (self : _ValueCtxManager)
  : world * outcome _ValueCtxManager :=
  match aenter_acquire w self with
  | (w1, Blocked) => (w1, Blocked)
  | (w1, Raised e) => (w1, Raised e)
  | (w1, Returned _) => aenter_read w1 self
  end.

(** The [try] block of [__aexit__]: compare the working copy, with its keys
    cast to [str] when it is a dict, to the snapshot, and [set] it when they
    differ. *)
Definition aexit_try (w : world) (self : _ValueCtxManager) : world * result unit :=
  match deref (objects w) (raw_value self), deref (objects w) (__original_value self) with
  | Some raw, Some original =>
      if py_ne (str_key_value raw) original
      then accessor_set w (value_obj self) (raw_value self)
      else (w, Ok tt)
  | _, _ => (w, Raise RecursionError)
  end.

(** The [finally] clause of [__aexit__], reached with the result [r] of the
    [try] block: release the lock when the section took it. *)
Definition aexit_finally (w : world) (self : _ValueCtxManager) (r : result unit)
  : world * result unit :=
  if __acquire_lock self then
    match lock_release w (__lock self) with
    | (w2, Ok _) => (w2, r)
    | (w2, Raise e) => (w2, Raise e)
    end
  else (w, r).

(** [_ValueCtxManager.__aexit__] *)
Definition __aexit__ (w : world) (self : _ValueCtxManager) : world * result unit :=
  let '(w1, r) := aexit_try w self in aexit_finally w1 self r.

(** The body of a section: it gets the working copy and mutates objects in
    place; it may raise. *)
Definition section_body := pyval -> heap -> heap * result unit.

(** [async with mgr as x: body(x)]. When [__aenter__] raises, the statement
    is left at once and [__aexit__] does not run; once [__aenter__] has
    returned, [__aexit__] runs however the body ends, and since it returns
    [None] an exception of the body goes on to the caller. *)
Definition async_with (w : world) (mgr : _ValueCtxManager) (body : section_body)
  : world * outcome unit :=
  match __aenter__ w mgr with
  | (w1, Blocked) => (w1, Blocked)
  | (w1, Raised e) => (w1, Raised e)
  | (w1, Returned mgr1) =>
      let '(h2, r) := body (raw_value mgr1) (objects w1) in
      match __aexit__ (with_objects w1 h2) mgr1 with
      | (w3, Raise e) => (w3, Raised e)
      | (w3, Ok _) => (w3, match r with Ok _ => Returned tt | Raise e => Raised e end)
      end
  end.

(** [async with x(default, acquire_lock=...) as v: body(v)] *)
Definition section (w : world) (x : accessor) (default_arg : option pyval)
    (acquire_lock : bool) (body : section_body) : world * outcome unit :=
  let '(w1, mgr) := Value___call__ w x default_arg acquire_lock in
  async_with w1 mgr body.

(** * The store *)

(** ** [Config] *)

Module Config.

(** A [Config] object. Its [_lock_cache] is the part of the world's
    [_lock_cache] filed under the object's reference. *)
Record t : Type := {
  cog_name : string;
  unique_identifier : string;
  _driver : driver_ref;
  force_registration : bool;
  _defaults : pyval;
  custom_groups : list (string * nat)
}.

Definition GLOBAL : string := "GLOBAL".

(** [Config.__init__]; [defaults or {}] makes a new dict unless the caller
    passed a non-empty one, which is then kept as it is, not copied. *)
Definition __init__ (h : heap) (cog_name unique_identifier : string) (driver : driver_ref)
    (force_registration : bool) (defaults : option pyval) : heap * t :=
  let '(h1, d) :=
    match defaults with
    | Some v => if truthy h v then (h, v) else (h ++ [ODict []], PRef (List.length h))
    | None => (h ++ [ODict []], PRef (List.length h))
    end in
  (h1, {| cog_name := cog_name;
          unique_identifier := unique_identifier;
          _driver := driver;
          force_registration := force_registration;
          _defaults := d;
          custom_groups := [] |}).

(** The property [Config.defaults]. *)
Definition defaults (h : heap) (self : t) : result (heap * pyval) :=
  pickle_copy h (_defaults self).

Section BaseGroup.

(** [ConfigCategory.get_pkey_info], from [_drivers]: the primary-key arity of
    a category and whether it is a custom one. *)
Variable get_pkey_info : string -> list (string * nat) -> nat * bool.

(** [Config._get_base_group]; [self_ref] is the reference to [self], which
    the new [Group] keeps as its [_config]. The [{}] that is [.get]'s second
    argument is made before [.get] looks the category up. *)
Definition _get_base_group (h : heap) (self : t) (self_ref : config_ref)
    (category : string) (primary_keys : list string) : result (heap * Group) :=
  let '(pkey_len, is_custom) := get_pkey_info category (custom_groups self) in
  let identifier_data :=
    Build_IdentifierData (cog_name self) (unique_identifier self) category
      primary_keys [] pkey_len is_custom in
  if (List.length primary_keys <? pkey_len)%nat then
    Ok (Group___init__ (h ++ [ODict []]) identifier_data (PRef (List.length h))
          (_driver self) self_ref (force_registration self))
  else
    match defaults h self with
    | Raise e => Raise e
    | Ok (h1, dv) =>
        match dict_of h1 dv with
        | None => Raise AttributeError
        | Some kvs =>
            Ok (Group___init__ (h1 ++ [ODict []]) identifier_data
                  (match dict_get kvs (KStr category) with
                   | Some v => v
                   | None => PRef (List.length h1)
                   end)
                  (_driver self) self_ref (force_registration self))
        end
    end.

End BaseGroup.

End Config.

(** ** [ConfigMeta] *)

Module ConfigMeta.

Definition cache_key := (string * string)%type.

Definition cache_key_eqb (a b : cache_key) : bool :=
  String.eqb (fst a) (fst b) && String.eqb (snd a) (snd b).

(** The [Config] objects made so far, a reference being an index, and the
    module's [_config_cache]. The cache is a [WeakValueDictionary]: it holds
    the live instances, and an instance nothing else refers to any more
    leaves it ([reclaim]). *)
Record registry : Type := {
  instances : list Config.t;
  _config_cache : list (cache_key * config_ref)
}.

Definition no_configs : registry := {| instances := []; _config_cache := [] |}.

Fixpoint cache_get (c : list (cache_key * config_ref)) (k : cache_key) : option config_ref :=
  match c with
  | [] => None
  | (k', r) :: t => if cache_key_eqb k' k then Some r else cache_get t k
  end.

Fixpoint cache_remove (c : list (cache_key * config_ref)) (k : cache_key)
  : list (cache_key * config_ref) :=
  match c with
  | [] => []
  | (k', r) :: t => if cache_key_eqb k' k then cache_remove t k else (k', r) :: cache_remove t k
  end.

(** [ConfigMeta.__call__]; [cog_name] is [None] or a string. A key not in
    the cache is never bound twice, so the new binding can go in front. *)
Definition __call__ (st : registry) (h : heap) (cog_name : option string)
    (unique_identifier : string) (driver : driver_ref) (force_registration : bool)
    (defaults : option pyval) : registry * heap * result config_ref :=
  match cog_name with
  | None => (st, h, Raise ValueError)
  | Some name =>
      let key := (name, unique_identifier) in
      match cache_get (_config_cache st) key with
      | Some instance => (st, h, Ok instance)
      | None =>
          let '(h1, instance) :=
            Config.__init__ h name unique_identifier driver force_registration defaults in
          ({| instances := instances st ++ [instance];
              _config_cache := (key, List.length (instances st)) :: _config_cache st |},
           h1, Ok (List.length (instances st)))
      end
  end.

(** The garbage collector drops the instance cached under [k]: the weak
    dictionary loses the entry. *)
Definition reclaim (st : registry) (k : cache_key) : registry :=
  {| instances := instances st; _config_cache := cache_remove (_config_cache st) k |}.

Section Register.

(** [Config._register_default], which the source file elides: it updates
    the dict [self._defaults] in place from the keyword arguments. *)
Variable _register_default : heap -> Config.t -> string -> items -> heap.

(** [Config.register_global] through the reference [self]. *)
Definition register_global (st : registry) (h : heap) (self : config_ref) (kwargs : items)
  : heap :=
  match nth_error (instances st) self with
  | Some c => _register_default h c Config.GLOBAL kwargs
  | None => h
  end.

End Register.

(** The schema as read through the reference [self]: [self.defaults]. *)
Definition defaults_of (st : registry) (h : heap) (self : config_ref) : option json :=
  match nth_error (instances st) self with
  | Some c => deref h (Config._defaults c)
  | None => None
  end.

(** What a program does to the registry: construct a [Config], or lose the
    last reference to one. *)
Inductive event : Type :=
| Construct (cog_name : option string) (unique_identifier : string) (driver : driver_ref)
    (force_registration : bool) (defaults : option pyval)
| Reclaim (k : cache_key).

Definition apply_event (sh : registry * heap) (e : event) : registry * heap :=
  match e with
  | Construct n u d f df => fst (__call__ (fst sh) (snd sh) n u d f df)
  | Reclaim k => (reclaim (fst sh) k, snd sh)
  end.

(** The registry and heap after a run of events from an empty registry. *)
Definition run (h : heap) (es : list event) : registry * heap :=
  fold_left apply_event es (no_configs, h).

(** The instance at [r] is live: the cache holds it. *)
Definition live (st : registry) (r : config_ref) : Prop :=
  exists k, cache_get (_config_cache st) k = Some r.

Definition key_of (c : Config.t) : cache_key :=
  (Config.cog_name c, Config.unique_identifier c).

(** Every cached reference names an instance made for that very key. *)
Definition cache_sound (st : registry) : Prop :=
  forall k r, cache_get (_config_cache st) k = Some r ->
              exists c, nth_error (instances st) r = Some c /\ key_of c = k.

End ConfigMeta.

(** * Two sections side by side *)

(** The statement [async with x(default, acquire_lock=...) as v: body(v)]
    that a task runs. *)
Record program : Type := {
  p_accessor : accessor;
  p_default : option pyval;
  p_acquire_lock : bool;
  p_body : section_body
}.

(** Where a task stands. The tasks of one event loop run one at a time and
    give way only where they [await]; each constructor but the first and
    the last names such a point, with the manager the task holds:
    - [TAcquire]: in [__aenter__], at [await self.__lock.acquire()];
    - [TRead]: the lock is taken (when the section takes it), at
      [await self.coro];
    - [TBody]: [__aenter__] has returned and the body is under way;
    - [TExit]: the body is over with result [r], at the [try] block of
      [__aexit__] and its [await self.value_obj.set(...)];
    - [TFinally]: the [try] block is over with result [r1], at the [finally]
      clause;
    - [TDone]: the statement is over.
    [calls] lists the [driver.set] calls the section made. *)
Inductive task : Type :=
| TStart
| TAcquire (mgr : _ValueCtxManager)
| TRead (mgr : _ValueCtxManager)
| TBody (mgr : _ValueCtxManager)
| TExit (mgr : _ValueCtxManager) (r : result unit)
| TFinally (mgr : _ValueCtxManager) (r r1 : result unit) (calls : list (slot * json))
| TDone (r : result unit) (calls : list (slot * json)).

(** The [driver.set] calls made between [w] and [w']. *)
Definition new_calls (w w' : world) : list (slot * json) :=
  skipn (List.length (set_calls w)) (set_calls w').

(** One turn of a task, up to its next [await]; [None] when the task is over
    or waits for a lock that is held. *)
Definition task_step (p : program) (w : world) (t : task) : option (world * task) :=
  match t with
  | TStart =>
      let '(w1, mgr) := Value___call__ w (p_accessor p) (p_default p) (p_acquire_lock p) in
      Some (w1, TAcquire mgr)
  | TAcquire mgr =>
      match aenter_acquire w mgr with
      | (w1, Returned _) => Some (w1, TRead mgr)
      | (w1, Raised e) => Some (w1, TDone (Raise e) [])
      | (_, Blocked) => None
      end
  | TRead mgr =>
      match aenter_read w mgr with
      | (w1, Returned mgr1) => Some (w1, TBody mgr1)
      | (w1, Raised e) => Some (w1, TDone (Raise e) [])
      | (_, Blocked) => None
      end
  | TBody mgr =>
      let '(h, r) := p_body p (raw_value mgr) (objects w) in
      Some (with_objects w h, TExit mgr r)
  | TExit mgr r =>
      let '(w1, r1) := aexit_try w mgr in
      Some (w1, TFinally mgr r r1 (new_calls w w1))
  | TFinally mgr r r1 calls =>
      let '(w1, r2) := aexit_finally w mgr r1 in
      Some (w1, TDone (match r2 with Ok _ => r | Raise e => Raise e end) calls)
  | TDone _ _ => None
  end.

(** [task.cancel()] from outside: [CancelledError] is raised in the task at
    the [await] it is suspended at. Thrown into [__aenter__] it leaves the
    statement at once; thrown into the body it is an exception of the body,
    and [__aexit__] runs; thrown into the [set] of the [try] block, before
    the driver has written or after, it takes the task to the [finally]
    clause. *)
Definition task_cancel (t : task) : option task :=
  match t with
  | TAcquire _ => Some (TDone (Raise CancelledError) [])
  | TRead _ => Some (TDone (Raise CancelledError) [])
  | TBody mgr => Some (TExit mgr (Raise CancelledError))
  | TExit mgr r => Some (TFinally mgr r (Raise CancelledError) [])
  | TFinally mgr r _ calls => Some (TFinally mgr r (Raise CancelledError) calls)
  | TStart | TDone _ _ => None
  end.

(** [n] turns of one task. *)
Fixpoint turns (p : program) (n : nat) (wt : world * task) : world * task :=
  match n with
  | O => wt
  | S m =>
      match task_step p (fst wt) (snd wt) with
      | Some wt' => turns p m wt'
      | None => wt
      end
  end.

Definition manager_of (t : task) : option _ValueCtxManager :=
  match t with
  | TAcquire mgr | TRead mgr | TBody mgr | TExit mgr _ | TFinally mgr _ _ _ => Some mgr
  | TStart | TDone _ _ => None
  end.

(** The task is inside its section: past [acquire], not yet past the
    [finally] clause. *)
Definition in_section (t : task) : bool :=
  match t with
  | TRead _ | TBody _ | TExit _ _ | TFinally _ _ _ _ => true
  | TStart | TAcquire _ | TDone _ _ => false
  end.

(** The task has not made its write-back yet, and may still make one. *)
Definition before_write (t : task) : bool :=
  match t with
  | TStart | TAcquire _ | TRead _ | TBody _ | TExit _ _ => true
  | TFinally _ _ _ _ | TDone _ _ => false
  end.

(** The [driver.set] calls a task has made through its section. *)
Definition calls_of (t : task) : list (slot * json) :=
  match t with
  | TFinally _ _ _ calls | TDone _ calls => calls
  | _ => []
  end.

(** No manager of the task holds the lock [l]. *)
Definition unreferenced (l : lock_ref) (t : task) : Prop :=
  match manager_of t with
  | Some mgr => __lock mgr <> l
  | None => True
  end.

Definition system := (world * task * task)%type.

(** One step of the event loop with two tasks: a turn of either task, a
    cancellation of either, or the collection of a lock that no manager
    holds any more. *)
Inductive sys_step (p1 p2 : program) : system -> system -> Prop :=
| turn1 w t1 t2 w' t1' :
    task_step p1 w t1 = Some (w', t1') -> sys_step p1 p2 (w, t1, t2) (w', t1', t2)
| turn2 w t1 t2 w' t2' :
    task_step p2 w t2 = Some (w', t2') -> sys_step p1 p2 (w, t1, t2) (w', t1, t2')
| cancel1 w t1 t2 t1' :
    task_cancel t1 = Some t1' -> sys_step p1 p2 (w, t1, t2) (w, t1', t2)
| cancel2 w t1 t2 t2' :
    task_cancel t2 = Some t2' -> sys_step p1 p2 (w, t1, t2) (w, t1, t2')
| collect w t1 t2 k l :
    table_get (_lock_cache w) k = Some l ->
    unreferenced l t1 -> unreferenced l t2 ->
    sys_step p1 p2 (w, t1, t2) (forget_lock w k, t1, t2).

(** The states the two tasks can reach from the world [w0]. *)
Inductive reachable (p1 p2 : program) (w0 : world) : system -> Prop :=
| reach_start : reachable p1 p2 w0 (w0, TStart, TStart)
| reach_step s s' : reachable p1 p2 w0 s -> sys_step p1 p2 s s' -> reachable p1 p2 w0 s'.

(** The slot the program's accessor reads and writes, and the slot its lock
    is cached under. *)
Definition data_slot (p : program) : slot :=
  slot_of (_driver (accessor_Value (p_accessor p)))
    (identifier_data (accessor_Value (p_accessor p))).

Definition lock_slot (p : program) : slot :=
  slot_of (_config (accessor_Value (p_accessor p)))
    (identifier_data (accessor_Value (p_accessor p))).

Arguments data_slot : simpl never.
Arguments lock_slot : simpl never.

(** ** The invariant *)

(** What holds of a task of program [p] in world [w]: its manager is for the
    program's accessor, takes the lock, and holds the lock the cache has for
    the address; the lock is locked while the task is inside its section;
    and the section has made one [set] call at most, at its own address. *)
Definition task_ok (p : program) (w : world) (t : task) : Prop :=
  match manager_of t with
  | Some mgr =>
      value_obj mgr = p_accessor p
      /\ __acquire_lock mgr = true
      /\ table_get (_lock_cache w) (lock_slot p) = Some (__lock mgr)
      /\ (in_section t = true -> locked w (__lock mgr) = true)
  | None => True
  end
  /\ (calls_of t = [] \/ exists v, calls_of t = [(data_slot p, v)]).

(** What the section of [tj] wrote is what the driver holds, as long as the
    other task has not written. *)
Definition write_seen (pj : program) (w : world) (ti tj : task) : Prop :=
  forall v, calls_of tj = [(data_slot pj, v)] -> before_write ti = true ->
            table_get (stored w) (data_slot pj) = Some v.

(** The invariant of two sections on one address, for a task [t] of [p]
    next to a task [u] of [q]: cached locks exist, each task is in order,
    the two are not both inside their sections, and each one's write is what
    the driver holds until the other writes. *)
Definition inv_parts (p q : program) (w : world) (t u : task) : Prop :=
  locks_exist w
  /\ task_ok p w t
  /\ task_ok q w u
  /\ (in_section t = true -> in_section u = true -> False)
  /\ write_seen q w t u
  /\ write_seen p w u t.

Definition serial_inv (p1 p2 : program) (s : system) : Prop :=
  let '(w, t1, t2) := s in inv_parts p1 p2 w t1 t2.

(** * Sample data *)

(** The address of the global settings of a cog. *)
Definition global_address : IdentifierData :=
  {| cog_name := "Mod";
     uuid := "4961522000";
     category := "GLOBAL";
     primary_key := [];
     identifiers := [];
     primary_key_len := 0;
     is_custom := false |}.

Definition empty_world : world :=
  {| objects := []; stored := []; set_calls := []; locks := []; _lock_cache := [] |}.

(** A [Value] with no default at [global_address]. *)
Definition plain_value : Value :=
  {| identifier_data := global_address; default := PNone;
     _driver := 0%nat; _config := 0%nat |}.

(** A section body that does nothing. *)
Definition idle_body : section_body := fun _ h => (h, Ok tt).

(** ** The scenario of the spec *)

(** The schema of the spec's scenario,
    [{"threshold": 5, "flags": {"a": true, "b": false}}]. *)
Definition scenario_schema : json :=
  JDict [(KStr "threshold", JInt 5);
         (KStr "flags", JDict [(KStr "a", JBool true); (KStr "b", JBool false)])].

(** The stored value of the scenario, [{"flags": {"b": true, "c": 1}}]. *)
Definition scenario_stored : json :=
  JDict [(KStr "flags", JDict [(KStr "b", JBool true); (KStr "c", JInt 1)])].

(** What the spec expects [get()] to return in the scenario,
    [{"threshold": 5, "flags": {"a": true, "b": true, "c": 1}}]. *)
Definition scenario_expected : json :=
  JDict [(KStr "threshold", JInt 5);
         (KStr "flags",
          JDict [(KStr "a", JBool true); (KStr "b", JBool true); (KStr "c", JInt 1)])].

(** A world where a root [Group] for [global_address] has been made over a
    schema and the driver holds what [stored_at] lists. *)
Definition group_world (schema : json) (force : bool) (stored_at : list (slot * json))
  : world * Group :=
  let '(h, d) := alloc schema [] in
  let '(h1, g) := Group___init__ h global_address d 0%nat 0%nat force in
  ({| objects := h1; stored := stored_at; set_calls := []; locks := []; _lock_cache := [] |},
   g).

Definition scenario_world : world := fst (group_world scenario_schema false []).
Definition scenario_group : Group := snd (group_world scenario_schema false []).

(** The scenario's world: the schema registered for a root [Group], and the
    driver holding [scenario_stored] at its address. *)
Definition scenario_stored_world : world :=
  fst (group_world scenario_schema false [(slot_of 0%nat global_address, scenario_stored)]).

(** ** Other worlds *)

(** [{"a": [{1: 2}]}]: a mapping with a mapping below a list. *)
Definition listed_mapping : json :=
  JDict [(KStr "a", JList [JDict [(KInt 1, JInt 2)]])].

(** A world whose driver holds the scalar [5] at [global_address]. *)
Definition scalar_world : world :=
  {| objects := []; stored := [(slot_of 0%nat global_address, JInt 5)]; set_calls := [];
     locks := []; _lock_cache := [] |}.

(** A world whose driver holds [scenario_stored] at [global_address], with no
    [set] call made yet. *)
Definition nested_world : world :=
  {| objects := []; stored := [(slot_of 0%nat global_address, scenario_stored)];
     set_calls := []; locks := []; _lock_cache := [] |}.

(** The body [v["flags"]["b"] = False]: a mutation of a nested container. *)
Definition nested_body : section_body :=
  fun v h =>
    match dict_of h v with
    | Some kvs =>
        match dict_get kvs (KStr "flags") with
        | Some flags => (setitem_of h flags (KStr "b") (PBool false), Ok tt)
        | None => (h, Raise KeyError)
        end
    | None => (h, Raise TypeError)
    end.

(** The working copy of the scenario after [nested_body]. *)
Definition nested_mutated : json :=
  JDict [(KStr "flags", JDict [(KStr "b", JBool false); (KStr "c", JInt 1)])].

(** A world whose driver holds [{"threshold": 5}] at [global_address]. *)
Definition threshold_world : world :=
  {| objects := []; stored := [(slot_of 0%nat global_address, JDict [(KStr "threshold", JInt 5)])];
     set_calls := []; locks := []; _lock_cache := [] |}.

(** The body [v["threshold"] = 6]: a mutation of the working copy itself. *)
Definition top_body : section_body :=
  fun v h => (setitem_of h v (KStr "threshold") (PInt 6), Ok tt).

(** A section on [plain_value] that sets [v["threshold"] = 6]. *)
Definition writer : program :=
  {| p_accessor := AValue plain_value;
     p_default := None;
     p_acquire_lock := true;
     p_body := top_body |}.

(** ** A registered list default *)

(** The schema [{"GLOBAL": {"tags": []}}] of a [Config], as objects. *)
Definition tags_schema : json := JDict [(KStr "GLOBAL", JDict [(KStr "tags", JList [])])].

Definition tags_heap : heap := fst (alloc tags_schema []).

Definition tags_config : Config.t :=
  {| Config.cog_name := "Mod";
     Config.unique_identifier := "4961522000";
     Config._driver := 0%nat;
     Config.force_registration := false;
     Config._defaults := snd (alloc tags_schema []);
     Config.custom_groups := [] |}.

(** [get_pkey_info] for a cog with global settings only. *)
Definition global_pkey_info (category : string) (custom : list (string * nat)) : nat * bool :=
  (0%nat, false).

(** The root [Group] of [GLOBAL] that [tags_config] makes, and the heap it
    leaves. *)
Definition tags_root : heap * Group :=
  match Config._get_base_group global_pkey_info tags_heap tags_config 0%nat "GLOBAL" [] with
  | Ok hg => hg
  | Raise _ => Group___init__ tags_heap global_address PNone 0%nat 0%nat false
  end.

Definition tags_group : Group := snd tags_root.

(** The world after the root [Group] is made, with nothing stored. *)
Definition tags_world : world :=
  {| objects := fst tags_root; stored := []; set_calls := []; locks := [];
     _lock_cache := [] |}.

(** [tags_group.tags], the child [Value] for the list default. *)
Definition tags_value : Value :=
  match snd (Group___getattr__ (objects tags_world) tags_group "tags") with
  | Ok x => accessor_Value x
  | Raise _ => plain_value
  end.


(** * More of the module *)

(** ** What [_str_key_dict] keeps *)

(** The value of the last item of [value] whose key has the [str] form [s]. *)
Fixpoint last_with_str (value : items) (s : string) : option json :=
  match value with
  | [] => None
  | kv :: t =>
      match last_with_str t s with
      | Some v => Some v
      | None => if String.eqb (str (fst kv)) s then Some (snd kv) else None
      end
  end.

(** ** Clearing *)

(** Modelled from the spec: [driver.clear] (section 6) removes the value at
    the address if there is one, and is a no-op, not an error, if there is
    none. *)
Definition driver_clear (w : world) (d : driver_ref) (a : IdentifierData) : world :=
  {| objects := objects w;
     stored := table_remove (stored w) (slot_of d a);
     set_calls := set_calls w;
     locks := locks w;
     _lock_cache := _lock_cache w |}.

(** [Value.clear] *)
Definition Value_clear (w : world) (self : Value) : world :=
  driver_clear w (_driver self) (identifier_data self).

(** [Group.clear_raw]: the path items are cast with [str], as in
    [Group.set_raw]. *)
Definition Group_clear_raw (w : world) (self : Group) (nested_path : list key) : world :=
  driver_clear w (_driver (as_Value self))
    (fold_left get_child (map str nested_path) (identifier_data (as_Value self))).

(** ** The lock cache *)

(** A [Value] at the five fields of [global_address], made with another
    primary-key arity and the custom flag set. *)
Definition flagged_value : Value :=
  {| identifier_data :=
       {| cog_name := "Mod";
          uuid := "4961522000";
          category := "GLOBAL";
          primary_key := [];
          identifiers := [];
          primary_key_len := 1;
          is_custom := true |};
     default := PNone;
     _driver := 0%nat; _config := 0%nat |}.

(** No lock is cached under two addresses. *)
Definition locks_distinct (w : world) : Prop :=
  forall k k' l,
    table_get (_lock_cache w) k = Some l -> table_get (_lock_cache w) k' = Some l -> k = k'.

(** ** Sections on a list *)

(** [xs.remove(x)] on the items of a list, [same] telling the items that
    equal [x]: the first of them goes; there is no result, Python's
    [ValueError], when there is none. *)
Fixpoint list_remove (A : Type) (same : A -> bool) (xs : list A) : option (list A) :=
  match xs with
  | [] => None
  | y :: t => if same y then Some t else option_map (cons y) (list_remove same t)
  end.

(** [ys] is [xs] with some of its items left out. *)
Inductive subsequence (A : Type) : list A -> list A -> Prop :=
| sub_nil : subsequence [] []
| sub_skip x ys xs : subsequence ys xs -> subsequence ys (x :: xs)
| sub_keep x ys xs : subsequence ys xs -> subsequence (x :: ys) (x :: xs).

(** [item == z] for an [int] [z]: an [int] or a [bool] may equal it, and
    nothing else of the value model does. *)
Definition eq_int (z : Z) (item : pyval) : bool :=
  match item with
  | PInt y => Z.eqb y z
  | PBool b => Z.eqb (bool_as_int b) z
  | _ => false
  end.

(** The body of the section in [Mod.red_delete_data_for_user]:
    [try: tbs.remove(user_id)] with [except ValueError: pass]. A dict has no
    [remove]. *)
Definition remove_body (user_id : Z) : section_body :=
  fun tbs h =>
    match tbs with
    | PRef l =>
        match nth_error h l with
        | Some (OList xs) =>
            match list_remove (eq_int user_id) xs with
            | Some ys => (heap_update h l (OList ys), Ok tt)
            | None => (h, Ok tt)
            end
        | _ => (h, Raise AttributeError)
        end
    | _ => (h, Raise AttributeError)
    end.

(** The body of the section in [KickBanMixin.tempban]:
    [current_tempbans.append(member.id)]. A dict has no [append]. *)
Definition append_body (member_id : Z) : section_body :=
  fun current_tempbans h =>
    match current_tempbans with
    | PRef l =>
        match nth_error h l with
        | Some (OList xs) => (heap_update h l (OList (xs ++ [PInt member_id])), Ok tt)
        | _ => (h, Raise AttributeError)
        end
    | _ => (h, Raise AttributeError)
    end.

(** A body that assigns to an item of the working copy, [v[k] = x], and then
    ends with the result [r]: it returns, or raises. A list takes [int]
    indices only, which this body does not model. *)
Definition setitem_body (k : key) (x : pyval) (r : result unit) : section_body :=
  fun v h =>
    match v with
    | PRef l =>
        match nth_error h l with
        | Some (ODict kvs) => (heap_update h l (ODict (dict_set kvs k x)), r)
        | _ => (h, Raise TypeError)
        end
    | _ => (h, Raise TypeError)
    end.

(** The deep value of a scalar. *)
Definition scalar_value (x : pyval) : option json :=
  match x with
  | PNone => Some JNone
  | PBool b => Some (JBool b)
  | PInt z => Some (JInt z)
  | PStr s => Some (JStr s)
  | PRef _ => None
  end.

(** The lock the cache of [self]'s [Config] has for [self]'s address is
    free, if there is one. *)
Definition lock_free (w : world) (self : Value) : Prop :=
  forall l, table_get (_lock_cache w) (slot_of (_config self) (identifier_data self)) = Some l ->
            locked w l = false.

(** ** [get_latest_confs] *)

(** The module's two globals: the registry with [_config_cache], and the
    [WeakSet] [_retrieved]. *)
Record module_state : Type := {
  configs : ConfigMeta.registry;
  _retrieved : list config_ref
}.

Definition in_refs (r : config_ref) (s : list config_ref) : bool := existsb (Nat.eqb r) s.

(** [get_latest_confs]: [set(_config_cache.values()) - set(_retrieved)] is
    added to [_retrieved] and returned as a tuple. A set has no order of its
    own; the tuple is listed here in the order of the cache. *)
Definition get_latest_confs (m : module_state) : module_state * list config_ref :=
  let new_configs :=
    filter (fun r => negb (in_refs r (_retrieved m)))
      (nodup Nat.eq_dec (map snd (ConfigMeta._config_cache (configs m)))) in
  ({| configs := configs m; _retrieved := _retrieved m ++ new_configs |}, new_configs).

(** The garbage collector drops the instance cached under [k]: both weak
    containers lose it. *)
Definition collect_config (m : module_state) (k : ConfigMeta.cache_key) : module_state :=
  match ConfigMeta.cache_get (ConfigMeta._config_cache (configs m)) k with
  | Some r =>
      {| configs := ConfigMeta.reclaim (configs m) k;
         _retrieved := filter (fun x => negb (Nat.eqb x r)) (_retrieved m) |}
  | None => m
  end.

(** What a program does to the module: construct a [Config], lose the last
    reference to one, or call [get_latest_confs]. *)
Inductive module_event : Type :=
| MConstruct (cog_name : option string) (unique_identifier : string) (driver : driver_ref)
    (force_registration : bool) (defaults : option pyval)
| MCollect (k : ConfigMeta.cache_key)
| MLatest.

(** The module, the heap, and what the calls of [get_latest_confs] have
    returned so far, oldest first. *)
Definition module_run_state := (module_state * heap * list (list config_ref))%type.

Definition module_step (s : module_run_state) (e : module_event) : module_run_state :=
  let '(m, h, outs) := s in
  match e with
  | MConstruct n u d f df =>
      let '(st, h1, _) := ConfigMeta.__call__ (configs m) h n u d f df in
      ({| configs := st; _retrieved := _retrieved m |}, h1, outs)
  | MCollect k => (collect_config m k, h, outs)
  | MLatest => let '(m1, out) := get_latest_confs m in (m1, h, outs ++ [out])
  end.

Definition fresh_module : module_state :=
  {| configs := ConfigMeta.no_configs; _retrieved := [] |}.

Definition module_run (h : heap) (es : list module_event) : module_run_state :=
  fold_left module_step es (fresh_module, h, []).

(** The references the cache holds. *)
Definition cache_refs (m : module_state) : list config_ref :=
  map snd (ConfigMeta._config_cache (configs m)).

(** What holds while the module runs: the cache holds no reference twice
    and only references of instances that were made; and a reference that
    [get_latest_confs] has returned is in [_retrieved], unless the cache has
    lost it, and was returned once. *)
Definition module_inv (s : module_run_state) : Prop :=
  let '(m, _, outs) := s in
  NoDup (cache_refs m)
  /\ (forall r, In r (cache_refs m) ->
                (r < List.length (ConfigMeta.instances (configs m)))%nat)
  /\ (forall r, In r (List.concat outs) ->
                (r < List.length (ConfigMeta.instances (configs m)))%nat
                /\ (In r (_retrieved m) \/ ~ In r (cache_refs m)))
  /\ NoDup (List.concat outs).

(** ** [Config.get_conf] *)

Section GetConf.

(** [get_driver], from [_drivers], and whether the driver it returns has a
    [migrate_identifier] method. *)
Variable get_driver : string -> string -> bool -> driver_ref.
Variable has_migrate_identifier : driver_ref -> bool.

(** [Config.get_conf]; [cog_instance_type] is [type(cog_instance).__name__].
    Beside what [cls(...)] gives, the result lists the call of
    [driver.migrate_identifier] that was made, if any. The warning that is
    logged under [allow_old] is left out. *)
Definition Config_get_conf (st : ConfigMeta.registry) (h : heap) (cog_instance_type : string)
    (identifier : Z) (force_registration : bool) (cog_name : option string) (allow_old : bool)
  : ConfigMeta.registry * heap * result config_ref * list (driver_ref * Z) :=
  let uuid := str (KInt identifier) in
  let name :=
    match cog_name with
    | Some n => if String.eqb n "" then cog_instance_type else n
    | None => cog_instance_type
    end in
  let driver := get_driver name uuid allow_old in
  let migrated := if has_migrate_identifier driver then [(driver, identifier)] else [] in
  (ConfigMeta.__call__ st h (Some name) uuid driver force_registration None, migrated).

(** [Config.get_core_conf]: [cls.get_conf(None, cog_name="Core",
    identifier=0, ...)]. *)
Definition Config_get_core_conf (st : ConfigMeta.registry) (h : heap)
    (force_registration allow_old : bool)
  : ConfigMeta.registry * heap * result config_ref * list (driver_ref * Z) :=
  Config_get_conf st h "NoneType" 0 force_registration (Some "Core") allow_old.

End GetConf.

(** ** [redbot/cogs/mod/kickban.py]: expired temporary bans *)

Module KickBanMixin.

(** How [await guild.unban(...)] ends: it returns, or raises
    [discord.NotFound], another [discord.HTTPException] with its [code], or
    something else. *)
Inductive unban_outcome : Type :=
| Unbanned
| NotFound
| HTTPException (code : Z)
| Failed (e : exn).

Section Expirations.

(** What the loop observes at its [i]-th round for the user [uid]: whether
    the ban is over, [datetime.now(timezone.utc) > unban_time] with
    [unban_time] read from the member's [banned_until] (an exception of the
    read or of the conversion is an exception of the loop); and how the
    unban ends. *)
Variable expired : nat -> Z -> result bool.
Variable unban : nat -> Z -> unban_outcome.

(** The [for] loop over [guild_tempbans.copy()], from its [i]-th round on:
    [todo] is what is left of the copy, [guild_tempbans] the items of the
    list itself, which the loop changes in place. *)
Fixpoint expirations_loop (i : nat) (todo guild_tempbans : list Z) (changed : bool)
  : list Z * result bool :=
  match todo with
  | [] => (guild_tempbans, Ok changed)
  | uid :: rest =>
      match expired i uid with
      | Raise e => (guild_tempbans, Raise e)
      | Ok false => expirations_loop (S i) rest guild_tempbans changed
      | Ok true =>
          match unban i uid with
          | Unbanned | NotFound =>
              match list_remove (Z.eqb uid) guild_tempbans with
              | Some l => expirations_loop (S i) rest l true
              | None => (guild_tempbans, Raise ValueError)
              end
          | HTTPException code =>
              if Z.eqb code 50013 || Z.eqb code 403 then (guild_tempbans, Ok changed)
              else expirations_loop (S i) rest guild_tempbans changed
          | Failed e => (guild_tempbans, Raise e)
          end
      end
  end.

(** [KickBanMixin._check_guild_tempban_expirations]: the items of the list
    when the call is over, and what it returns. *)
Definition _check_guild_tempban_expirations (guild_tempbans : list Z) : list Z * result bool :=
  expirations_loop 0 guild_tempbans guild_tempbans false.

End Expirations.

End KickBanMixin.

(** ** [redbot/__main__.py]: editing the prefixes *)

Module Main.

(** [sorted(prefixes, reverse=True)] on strings. Python orders strings by
    their code points, as [String.leb] does; the greatest comes first. Equal
    strings are one string, so the order in which a sort leaves them does
    not show. *)
Fixpoint insert_desc (s : string) (l : list string) : list string :=
  match l with
  | [] => [s]
  | x :: t => if String.leb x s then s :: l else x :: insert_desc s t
  end.

Definition sorted_reverse (l : list string) : list string := fold_right insert_desc [] l.

(** How a function that reads the terminal ends: with a result of its own,
    or with the [EOFError] of [input] when there is nothing left to read. *)
Inductive ended : Type :=
| Ended (r : result unit)
| EOFError.

(** [not prefixes or any(p.startswith("/") for p in prefixes)] *)
Definition invalid_prefixes (prefixes : list string) : bool :=
  match prefixes with [] => true | _ => false end || existsb (String.prefix "/") prefixes.

Section Edit.

(** What the user answers to [confirm(...)], and the accessor
    [red._config.prefix]. *)
Variable confirm : string -> bool.
Variable prefix : accessor.

(** [await red._config.prefix.set(sorted(prefixes, reverse=True))] *)
Definition set_prefixes (w : world) (prefixes : list string) : world * result unit :=
  let '(h, v) := alloc (JList (map JStr (sorted_reverse prefixes))) (objects w) in
  accessor_set (with_objects w h) prefix v.

(** [prompt_for_prefixes]; [lines] lists what the calls of
    [input(...).strip().split()] give, in order. What is printed is left
    out. *)
Fixpoint prompt_for_prefixes (w : world) (lines : list (list string)) : world * ended :=
  match lines with
  | [] => (w, EOFError)
  | prefixes :: rest =>
      if invalid_prefixes prefixes then prompt_for_prefixes w rest
      else let '(w1, r) := set_prefixes w prefixes in (w1, Ended r)
  end.

(** [_edit_prefix]; [prefix_arg] is the [prefix] argument, [None] or a
    list. What is logged is left out. *)
Definition _edit_prefix (w : world) (prefix_arg : option (list string)) (no_prompt : bool)
    (lines : list (list string)) : world * ended :=
  match prefix_arg with
  | Some (p :: ps) => let '(w1, r) := set_prefixes w (p :: ps) in (w1, Ended r)
  | _ =>
      if negb no_prompt && confirm "Change instance's prefixes?"
      then prompt_for_prefixes w lines
      else (w, Ended (Ok tt))
  end.

End Edit.

End Main.

(** * Facts about the data *)

(** ** Keys, dicts and tables *)

Lemma key_eqb_eq a b : key_eqb a b = true <-> a = b.
Proof.
  destruct a, b; simpl; split; intro H; try discriminate; try congruence.
  - apply String.eqb_eq in H. now subst.
  - inversion H. apply String.eqb_refl.
  - apply Z.eqb_eq in H. now subst.
  - inversion H. apply Z.eqb_refl.
Qed.

Lemma key_eqb_refl a : key_eqb a a = true.
Proof. now apply key_eqb_eq. Qed.

Lemma key_eqb_neq a b : key_eqb a b = false <-> a <> b.
Proof.
  split.
  - intros H E. apply key_eqb_eq in E. congruence.
  - intros H. destruct (key_eqb a b) eqn:E; [|reflexivity].
    apply key_eqb_eq in E. contradiction.
Qed.

Lemma key_eqb_sym a b : key_eqb a b = key_eqb b a.
Proof.
  destruct (key_eqb a b) eqn:E; symmetry.
  - apply key_eqb_eq in E. subst. apply key_eqb_refl.
  - apply key_eqb_neq in E. apply key_eqb_neq. congruence.
Qed.

Section DictFacts.
Variable V : Type.
Implicit Types (d : list (key * V)) (v : V) (k : key).

Lemma dict_get_set_same d k v : dict_get (dict_set d k v) k = Some v.
Proof.
  induction d as [|[k' v'] t IH]; simpl.
  - now rewrite key_eqb_refl.
  - destruct (key_eqb k' k) eqn:E; simpl; rewrite E; auto.
Qed.

Lemma dict_get_set_other d k k' v :
  k <> k' -> dict_get (dict_set d k v) k' = dict_get d k'.
Proof.
  intros Hne. induction d as [|[k0 v0] t IH]; simpl.
  - apply key_eqb_neq in Hne. now rewrite Hne.
  - destruct (key_eqb k0 k) eqn:E; simpl.
    + apply key_eqb_eq in E. subst k0.
      apply key_eqb_neq in Hne. now rewrite Hne.
    + now rewrite IH.
Qed.

Lemma dict_get_In d k v : dict_get d k = Some v -> In (k, v) d.
Proof.
  induction d as [|[k0 v0] t IH]; simpl; [discriminate|].
  destruct (key_eqb k0 k) eqn:E.
  - apply key_eqb_eq in E. intros [= ->]. subst. now left.
  - intros H. right. auto.
Qed.

Lemma dict_get_None d k : dict_get d k = None <-> ~ In k (dict_keys d).
Proof.
  induction d as [|[k0 v0] t IH]; simpl.
  - tauto.
  - destruct (key_eqb k0 k) eqn:E.
    + apply key_eqb_eq in E. split; [discriminate|]. intros H. exfalso. auto.
    + apply key_eqb_neq in E. rewrite IH. tauto.
Qed.

Lemma dict_keys_set d k v :
  forall k', In k' (dict_keys (dict_set d k v)) <-> k' = k \/ In k' (dict_keys d).
Proof.
  intros k'. induction d as [|[k0 v0] t IH]; simpl.
  - intuition.
  - destruct (key_eqb k0 k) eqn:E; simpl.
    + apply key_eqb_eq in E. subst. intuition.
    + rewrite IH. intuition.
Qed.

Lemma dict_set_NoDup d k v :
  NoDup (dict_keys d) -> NoDup (dict_keys (dict_set d k v)).
Proof.
  induction d as [|[k0 v0] t IH]; simpl; intros H.
  - constructor; [intros []|constructor].
  - inversion H as [|? ? Hn Ht]; subst.
    destruct (key_eqb k0 k) eqn:E; simpl.
    + now constructor.
    + constructor; [|auto].
      intros Hin. apply dict_keys_set in Hin. destruct Hin as [->|Hin].
      * now rewrite key_eqb_refl in E.
      * contradiction.
Qed.

End DictFacts.

Lemma dict_set_same_value (V : Type) (d : list (key * V)) k v :
  dict_get d k = Some v -> dict_set d k v = d.
Proof.
  induction d as [|[k0 v0] t IH]; simpl; [discriminate|].
  destruct (key_eqb k0 k) eqn:E.
  - intros [= ->]. reflexivity.
  - intros H. now rewrite IH.
Qed.

Lemma In_dict_get (V : Type) (d : list (key * V)) k v :
  NoDup (dict_keys d) -> In (k, v) d -> dict_get d k = Some v.
Proof.
  induction d as [|[k0 v0] t IH]; simpl; intros Hnd Hin; [contradiction|].
  inversion Hnd as [|? ? Hn Ht]; subst.
  destruct Hin as [[= -> ->]|Hin].
  - now rewrite key_eqb_refl.
  - destruct (key_eqb k0 k) eqn:E.
    + apply key_eqb_eq in E. subst k0. exfalso. apply Hn.
      change k with (fst (k, v)). now apply in_map.
    + auto.
Qed.

Lemma dict_set_fresh (V : Type) (d : list (key * V)) k v :
  ~ In k (dict_keys d) -> dict_set d k v = d ++ [(k, v)].
Proof.
  induction d as [|[k0 v0] t IH]; simpl; intros Hn; [reflexivity|].
  destruct (key_eqb k0 k) eqn:E.
  - apply key_eqb_eq in E. subst k0. exfalso. apply Hn. now left.
  - rewrite IH; [reflexivity|]. intros Hin. apply Hn. now right.
Qed.

Lemma Forall_dict_set (V : Type) (P : key * V -> Prop) (d : list (key * V)) k v :
  Forall P d -> (forall k', key_eqb k' k = true -> P (k', v)) -> Forall P (dict_set d k v).
Proof.
  intros Hd Hp. induction Hd as [|[k0 v0] t H0 Ht IH]; simpl.
  - constructor; [|constructor]. apply Hp, key_eqb_refl.
  - destruct (key_eqb k0 k) eqn:E; constructor; auto.
Qed.

Lemma strings_eqb_eq a b : strings_eqb a b = true <-> a = b.
Proof.
  revert b. induction a as [|x t IH]; destruct b as [|y u]; simpl;
    try (split; [discriminate|congruence]); [tauto|].
  rewrite andb_true_iff, String.eqb_eq, IH.
  split; [intros [-> ->]|intros [= -> ->]]; auto.
Qed.

Lemma address_eqb_eq (x y : address) : address_eqb x y = true <-> x = y.
Proof.
  destruct x as [[[[c1 u1] g1] p1] i1], y as [[[[c2 u2] g2] p2] i2]. simpl.
  rewrite !andb_true_iff, !String.eqb_eq, !strings_eqb_eq.
  split.
  - intros [[[[-> ->] ->] ->] ->]. reflexivity.
  - intros [= -> -> -> -> ->]. repeat split.
Qed.

(** Two addresses are equal exactly when their five fields are. *)
Lemma IdentifierData_eqb_eq a b : IdentifierData_eqb a b = true <-> address_of a = address_of b.
Proof. apply address_eqb_eq. Qed.

Lemma IdentifierData_eqb_refl a : IdentifierData_eqb a a = true.
Proof. now apply IdentifierData_eqb_eq. Qed.

Lemma slot_eqb_eq a b : slot_eqb a b = true <-> a = b.
Proof.
  destruct a as [n x], b as [m y]. unfold slot_eqb. simpl fst. simpl snd.
  rewrite andb_true_iff, Nat.eqb_eq, address_eqb_eq.
  split; [intros [-> ->]|intros [= -> ->]]; auto.
Qed.

Lemma slot_eqb_refl a : slot_eqb a a = true.
Proof. now apply slot_eqb_eq. Qed.

Section TableFacts.
Variable V : Type.
Implicit Types (t : list (slot * V)) (v : V) (k : slot).

Lemma table_get_set_same t k v : table_get (table_set t k v) k = Some v.
Proof.
  induction t as [|[k' v'] r IH]; simpl.
  - now rewrite slot_eqb_refl.
  - destruct (slot_eqb k' k) eqn:E; simpl; rewrite E; auto.
Qed.

Lemma table_get_set_other t k k' v :
  k <> k' -> table_get (table_set t k v) k' = table_get t k'.
Proof.
  intros Hne. induction t as [|[k0 v0] r IH]; simpl.
  - destruct (slot_eqb k k') eqn:E; [apply slot_eqb_eq in E; contradiction|reflexivity].
  - destruct (slot_eqb k0 k) eqn:E; simpl.
    + apply slot_eqb_eq in E. subst k0.
      destruct (slot_eqb k k') eqn:E'; [apply slot_eqb_eq in E'; contradiction|reflexivity].
    + now rewrite IH.
Qed.

End TableFacts.

Section TableRemove.
Variable V : Type.
Implicit Types (t : list (slot * V)) (k : slot).

Lemma table_get_remove_other t k k' :
  k <> k' -> table_get (table_remove t k) k' = table_get t k'.
Proof.
  intros Hne. induction t as [|[k0 v0] r IH]; simpl; [reflexivity|].
  destruct (slot_eqb k0 k) eqn:E.
  - apply slot_eqb_eq in E. subst k0.
    destruct (slot_eqb k k') eqn:E'; [apply slot_eqb_eq in E'; contradiction|exact IH].
  - simpl. now rewrite IH.
Qed.

Lemma table_get_remove_same t k : table_get (table_remove t k) k = None.
Proof.
  induction t as [|[k0 v0] r IH]; simpl; [reflexivity|].
  destruct (slot_eqb k0 k) eqn:E; [exact IH|]. simpl. now rewrite E.
Qed.

Lemma table_get_remove t k k' v :
  table_get (table_remove t k) k' = Some v -> table_get t k' = Some v.
Proof.
  intros H. destruct (slot_eqb k k') eqn:E.
  - apply slot_eqb_eq in E. subst k'. rewrite table_get_remove_same in H. discriminate.
  - rewrite table_get_remove_other in H; [exact H|].
    intros ->. now rewrite slot_eqb_refl in E.
Qed.
End TableRemove.

Lemma nth_list_set_same (A : Type) (ls : list A) l x d :
  (l < List.length ls)%nat -> nth l (list_set ls l x) d = x.
Proof.
  revert l. induction ls as [|y t IH]; intros l Hl; simpl in Hl; [lia|].
  destruct l; simpl; [reflexivity|]. apply IH. lia.
Qed.

Lemma nth_list_set_other (A : Type) (ls : list A) l l' x d :
  l <> l' -> nth l' (list_set ls l x) d = nth l' ls d.
Proof.
  revert l l'. induction ls as [|y t IH]; intros l l' Hne; [destruct l; reflexivity|].
  destruct l, l'; simpl; try reflexivity; try contradiction.
  apply IH. congruence.
Qed.

Lemma length_list_set (A : Type) (ls : list A) l x :
  List.length (list_set ls l x) = List.length ls.
Proof.
  revert l. induction ls as [|y t IH]; intros l; [destruct l; reflexivity|].
  destruct l; simpl; [reflexivity|]. now rewrite IH.
Qed.

Lemma nth_snoc_false (ls : list bool) l : nth l (ls ++ [false]) false = nth l ls false.
Proof.
  destruct (Nat.lt_ge_cases l (List.length ls)) as [Hlt|Hge].
  - now apply app_nth1.
  - rewrite app_nth2 by exact Hge. rewrite (nth_overflow ls) by exact Hge.
    destruct (l - List.length ls)%nat as [|[|m]]; reflexivity.
Qed.

(** ** Deep values *)

Lemma str_key_value_dict kvs : str_key_value (JDict kvs) = JDict (_str_key_dict kvs).
Proof. reflexivity. Qed.

Lemma merge_value_dict c d :
  merge_value (JDict c) (Some (JDict d)) = JDict (nested_update c d).
Proof. reflexivity. Qed.

Lemma wf_json_dict kvs :
  wf_json (JDict kvs) <-> NoDup (dict_keys kvs) /\ Forall (fun kv => wf_json (snd kv)) kvs.
Proof.
  simpl. apply and_iff_compat_l.
  induction kvs as [|kv t IH].
  - split; auto.
  - split.
    + intros [Hv Ht]. constructor; [assumption|]. now apply IH.
    + intros H. inversion H as [|? ? Hv Ht]; subst. split; [assumption|]. now apply IH.
Qed.

Lemma py_eq_refl j : wf_json j -> py_eq j j = true.
Proof.
  induction j as [| b | z | s | xs IH | kvs IH] using json_nested_ind; intros Hwf; simpl.
  - reflexivity.
  - apply Bool.eqb_reflx.
  - apply Z.eqb_refl.
  - apply String.eqb_refl.
  - simpl in Hwf. induction IH as [|x t Hx _ IHt]; [reflexivity|].
    destruct Hwf as [Hwx Hwt]. rewrite (Hx Hwx). simpl. now apply IHt.
  - apply wf_json_dict in Hwf. destruct Hwf as [Hnd Hall].
    rewrite Nat.eqb_refl. simpl. apply forallb_forall. intros [k v] Hin.
    simpl. rewrite (@In_dict_get _ kvs k v Hnd Hin).
    rewrite Forall_forall in IH, Hall. exact (IH _ Hin (Hall _ Hin)).
Qed.

Lemma str_keyed_dict kvs :
  str_keyed (JDict kvs) <->
  Forall (fun kv => (exists s, fst kv = KStr s) /\ str_keyed (snd kv)) kvs.
Proof.
  induction kvs as [|kv t IH].
  - simpl. split; auto.
  - split.
    + intros (Hk & Hv & Ht). constructor; [auto|]. apply IH. exact Ht.
    + intros H. inversion H as [|? ? [Hk Hv] Ht]; subst.
      split; [assumption|]. split; [assumption|]. apply IH. exact Ht.
Qed.

Lemma str_keyed_fold (kvs : items) : forall acc,
  Forall (fun kv => str_keyed (str_key_value (snd kv))) kvs ->
  Forall (fun kv => (exists s, fst kv = KStr s) /\ str_keyed (snd kv)) acc ->
  Forall (fun kv => (exists s, fst kv = KStr s) /\ str_keyed (snd kv))
    (fold_left (fun acc kv => dict_set acc (KStr (str (fst kv))) (str_key_value (snd kv)))
       kvs acc).
Proof.
  induction kvs as [|kv t IH]; intros acc Hk Hacc; simpl; [assumption|].
  inversion Hk as [|? ? Hv Ht]; subst.
  apply IH; [assumption|].
  apply Forall_dict_set; [assumption|].
  intros k' Hk'. apply key_eqb_eq in Hk'. subst k'. simpl. split; [eauto|assumption].
Qed.

(** Whatever [_str_key_dict] returns has [str] keys in every dict reached
    through dict values. *)
Lemma str_key_value_str_keyed j : str_keyed (str_key_value j).
Proof.
  induction j as [| b | z | s | xs IH | kvs IH] using json_nested_ind; simpl; auto.
  change (str_keyed (JDict (_str_key_dict kvs))).
  apply str_keyed_dict. apply str_keyed_fold; [assumption|constructor].
Qed.

(** [_str_key_dict] changes nothing in a well-formed value whose keys are
    strings already. *)
Lemma str_key_value_id j : wf_json j -> str_keyed j -> str_key_value j = j.
Proof.
  induction j as [| b | z | s | xs IH | kvs IH] using json_nested_ind; intros Hwf Hsk;
    try reflexivity.
  apply wf_json_dict in Hwf. destruct Hwf as [Hnd Hall].
  apply str_keyed_dict in Hsk.
  simpl. f_equal.
  assert (H : forall acc,
             NoDup (dict_keys acc ++ dict_keys kvs) ->
             fold_left
               (fun acc kv => dict_set acc (KStr (str (fst kv))) (str_key_value (snd kv)))
               kvs acc = acc ++ kvs).
  { clear Hnd. induction kvs as [|[k v] t IHt]; intros acc Hacc; simpl.
    - now rewrite app_nil_r.
    - inversion IH as [|? ? Hv IHv]; subst.
      inversion Hall as [|? ? Hwv Hallt]; subst.
      inversion Hsk as [|? ? [[s Hs] Hkv] Hskt]; subst.
      simpl in Hs, Hv, Hwv, Hkv. subst k. simpl str.
      rewrite (Hv Hwv Hkv).
      rewrite dict_set_fresh.
      + rewrite (IHt IHv Hallt Hskt).
        * now rewrite <- app_assoc.
        * unfold dict_keys in *. rewrite map_app. simpl. rewrite <- app_assoc. exact Hacc.
      + simpl in Hacc. apply NoDup_remove_2 in Hacc.
        intros Hin. apply Hacc. apply in_or_app. now left. }
  apply (H []). exact Hnd.
Qed.

Lemma nested_update_fold_get (d : items) (c : items) : forall acc k,
  NoDup (dict_keys c) ->
  dict_get
    (fold_left (fun acc kv => dict_set acc (fst kv) (merge_value (snd kv) (dict_get d (fst kv))))
       c acc) k
  = match dict_get c k with
    | Some v => Some (merge_value v (dict_get d k))
    | None => dict_get acc k
    end.
Proof.
  induction c as [|[k0 v0] t IH]; intros acc k Hnd; simpl; [reflexivity|].
  inversion Hnd as [|? ? Hn Ht]; subst.
  rewrite IH by assumption.
  destruct (key_eqb k0 k) eqn:E.
  - apply key_eqb_eq in E. subst k0.
    apply (dict_get_None t) in Hn. rewrite Hn. apply dict_get_set_same.
  - destruct (dict_get t k); [reflexivity|].
    apply dict_get_set_other. now apply key_eqb_neq.
Qed.

(** The merged mapping, key by key. *)
Lemma nested_update_get (c d : items) (k : key) :
  NoDup (dict_keys c) ->
  dict_get (nested_update c d) k
  = match dict_get c k, dict_get d k with
    | None, dv => dv
    | Some (JDict cc), Some (JDict dd) => Some (JDict (nested_update cc dd))
    | Some cv, _ => Some cv
    end.
Proof.
  intros Hnd. unfold nested_update. rewrite nested_update_fold_get by assumption.
  destruct (dict_get c k) as [cv|]; [|reflexivity].
  destruct cv; try reflexivity.
  destruct (dict_get d k) as [[]|]; reflexivity.
Qed.

(** Merging a well-formed value into itself changes nothing. *)
Lemma merge_value_self j : wf_json j -> merge_value j (Some j) = j.
Proof.
  induction j as [| b | z | s | xs IH | kvs IH] using json_nested_ind; intros Hwf;
    try reflexivity.
  apply wf_json_dict in Hwf. destruct Hwf as [Hnd Hall].
  simpl. f_equal.
  assert (H : forall t acc,
             (forall kv, In kv t -> In kv kvs) ->
             (forall kv, In kv kvs -> dict_get acc (fst kv) = Some (snd kv)) ->
             fold_left
               (fun acc kv =>
                  dict_set acc (fst kv) (merge_value (snd kv) (dict_get kvs (fst kv))))
               t acc = acc).
  { induction t as [|[k v] t IHt]; intros acc Hsub Hacc; simpl; [reflexivity|].
    assert (Hin : In (k, v) kvs) by (apply Hsub; now left).
    rewrite (@In_dict_get _ kvs k v Hnd Hin).
    rewrite Forall_forall in IH, Hall.
    pose proof (IH _ Hin (Hall _ Hin)) as Hm. simpl in Hm. rewrite Hm.
    pose proof (Hacc _ Hin) as Ha. simpl in Ha.
    rewrite (@dict_set_same_value _ acc k v Ha).
    apply IHt; [|assumption]. intros kv Hkv. apply Hsub. now right. }
  apply H; [auto|].
  intros [k v] Hin. now apply In_dict_get.
Qed.

(** ** The object graph *)

Lemma traverse_weaken (A B : Type) (f g : A -> option B) (l : list A) (ys : list B) :
  (forall x y, In x l -> f x = Some y -> g x = Some y) ->
  traverse f l = Some ys -> traverse g l = Some ys.
Proof.
  revert ys. induction l as [|x t IH]; simpl; intros ys Hfg H; [assumption|].
  destruct (f x) as [y|] eqn:Ex; [|discriminate].
  destruct (traverse f t) as [ys'|] eqn:Et; [|discriminate].
  rewrite (Hfg x y (or_introl eq_refl) Ex).
  rewrite (IH ys'); auto.
Qed.

Lemma deref_fuel_mono n : forall m h v j,
  (n <= m)%nat -> deref_fuel n h v = Some j -> deref_fuel m h v = Some j.
Proof.
  induction n as [|n IH]; intros m h v j Hle H.
  - destruct v; simpl in H; try discriminate; destruct m; simpl; assumption.
  - destruct m as [|m]; [lia|].
    destruct v; simpl in *; try assumption.
    destruct (nth_error h l) as [[xs|kvs]|]; [| |discriminate].
    + destruct (traverse (deref_fuel n h) xs) as [ys|] eqn:E; [|discriminate].
      erewrite traverse_weaken; [exact H| |exact E].
      intros x y _ Hx. apply IH; [lia|assumption].
    + destruct (traverse _ kvs) as [ys|] eqn:E; [|discriminate].
      erewrite traverse_weaken; [exact H| |exact E].
      intros x y _ Hx. simpl in *.
      destruct (deref_fuel n h (snd x)) as [jx|] eqn:Ejx; [|discriminate].
      rewrite (IH m h (snd x) jx); [assumption|lia|assumption].
Qed.

Lemma deref_fuel_app n : forall h ext v j,
  deref_fuel n h v = Some j -> deref_fuel n (h ++ ext) v = Some j.
Proof.
  induction n as [|n IH]; intros h ext v j H.
  - destruct v; simpl in *; assumption.
  - destruct v; simpl in *; try assumption.
    destruct (nth_error h l) as [o|] eqn:El; [|discriminate].
    rewrite nth_error_app1 by (apply nth_error_Some; congruence).
    rewrite El. destruct o as [xs|kvs].
    + destruct (traverse (deref_fuel n h) xs) as [ys|] eqn:E; [|discriminate].
      erewrite traverse_weaken; [exact H| |exact E].
      intros x y _ Hx. now apply IH.
    + destruct (traverse _ kvs) as [ys|] eqn:E; [|discriminate].
      erewrite traverse_weaken; [exact H| |exact E].
      intros x y _ Hx. simpl in *.
      destruct (deref_fuel n h (snd x)) as [jx|] eqn:Ejx; [|discriminate].
      now rewrite (IH h ext (snd x) jx).
Qed.

Lemma deref_app h ext v j : deref h v = Some j -> deref (h ++ ext) v = Some j.
Proof.
  unfold deref. intros H. apply deref_fuel_app.
  apply deref_fuel_mono with (n := List.length h); [|assumption].
  rewrite length_app. lia.
Qed.

Lemma alloc_JList xs h :
  alloc (JList xs) h =
  let '(h1, vs) := alloc_list xs h in (h1 ++ [OList vs], PRef (List.length h1)).
Proof.
  simpl. 
  assert (E : forall l h0, (fix go (l : list json) (h0 : heap) : heap * list pyval :=
           match l with
           | [] => (h0, [])
           | x :: t =>
               let '(h1, v) := alloc x h0 in
               let '(h2, vs) := go t h1 in
               (h2, v :: vs)
           end) l h0 = alloc_list l h0).
  { induction l as [|x t IH]; intros h0; simpl; [reflexivity|].
    destruct (alloc x h0) as [h1 v]. rewrite IH. reflexivity. }
  rewrite E. reflexivity.
Qed.

Lemma alloc_JDict kvs h :
  alloc (JDict kvs) h =
  let '(h1, vs) := alloc_items kvs h in (h1 ++ [ODict vs], PRef (List.length h1)).
Proof.
  simpl.
  assert (E : forall l h0, (fix go (l : items) (h0 : heap) : heap * list (key * pyval) :=
           match l with
           | [] => (h0, [])
           | kv :: t =>
               let '(h1, v) := alloc (snd kv) h0 in
               let '(h2, vs) := go t h1 in
               (h2, (fst kv, v) :: vs)
           end) l h0 = alloc_items l h0).
  { induction l as [|x t IH]; intros h0; simpl; [reflexivity|].
    destruct (alloc (snd x) h0) as [h1 v]. rewrite IH. reflexivity. }
  rewrite E. reflexivity.
Qed.

(** [alloc] only adds cells, and the value it returns reads back as [j]
    within the new cells' count of steps. *)
Lemma alloc_spec j : forall h h' v,
  alloc j h = (h', v) ->
  exists ext, h' = h ++ ext /\ deref_fuel (List.length ext) h' v = Some j.
Proof.
  induction j as [| b | z | s | xs IH | kvs IH] using json_nested_ind; intros h h' v H;
    try (simpl in H; injection H as <- <-; exists []; rewrite app_nil_r; split; reflexivity).
  - rewrite alloc_JList in H.
    destruct (alloc_list xs h) as [h1 vs] eqn:E. injection H as <- <-.
    assert (Hl : exists ext, h1 = h ++ ext /\
                 traverse (deref_fuel (List.length ext) h1) vs = Some xs).
    { clear - IH E. revert h h1 vs E.
      induction IH as [|x t Hx _ IHt]; intros h h1 vs E; simpl in E.
      - injection E as <- <-. exists []. rewrite app_nil_r. split; reflexivity.
      - destruct (alloc x h) as [h0 v0] eqn:Ex.
        destruct (alloc_list t h0) as [h2 vs2] eqn:Et.
        injection E as <- <-.
        destruct (Hx _ _ _ Ex) as (e1 & -> & D1).
        destruct (IHt _ _ _ Et) as (e2 & -> & D2).
        exists (e1 ++ e2). rewrite app_assoc. split; [reflexivity|].
        simpl.
        rewrite (deref_fuel_mono (n := List.length e1) (m := List.length (e1 ++ e2))
                   ((h ++ e1) ++ e2) v0 (j := x)).
        + erewrite traverse_weaken; [reflexivity| |exact D2].
          intros a b _ Ha. apply deref_fuel_mono with (n := List.length e2); [|assumption].
          rewrite length_app. lia.
        + rewrite length_app. lia.
        + now apply deref_fuel_app. }
    destruct Hl as (ext & -> & D).
    exists (ext ++ [OList vs]). rewrite app_assoc. split; [reflexivity|].
    rewrite length_app, Nat.add_comm. simpl.
    rewrite nth_error_app2 by lia. rewrite Nat.sub_diag. simpl.
    erewrite traverse_weaken; [reflexivity| |exact D].
    intros a b _ Ha. now apply deref_fuel_app.
  - rewrite alloc_JDict in H.
    destruct (alloc_items kvs h) as [h1 vs] eqn:E. injection H as <- <-.
    assert (Hl : exists ext, h1 = h ++ ext /\
                 traverse (fun kv => option_map (pair (fst kv))
                                       (deref_fuel (List.length ext) h1 (snd kv))) vs
                 = Some kvs).
    { clear - IH E. revert h h1 vs E.
      induction IH as [|[k x] t Hx _ IHt]; intros h h1 vs E; simpl in E.
      - injection E as <- <-. exists []. rewrite app_nil_r. split; reflexivity.
      - destruct (alloc x h) as [h0 v0] eqn:Ex.
        destruct (alloc_items t h0) as [h2 vs2] eqn:Et.
        injection E as <- <-. simpl in Hx.
        destruct (Hx _ _ _ Ex) as (e1 & -> & D1).
        destruct (IHt _ _ _ Et) as (e2 & -> & D2).
        exists (e1 ++ e2). rewrite app_assoc. split; [reflexivity|].
        simpl.
        rewrite (deref_fuel_mono (n := List.length e1) (m := List.length (e1 ++ e2))
                   ((h ++ e1) ++ e2) v0 (j := x)).
        + simpl. erewrite traverse_weaken; [reflexivity| |exact D2].
          intros a b _ Ha. simpl in *.
          destruct (deref_fuel (List.length e2) ((h ++ e1) ++ e2) (snd a)) as [ja|] eqn:Eja;
            [|discriminate].
          rewrite (deref_fuel_mono (n := List.length e2) (m := List.length (e1 ++ e2))
                     ((h ++ e1) ++ e2) (snd a) (j := ja)); auto.
          rewrite length_app. lia.
        + rewrite length_app. lia.
        + now apply deref_fuel_app. }
    destruct Hl as (ext & -> & D).
    exists (ext ++ [ODict vs]). rewrite app_assoc. split; [reflexivity|].
    rewrite length_app, Nat.add_comm. simpl.
    rewrite nth_error_app2 by lia. rewrite Nat.sub_diag. simpl.
    erewrite traverse_weaken; [reflexivity| |exact D].
    intros a b _ Ha. simpl in *.
    destruct (deref_fuel (List.length ext) (h ++ ext) (snd a)) as [ja|] eqn:Eja; [|discriminate].
    now rewrite (deref_fuel_app _ _ [ODict vs] _ Eja).
Qed.

Lemma alloc_deref j h h' v : alloc j h = (h', v) -> deref h' v = Some j.
Proof.
  intros H. destruct (alloc_spec _ _ H) as (ext & -> & D).
  unfold deref. apply deref_fuel_mono with (n := List.length ext); [|assumption].
  rewrite length_app. lia.
Qed.

Lemma alloc_extends j h h' v : alloc j h = (h', v) -> exists ext, h' = h ++ ext.
Proof.
  intros H. destruct (alloc_spec _ _ H) as (ext & -> & _). now exists ext.
Qed.

Lemma alloc_items_length kvs : forall h h' vs,
  alloc_items kvs h = (h', vs) -> (List.length h <= List.length h')%nat.
Proof.
  induction kvs as [|kv t IH]; intros h h' vs H; simpl in H.
  - injection H as <- _. lia.
  - destruct (alloc (snd kv) h) as [h1 v] eqn:Ea.
    destruct (alloc_items t h1) as [h2 vs2] eqn:Et.
    injection H as <- _.
    destruct (alloc_extends _ _ Ea) as [ext ->].
    apply IH in Et. rewrite length_app in Et. lia.
Qed.

Lemma deref_dict_isinstance h v kvs :
  deref h v = Some (JDict kvs) -> isinstance_dict h v = true.
Proof.
  unfold deref. destruct v as [| | | |l]; simpl;
    try (destruct (List.length h); discriminate).
  destruct (List.length h) as [|n]; simpl; [discriminate|].
  destruct (nth_error h l) as [[xs|d]|]; try discriminate; [|reflexivity].
  destruct (traverse _ xs); discriminate.
Qed.

Lemma deref_isinstance_dict h v j : deref h v = Some j -> isinstance_dict h v = is_dict j.
Proof.
  unfold deref. destruct v as [| | | |l]; simpl;
    try (destruct (List.length h); intros [= <-]; reflexivity).
  destruct (List.length h) as [|n]; simpl; [discriminate|].
  destruct (nth_error h l) as [[xs|d]|]; try discriminate.
  - destruct (traverse _ xs); [intros [= <-]; reflexivity|discriminate].
  - destruct (traverse _ d); [intros [= <-]; reflexivity|discriminate].
Qed.

(** The snapshot [v.copy()] reads as [v] does, as long as nothing is
    mutated. *)
Lemma shallow_copy_deref h v h' c :
  isinstance_list_or_dict h v = true ->
  shallow_copy h v = (h', c) ->
  deref h' c = deref h' v.
Proof.
  destruct v as [| | | |l]; simpl; try discriminate.
  destruct (nth_error h l) as [o|] eqn:El; [|discriminate].
  intros _ [= <- <-]. unfold deref.
  assert (Hl : (l < List.length h)%nat) by (apply nth_error_Some; congruence).
  rewrite length_app, Nat.add_comm. simpl.
  rewrite nth_error_app2, Nat.sub_diag by lia. simpl.
  rewrite nth_error_app1 by exact Hl. rewrite El. reflexivity.
Qed.

Lemma val_above_mono n m v : (n <= m)%nat -> val_above m v -> val_above n v.
Proof. destruct v; simpl; auto. lia. Qed.

Lemma obj_above_mono n m o : (n <= m)%nat -> obj_above m o -> obj_above n o.
Proof.
  intros Hle. destruct o; simpl; apply Forall_impl; intros a; apply val_above_mono; exact Hle.
Qed.

Lemma deref_same_below h h' v j :
  deref h v = Some j -> same_below (List.length h) h h' -> deref h' v = Some j.
Proof.
  intros Hd Hs.
  assert (E : firstn (List.length h) h' = h).
  { apply nth_error_ext. intros n. rewrite nth_error_firstn.
    destruct (Nat.ltb_spec n (List.length h)) as [Hlt|Hge].
    - now apply Hs.
    - symmetry. now apply nth_error_None. }
  rewrite <- (firstn_skipn (List.length h) h'), E. now apply deref_app.
Qed.

Lemma same_below_app h ext : same_below (List.length h) h (h ++ ext).
Proof. intros l Hl. now apply nth_error_app1. Qed.

Lemma same_below_trans n h1 h2 h3 :
  same_below n h1 h2 -> same_below n h2 h3 -> same_below n h1 h3.
Proof. intros A B l Hl. rewrite B, A; auto. Qed.

Lemma closed_from_app h ext :
  Forall (obj_above (List.length h)) ext -> closed_from (List.length h) (h ++ ext).
Proof.
  intros Hext l o Hl Hn. rewrite nth_error_app2 in Hn by exact Hl.
  rewrite Forall_forall in Hext. apply Hext. eapply nth_error_In. exact Hn.
Qed.

(** The cells [alloc] adds refer to one another only, and so does the value
    it returns. *)
Lemma alloc_above j : forall h h' v,
  alloc j h = (h', v) ->
  val_above (List.length h) v
  /\ exists ext, h' = h ++ ext /\ Forall (obj_above (List.length h)) ext.
Proof.
  induction j as [| b | z | s | xs IH | kvs IH] using json_nested_ind; intros h h' v H;
    try (simpl in H; injection H as <- <-; split; [exact I|];
         exists []; rewrite app_nil_r; split; [reflexivity|constructor]).
  - rewrite alloc_JList in H.
    destruct (alloc_list xs h) as [h1 vs] eqn:E. injection H as <- <-.
    assert (Hl : Forall (val_above (List.length h)) vs
                 /\ exists ext, h1 = h ++ ext /\ Forall (obj_above (List.length h)) ext).
    { clear - IH E. revert h h1 vs E.
      induction IH as [|x t Hx _ IHt]; intros h h1 vs E; simpl in E.
      - injection E as <- <-. split; [constructor|].
        exists []. rewrite app_nil_r. split; [reflexivity|constructor].
      - destruct (alloc x h) as [h0 v0] eqn:Ex.
        destruct (alloc_list t h0) as [h2 vs2] eqn:Et.
        injection E as <- <-.
        destruct (Hx _ _ _ Ex) as (Hv0 & e1 & -> & He1).
        destruct (IHt _ _ _ Et) as (Hvs & e2 & -> & He2).
        assert (Hle : (List.length h <= List.length (h ++ e1))%nat)
          by (rewrite length_app; lia).
        split.
        + constructor; [exact Hv0|].
          eapply Forall_impl; [|exact Hvs]. intros a. now apply val_above_mono.
        + exists (e1 ++ e2). rewrite app_assoc. split; [reflexivity|].
          apply Forall_app. split; [exact He1|].
          eapply Forall_impl; [|exact He2]. intros a. now apply obj_above_mono. }
    destruct Hl as (Hvs & ext & -> & Hext).
    split; [simpl; rewrite length_app; lia|].
    exists (ext ++ [OList vs]). rewrite app_assoc. split; [reflexivity|].
    apply Forall_app. split; [exact Hext|]. constructor; [exact Hvs|constructor].
  - rewrite alloc_JDict in H.
    destruct (alloc_items kvs h) as [h1 vs] eqn:E. injection H as <- <-.
    assert (Hl : Forall (fun kv => val_above (List.length h) (snd kv)) vs
                 /\ exists ext, h1 = h ++ ext /\ Forall (obj_above (List.length h)) ext).
    { clear - IH E. revert h h1 vs E.
      induction IH as [|[k x] t Hx _ IHt]; intros h h1 vs E; simpl in E.
      - injection E as <- <-. split; [constructor|].
        exists []. rewrite app_nil_r. split; [reflexivity|constructor].
      - destruct (alloc x h) as [h0 v0] eqn:Ex.
        destruct (alloc_items t h0) as [h2 vs2] eqn:Et.
        injection E as <- <-. simpl in Hx.
        destruct (Hx _ _ _ Ex) as (Hv0 & e1 & -> & He1).
        destruct (IHt _ _ _ Et) as (Hvs & e2 & -> & He2).
        assert (Hle : (List.length h <= List.length (h ++ e1))%nat)
          by (rewrite length_app; lia).
        split.
        + constructor; [exact Hv0|].
          eapply Forall_impl; [|exact Hvs]. intros a. now apply val_above_mono.
        + exists (e1 ++ e2). rewrite app_assoc. split; [reflexivity|].
          apply Forall_app. split; [exact He1|].
          eapply Forall_impl; [|exact He2]. intros a. now apply obj_above_mono. }
    destruct Hl as (Hvs & ext & -> & Hext).
    split; [simpl; rewrite length_app; lia|].
    exists (ext ++ [ODict vs]). rewrite app_assoc. split; [reflexivity|].
    apply Forall_app. split; [exact Hext|]. constructor; [exact Hvs|constructor].
Qed.

(** What a dict at or after [n] binds, in a heap closed from [n], lies at or
    after [n] too. *)
Lemma dict_of_above n h v kvs k x :
  closed_from n h -> val_above n v -> dict_of h v = Some kvs ->
  dict_get kvs k = Some x -> val_above n x.
Proof.
  intros Hc Hv Hd Hg. destruct v as [| | | |l]; simpl in Hd; try discriminate.
  destruct (nth_error h l) as [[xs|d]|] eqn:El; try discriminate.
  injection Hd as ->. simpl in Hv.
  pose proof (Hc _ _ Hv El) as Ho. simpl in Ho.
  rewrite Forall_forall in Ho. apply dict_get_In in Hg. exact (Ho _ Hg).
Qed.

Lemma nth_error_heap_update_other h l o i :
  i <> l -> nth_error (heap_update h l o) i = nth_error h i.
Proof.
  revert l i. induction h as [|x t IH]; intros l i Hne; [destruct l; reflexivity|].
  destruct l as [|l], i as [|i]; simpl; try reflexivity; try contradiction.
  apply IH. congruence.
Qed.

Lemma heap_update_same_below n h l o : (n <= l)%nat -> same_below n h (heap_update h l o).
Proof. intros Hle i Hi. apply nth_error_heap_update_other. lia. Qed.

Lemma closed_from_snoc_empty n h :
  closed_from n h -> closed_from n (h ++ [ODict []]).
Proof.
  intros Hc l o Hl Hn.
  destruct (Nat.lt_ge_cases l (List.length h)) as [Hlt|Hge].
  - rewrite nth_error_app1 in Hn by exact Hlt. exact (Hc _ _ Hl Hn).
  - rewrite nth_error_app2 in Hn by exact Hge.
    destruct (l - List.length h)%nat as [|m]; simpl in Hn.
    + injection Hn as <-. constructor.
    + destruct m; discriminate.
Qed.

Lemma heap_update_length h l o : List.length (heap_update h l o) = List.length h.
Proof.
  revert l. induction h as [|x t IH]; intros l; [destruct l; reflexivity|].
  destruct l; simpl; [reflexivity|]. now rewrite IH.
Qed.

Lemma traverse_ext_in (A B : Type) (f g : A -> option B) (l : list A) :
  (forall x, In x l -> f x = g x) -> traverse f l = traverse g l.
Proof.
  induction l as [|x t IH]; intros H; [reflexivity|]. simpl.
  rewrite (H x (or_introl eq_refl)), IH; [reflexivity|].
  intros y Hy. apply H. now right.
Qed.

(** The deep value of an object at or after [n], in a heap closed from [n],
    depends on the cells at or after [n] only. *)
Lemma deref_fuel_above n h h' :
  closed_from n h ->
  (forall l, (n <= l)%nat -> nth_error h' l = nth_error h l) ->
  forall k v, val_above n v -> deref_fuel k h' v = deref_fuel k h v.
Proof.
  intros Hc Hsame. induction k as [|k IH]; intros v Hv; destruct v as [| | | |l];
    try reflexivity.
  simpl in Hv. simpl. rewrite (Hsame l Hv).
  destruct (nth_error h l) as [[xs|kvs]|] eqn:El; [| |reflexivity].
  - pose proof (Hc _ _ Hv El) as Ho. simpl in Ho. rewrite Forall_forall in Ho.
    f_equal. apply traverse_ext_in. intros x Hx. apply IH. now apply Ho.
  - pose proof (Hc _ _ Hv El) as Ho. simpl in Ho. rewrite Forall_forall in Ho.
    f_equal. apply traverse_ext_in. intros x Hx. f_equal. apply IH. now apply Ho.
Qed.

Lemma deref_above n h h' v :
  closed_from n h ->
  (forall l, (n <= l)%nat -> nth_error h' l = nth_error h l) ->
  List.length h' = List.length h ->
  val_above n v -> deref h' v = deref h v.
Proof.
  intros Hc Hsame Hlen Hv. unfold deref. rewrite Hlen.
  now apply deref_fuel_above with (n := n).
Qed.

(** Changing a cell below [n] leaves the deep value of what lies at or after
    [n], in a heap closed from [n], as it was. *)
Lemma deref_heap_update_below n h l o v :
  closed_from n h -> val_above n v -> (l < n)%nat ->
  deref (heap_update h l o) v = deref h v.
Proof.
  intros Hc Hv Hl. apply deref_above with (n := n); auto.
  - intros i Hi. apply nth_error_heap_update_other. lia.
  - apply heap_update_length.
Qed.

(** ** What each operation leaves alone *)

Lemma only_objects_refl w : only_objects w w.
Proof. repeat split. Qed.

Lemma only_objects_trans w1 w2 w3 :
  only_objects w1 w2 -> only_objects w2 w3 -> only_objects w1 w3.
Proof.
  intros (A1 & A2 & A3 & A4) (B1 & B2 & B3 & B4).
  repeat split; congruence.
Qed.

Lemma only_objects_with_objects w h : only_objects w (with_objects w h).
Proof. repeat split. Qed.

Lemma with_objects_same w : with_objects w (objects w) = w.
Proof. destruct w. reflexivity. Qed.

Lemma Value__get_only_objects w v d : only_objects w (fst (Value__get w v d)).
Proof.
  unfold Value__get, driver_get.
  destruct (table_get (stored w) (slot_of (_driver v) (identifier_data v))) as [j|].
  - destruct (alloc j (objects w)) as [h x]. apply only_objects_with_objects.
  - apply only_objects_refl.
Qed.

Lemma Group__get_only_objects w g d : only_objects w (fst (Group__get w g d)).
Proof.
  unfold Group__get.
  assert (H : forall h dflt,
    only_objects w
      (fst (match Value__get (with_objects w h) (as_Value g) (Some dflt) with
            | (w1, Raise e) => (w1, Raise e)
            | (w1, Ok raw) =>
                if isinstance_dict (objects w1) raw then
                  match Group_nested_update (objects w1) raw dflt with
                  | Ok (h2, v) => (with_objects w1 h2, Ok v)
                  | Raise e => (w1, Raise e)
                  end
                else (w1, Ok raw)
            end))).
  { intros h dflt.
    pose proof (Value__get_only_objects (with_objects w h) (as_Value g) (Some dflt)) as Hv.
    destruct (Value__get (with_objects w h) (as_Value g) (Some dflt)) as [w1 [raw|e]];
      simpl in Hv.
    - destruct (isinstance_dict (objects w1) raw); [|exact Hv].
      destruct (Group_nested_update (objects w1) raw dflt) as [[h2 v]|e]; [|exact Hv].
      eapply only_objects_trans; [exact Hv|apply only_objects_with_objects].
    - exact Hv. }
  destruct d as [d|].
  - apply H.
  - unfold Group_defaults, pickle_copy.
    destruct (deref (objects w) (_defaults g)) as [j|]; [|apply only_objects_refl].
    destruct (alloc j (objects w)) as [h dflt]. apply H.
Qed.

Lemma accessor__get_only_objects w x d : only_objects w (fst (accessor__get w x d)).
Proof.
  destruct x; [apply Value__get_only_objects|apply Group__get_only_objects].
Qed.

Lemma lock_release_data w l :
  stored (fst (lock_release w l)) = stored w
  /\ set_calls (fst (lock_release w l)) = set_calls w
  /\ objects (fst (lock_release w l)) = objects w.
Proof. unfold lock_release. destruct (locked w l); simpl; auto. Qed.

Lemma lock_release_cache w l :
  _lock_cache (fst (lock_release w l)) = _lock_cache w
  /\ List.length (locks (fst (lock_release w l))) = List.length (locks w).
Proof.
  unfold lock_release. destruct (locked w l); simpl; [|auto].
  split; [reflexivity|apply length_list_set].
Qed.

Lemma aexit_finally_data w mgr r :
  stored (fst (aexit_finally w mgr r)) = stored w
  /\ set_calls (fst (aexit_finally w mgr r)) = set_calls w
  /\ objects (fst (aexit_finally w mgr r)) = objects w.
Proof.
  unfold aexit_finally. destruct (__acquire_lock mgr); [|simpl; auto].
  pose proof (lock_release_data w (__lock mgr)) as H.
  destruct (lock_release w (__lock mgr)) as [w2 [[]|e]]; exact H.
Qed.

Lemma aenter_acquire_data w mgr :
  stored (fst (aenter_acquire w mgr)) = stored w
  /\ set_calls (fst (aenter_acquire w mgr)) = set_calls w
  /\ objects (fst (aenter_acquire w mgr)) = objects w.
Proof.
  unfold aenter_acquire, lock_acquire.
  destruct (__acquire_lock mgr); [|simpl; auto].
  destruct (locked w (__lock mgr)); simpl; auto.
Qed.

Lemma aenter_read_only_objects w mgr : only_objects w (fst (aenter_read w mgr)).
Proof.
  unfold aenter_read.
  pose proof (accessor__get_only_objects w (value_obj mgr) (coro mgr)) as Hoo.
  destruct (accessor__get w (value_obj mgr) (coro mgr)) as [w2 [raw|e]]; [|exact Hoo].
  destruct (negb (isinstance_list_or_dict (objects w2) raw)); [exact Hoo|].
  destruct (shallow_copy (objects w2) raw) as [h original]. exact Hoo.
Qed.

Lemma aenter_read_not_blocked w mgr w' : aenter_read w mgr <> (w', Blocked).
Proof.
  unfold aenter_read.
  destruct (accessor__get w (value_obj mgr) (coro mgr)) as [w2 [raw|e]]; [|discriminate].
  destruct (negb (isinstance_list_or_dict (objects w2) raw)); [discriminate|].
  destruct (shallow_copy (objects w2) raw). discriminate.
Qed.

(** The manager [__aenter__] returns is the one entered, with the working
    copy and the snapshot filled in. *)
Lemma aenter_read_manager w mgr w1 mgr1 :
  aenter_read w mgr = (w1, Returned mgr1) ->
  value_obj mgr1 = value_obj mgr
  /\ __acquire_lock mgr1 = __acquire_lock mgr
  /\ __lock mgr1 = __lock mgr
  /\ only_objects w w1.
Proof.
  unfold aenter_read.
  pose proof (accessor__get_only_objects w (value_obj mgr) (coro mgr)) as Hoo.
  destruct (accessor__get w (value_obj mgr) (coro mgr)) as [w2 [raw|e]]; [|discriminate].
  destruct (negb (isinstance_list_or_dict (objects w2) raw)); [discriminate|].
  destruct (shallow_copy (objects w2) raw) as [h original].
  intros [= <- <-]. simpl. repeat split; apply Hoo.
Qed.

Lemma aenter_manager w mgr w1 mgr1 :
  __aenter__ w mgr = (w1, Returned mgr1) ->
  value_obj mgr1 = value_obj mgr
  /\ __acquire_lock mgr1 = __acquire_lock mgr
  /\ __lock mgr1 = __lock mgr.
Proof.
  unfold __aenter__. destruct (aenter_acquire w mgr) as [w0 [[]|e|]]; try discriminate.
  intros H. apply aenter_read_manager in H. tauto.
Qed.

Lemma locked_lt w l : locked w l = true -> (l < List.length (locks w))%nat.
Proof.
  unfold locked. intros H.
  destruct (Nat.lt_ge_cases l (List.length (locks w))) as [|Hge]; [assumption|].
  rewrite nth_overflow in H by assumption. discriminate.
Qed.

Lemma locked_same_locks w w' l : locks w' = locks w -> locked w' l = locked w l.
Proof. unfold locked. now intros ->. Qed.

(** After [lock.release()], be it a success or a [RuntimeError], the lock is
    free. *)
Lemma lock_release_unlocked w l : locked (fst (lock_release w l)) l = false.
Proof.
  unfold lock_release. destruct (locked w l) eqn:E; simpl; [|exact E].
  unfold locked. simpl. apply nth_list_set_same. now apply locked_lt.
Qed.

Lemma value_set_locks w v value :
  locks (fst (Value_set w v value)) = locks w
  /\ _lock_cache (fst (Value_set w v value)) = _lock_cache w.
Proof. unfold Value_set. destruct (deref (objects w) value); simpl; auto. Qed.

Lemma accessor_set_locks w x value :
  locks (fst (accessor_set w x value)) = locks w
  /\ _lock_cache (fst (accessor_set w x value)) = _lock_cache w.
Proof.
  destruct x as [v|g]; simpl; [apply value_set_locks|].
  unfold Group_set. destruct (isinstance_dict (objects w) value); [apply value_set_locks|].
  simpl. auto.
Qed.

Lemma aexit_try_locks w mgr :
  locks (fst (aexit_try w mgr)) = locks w
  /\ _lock_cache (fst (aexit_try w mgr)) = _lock_cache w.
Proof.
  unfold aexit_try.
  destruct (deref (objects w) (raw_value mgr)) as [r|]; [|simpl; auto].
  destruct (deref (objects w) (__original_value mgr)) as [o|]; [|simpl; auto].
  destruct (py_ne (str_key_value r) o); [apply accessor_set_locks|simpl; auto].
Qed.

(** [driver.set] appends one call and binds the slot. *)
Lemma new_calls_same w w' : set_calls w' = set_calls w -> new_calls w w' = [].
Proof. intros E. unfold new_calls. rewrite E. apply skipn_all. Qed.

Lemma new_calls_driver_set w d a j :
  new_calls w (driver_set w d a j) = [(slot_of d a, j)].
Proof.
  unfold new_calls. simpl. rewrite skipn_app, skipn_all, Nat.sub_diag. reflexivity.
Qed.

Lemma Value_set_calls w v value :
  (new_calls w (fst (Value_set w v value)) = []
   /\ stored (fst (Value_set w v value)) = stored w)
  \/ exists j,
       new_calls w (fst (Value_set w v value)) = [(slot_of (_driver v) (identifier_data v), j)]
       /\ table_get (stored (fst (Value_set w v value))) (slot_of (_driver v) (identifier_data v))
          = Some j.
Proof.
  unfold Value_set. destruct (deref (objects w) value) as [j|]; simpl.
  - right. exists (str_key_value j). split; [apply new_calls_driver_set|].
    apply table_get_set_same.
  - left. split; [now apply new_calls_same|reflexivity].
Qed.

(** The [try] block of [__aexit__] makes no [set] call, or one at the
    address of its accessor, after which the driver holds what was set. *)
Lemma aexit_try_calls w mgr :
  let k := slot_of (_driver (accessor_Value (value_obj mgr)))
             (identifier_data (accessor_Value (value_obj mgr))) in
  (new_calls w (fst (aexit_try w mgr)) = []
   /\ stored (fst (aexit_try w mgr)) = stored w)
  \/ exists j,
       new_calls w (fst (aexit_try w mgr)) = [(k, j)]
       /\ table_get (stored (fst (aexit_try w mgr))) k = Some j.
Proof.
  intros k. unfold aexit_try.
  assert (Hnone : new_calls w w = [] /\ stored w = stored w)
    by (split; [now apply new_calls_same|reflexivity]).
  destruct (deref (objects w) (raw_value mgr)) as [r|]; [|left; exact Hnone].
  destruct (deref (objects w) (__original_value mgr)) as [o|]; [|left; exact Hnone].
  destruct (py_ne (str_key_value r) o); [|left; exact Hnone].
  destruct (value_obj mgr) as [v|g]; simpl.
  - apply Value_set_calls.
  - unfold Group_set. destruct (isinstance_dict (objects w) (raw_value mgr)).
    + apply Value_set_calls.
    + left. exact Hnone.
Qed.

(** * Attribute resolution *)

(** C7: for a [Group] whose defaults are a dict and a requested key [item]:
    a key bound to a dict in the defaults gives a child [Group] at the child
    address over that nested dict (the very object, with the parent's driver,
    config and [force_registration]); a key bound to anything else gives a
    child [Value] at the child address with that default; an absent key
    raises [AttributeError] under [force_registration] and otherwise gives a
    child [Value] whose default is [None]. *)
Theorem Group_getattr_resolution (h : heap) (self : Group) (item : string)
    (kvs : list (key * pyval)) :
  dict_of h (_defaults self) = Some kvs ->
  let child := get_child (identifier_data (as_Value self)) item in
  let value_with d :=
    AValue {| identifier_data := child; default := d;
              _driver := _driver (as_Value self); _config := _config (as_Value self) |} in
  Group___getattr__ h self item =
  match dict_get kvs (KStr item) with
  | Some d =>
      if isinstance_dict h d then
        (h ++ [ODict []],
         Ok (AGroup {| as_Value := {| identifier_data := child;
                                      default := PRef (List.length h);
                                      _driver := _driver (as_Value self);
                                      _config := _config (as_Value self) |};
                       _defaults := d;
                       force_registration := force_registration self |}))
      else (h, Ok (value_with d))
  | None =>
      if force_registration self then (h, Raise AttributeError)
      else (h, Ok (value_with PNone))
  end.
Proof.
  intros Hd child value_with.
  unfold Group___getattr__, Group_is_group, Group_is_value, defaults_getitem.
  rewrite Hd. simpl str.
  destruct (dict_get kvs (KStr item)) as [d|] eqn:Eg.
  - destruct (isinstance_dict h d) eqn:Ei; simpl; reflexivity.
  - destruct (force_registration self); reflexivity.
Qed.

Lemma Group_getattr_resolution_witness :
  dict_of (objects scenario_world) (_defaults scenario_group)
  = Some [(KStr "threshold", PInt 5); (KStr "flags", PRef 0)]
  /\ Group___getattr__ (objects scenario_world) scenario_group "flags"
     = (objects scenario_world ++ [ODict []],
        Ok (AGroup {| as_Value := {| identifier_data := get_child global_address "flags";
                                     default := PRef 3;
                                     _driver := 0%nat;
                                     _config := 0%nat |};
                      _defaults := PRef 0;
                      force_registration := false |})).
Proof.
  split; [reflexivity|].
  exact (@Group_getattr_resolution (objects scenario_world) scenario_group "flags" _ eq_refl).
Defined.

(** * Reading *)

(** ** With a value stored *)

(** [Group._get] on a found value: the deep value of what it returns. *)
Lemma Group__get_found (w : world) (g : Group) (s d : json) :
  driver_get w (_driver (as_Value g)) (identifier_data (as_Value g)) = Ok s ->
  deref (objects w) (_defaults g) = Some d ->
  exists w' v,
    Group__get w g None = (w', Ok v)
    /\ only_objects w w'
    /\ deref (objects w') v = Some (merge_value s (Some d)).
Proof.
  intros Hs Hd.
  pose proof (Group__get_only_objects w g None) as Hoo.
  unfold Group__get, Group_defaults, pickle_copy in *. rewrite Hd in *.
  destruct (alloc d (objects w)) as [h1 dv] eqn:Ea.
  unfold Value__get in *. unfold driver_get in *. simpl stored in *.
  destruct (table_get (stored w) (slot_of (_driver (as_Value g)) (identifier_data (as_Value g))))
    as [j|]; [|discriminate].
  injection Hs as ->. simpl objects in *.
  destruct (alloc s h1) as [h2 raw] eqn:Es. simpl objects in *.
  pose proof (alloc_deref _ _ Es) as Hraw.
  pose proof (alloc_deref _ _ Ea) as Hdv.
  destruct (alloc_extends _ _ Es) as [ext ->].
  apply deref_app with (ext := ext) in Hdv.
  rewrite (deref_isinstance_dict _ _ Hraw) in *.
  destruct (is_dict s) eqn:Ed.
  - unfold Group_nested_update in *. rewrite Hraw, Hdv in *.
    destruct (alloc (merge_value s (Some d)) (h1 ++ ext)) as [h3 v] eqn:Em.
    exists (with_objects (with_objects (with_objects w h1) (h1 ++ ext)) h3), v.
    split; [reflexivity|]. split; [exact Hoo|]. simpl. exact (alloc_deref _ _ Em).
  - exists (with_objects (with_objects w h1) (h1 ++ ext)), raw.
    split; [reflexivity|]. split; [exact Hoo|]. simpl. rewrite Hraw.
    destruct s; try reflexivity. discriminate.
Qed.

(** [Value._get] on a found value. *)
Lemma Value__get_found (w : world) (x : Value) (dflt : option pyval) (s : json) :
  driver_get w (_driver x) (identifier_data x) = Ok s ->
  exists w' v,
    Value__get w x dflt = (w', Ok v)
    /\ only_objects w w'
    /\ deref (objects w') v = Some s.
Proof.
  intros Hs. pose proof (Value__get_only_objects w x dflt) as Hoo.
  unfold Value__get in *. rewrite Hs in *.
  destruct (alloc s (objects w)) as [h v] eqn:Ea.
  exists (with_objects w h), v. split; [reflexivity|]. split; [exact Hoo|].
  exact (alloc_deref _ _ Ea).
Qed.

(** C1. (1) For a [Group] with something stored at its address, [get()]
    returns the stored value merged with the [Group]'s defaults: when the
    stored value is a mapping, a key it lacks takes the default, a key bound
    to a mapping on both sides is merged recursively, and any other key of
    the stored mapping keeps the stored value, whether the defaults have it
    or not; a stored value that is not a mapping is returned as it is.
    (2) For a [Value], [get()] returns the stored value as it is; that is
    the merge whenever the default is not a mapping, (3) which is so for
    every [Value] that attribute access on a [Group] makes, a mapping default
    giving a [Group]; (4) so for every [Value] made by attribute access,
    [get()] returns the merge of the stored value with the [Value]'s default.
    (5) In the scenario of the spec the [Group] reads
    [{"threshold": 5, "flags": {"a": true, "b": true, "c": 1}}]. *)
Theorem get_merges_stored_with_defaults :
  (forall (w : world) (g : Group) (s : json) (d : items),
      driver_get w (_driver (as_Value g)) (identifier_data (as_Value g)) = Ok s ->
      deref (objects w) (_defaults g) = Some (JDict d) ->
      exists w' v,
        get w (AGroup g) = (w', Ok v)
        /\ only_objects w w'
        /\ match s with
           | JDict c =>
               deref (objects w') v = Some (JDict (nested_update c d))
               /\ (NoDup (dict_keys c) ->
                   forall k,
                     dict_get (nested_update c d) k
                     = match dict_get c k, dict_get d k with
                       | None, dv => dv
                       | Some (JDict cc), Some (JDict dd) =>
                           Some (JDict (nested_update cc dd))
                       | Some cv, _ => Some cv
                       end)
           | _ => deref (objects w') v = Some s
           end)
  /\ (forall (w : world) (x : Value) (s : json),
        driver_get w (_driver x) (identifier_data x) = Ok s ->
        exists w' v,
          get w (AValue x) = (w', Ok v)
          /\ only_objects w w'
          /\ deref (objects w') v = Some s
          /\ forall d, is_dict d = false -> merge_value s (Some d) = s)
  /\ (forall (h : heap) (g : Group) (item : string) (h' : heap) (x : Value),
        Group___getattr__ h g item = (h', Ok (AValue x)) ->
        isinstance_dict h' (default x) = false)
  /\ (forall (h : heap) (g : Group) (item : string) (x : Value) (w : world)
             (s d : json),
        Group___getattr__ h g item = (objects w, Ok (AValue x)) ->
        driver_get w (_driver x) (identifier_data x) = Ok s ->
        deref (objects w) (default x) = Some d ->
        exists w' v,
          get w (AValue x) = (w', Ok v)
          /\ only_objects w w'
          /\ deref (objects w') v = Some (merge_value s (Some d)))
  /\ (exists w' v,
        get scenario_stored_world (AGroup scenario_group) = (w', Ok v)
        /\ deref (objects w') v = Some scenario_expected).
Proof.
  assert (Hattr : forall (h : heap) (g : Group) (item : string) (h' : heap) (x : Value),
             Group___getattr__ h g item = (h', Ok (AValue x)) ->
             isinstance_dict h' (default x) = false).
  { intros h g item h' x. unfold Group___getattr__, Group_is_group, Group_is_value,
      defaults_getitem.
    destruct (dict_of h (_defaults g)) as [kvs|]; [|discriminate].
    simpl str. destruct (dict_get kvs (KStr item)) as [d|].
    + destruct (isinstance_dict h d) eqn:Ei; simpl; [discriminate|].
      intros [= <- <-]. exact Ei.
    + simpl. destruct (force_registration g); [discriminate|].
      intros [= <- <-]. reflexivity. }
  assert (Hmerge : forall s d, is_dict d = false -> merge_value s (Some d) = s).
  { intros s d Hd. destruct s; try reflexivity. destruct d; try reflexivity. discriminate. }
  split; [|split; [|split; [|split]]].
  - intros w g s d Hs Hd.
    destruct (@Group__get_found w g s (JDict d) Hs Hd) as (w' & v & Hg & Hoo & Hv).
    exists w', v. split; [exact Hg|]. split; [exact Hoo|].
    destruct s; try exact Hv.
    split; [exact Hv|]. intros Hnd k. now apply nested_update_get.
  - intros w x s Hs.
    destruct (@Value__get_found w x None s Hs) as (w' & v & Hg & Hoo & Hv).
    exists w', v. split; [exact Hg|]. split; [exact Hoo|]. split; [exact Hv|].
    exact (Hmerge s).
  - exact Hattr.
  - intros h g item x w s d Ha Hs Hd.
    destruct (@Value__get_found w x None s Hs) as (w' & v & Hg & Hoo & Hv).
    exists w', v. split; [exact Hg|]. split; [exact Hoo|].
    rewrite Hmerge; [exact Hv|].
    rewrite <- (deref_isinstance_dict _ _ Hd). exact (Hattr _ _ _ _ _ Ha).
  - eexists. eexists. split; [vm_compute; reflexivity|]. vm_compute. reflexivity.
Qed.

Lemma get_merges_stored_with_defaults_witness :
  exists w' v,
    get scenario_stored_world (AGroup scenario_group) = (w', Ok v)
    /\ deref (objects w') v = Some scenario_expected.
Proof.
  destruct (proj1 get_merges_stored_with_defaults scenario_stored_world scenario_group
              scenario_stored
              [(KStr "threshold", JInt 5);
               (KStr "flags", JDict [(KStr "a", JBool true); (KStr "b", JBool false)])]
              eq_refl eq_refl) as (w' & v & Hg & _ & Hv & _).
  exists w', v. split; [exact Hg|exact Hv].
Defined.

(** ** With nothing stored *)

(** With nothing stored, [Value._get] catches the driver's [KeyError] and
    returns the default it holds: the same object, not a copy. *)
Lemma Value__get_not_found (w : world) (x : Value) :
  driver_get w (_driver x) (identifier_data x) = Raise KeyError ->
  get w (AValue x) = (w, Ok (default x)).
Proof. intros H. unfold get. simpl. unfold Value__get. rewrite H. reflexivity. Qed.

(** With nothing stored, [Group._get] returns a new object whose deep value
    is that of the defaults: the call only adds cells, the cells it adds
    refer to one another only, and the result is one of them. *)
Lemma Group__get_not_found (w : world) (g : Group) (d : items) :
  driver_get w (_driver (as_Value g)) (identifier_data (as_Value g)) = Raise KeyError ->
  deref (objects w) (_defaults g) = Some (JDict d) ->
  wf_json (JDict d) ->
  exists w' l ext,
    get w (AGroup g) = (w', Ok (PRef l))
    /\ only_objects w w'
    /\ deref (objects w') (PRef l) = Some (JDict d)
    /\ (List.length (objects w) <= l)%nat
    /\ deref (objects w') (_defaults g) = Some (JDict d)
    /\ objects w' = objects w ++ ext
    /\ Forall (obj_above (List.length (objects w))) ext.
Proof.
  intros Hs Hd Hwf.
  pose proof (Group__get_only_objects w g None) as Hoo.
  unfold get, accessor__get, Group__get, Group_defaults, pickle_copy in *. rewrite Hd in *.
  destruct (alloc (JDict d) (objects w)) as [h1 dv] eqn:Ea.
  unfold Value__get, driver_get in *. simpl stored in *.
  destruct (table_get (stored w) (slot_of (_driver (as_Value g)) (identifier_data (as_Value g))));
    [discriminate|].
  pose proof (alloc_deref _ _ Ea) as Hdv.
  destruct (alloc_above _ _ Ea) as (_ & e1 & -> & He1).
  simpl objects in *.
  rewrite (deref_isinstance_dict _ _ Hdv) in *. simpl is_dict in *. cbv iota in *.
  unfold Group_nested_update in *. rewrite Hdv in *.
  rewrite (merge_value_self _ Hwf) in *.
  destruct (alloc (JDict d) (objects w ++ e1)) as [h2 v] eqn:Em.
  pose proof (alloc_deref _ _ Em) as Hv.
  destruct (alloc_above _ _ Em) as (_ & e2 & -> & He2).
  rewrite alloc_JDict in Em.
  destruct (alloc_items d (objects w ++ e1)) as [h3 vs] eqn:Ei.
  injection Em as E1 E2. subst v.
  exists (with_objects (with_objects w (objects w ++ e1)) ((objects w ++ e1) ++ e2)),
    (List.length h3), (e1 ++ e2).
  split; [reflexivity|]. split; [exact Hoo|]. simpl objects. split; [exact Hv|].
  split; [|split; [|split]].
  - pose proof (alloc_items_length _ _ Ei) as Hlen.
    rewrite length_app in Hlen. lia.
  - apply deref_app. now apply deref_app.
  - now rewrite app_assoc.
  - apply Forall_app. split; [exact He1|].
    eapply Forall_impl; [|exact He2]. intros a. apply obj_above_mono.
    rewrite length_app. lia.
Qed.

(** The root [Group] of a category holds a copy of the schema: its defaults,
    and all they reach, are objects made by the call. *)
Lemma base_group_above (get_pkey_info : string -> list (string * nat) -> nat * bool)
    (h : heap) (c : Config.t) (ref : config_ref) (cat : string) (pks : list string)
    (h' : heap) (g : Group) :
  Config._get_base_group get_pkey_info h c ref cat pks = Ok (h', g) ->
  val_above (List.length h) (_defaults g)
  /\ closed_from (List.length h) h'
  /\ same_below (List.length h) h h'
  /\ (List.length h <= List.length h')%nat.
Proof.
  unfold Config._get_base_group.
  destruct (get_pkey_info cat (Config.custom_groups c)) as [pkey_len is_custom].
  destruct (List.length pks <? pkey_len)%nat.
  - unfold Group___init__. intros [= <- <-]. simpl.
    split; [lia|]. split; [|split].
    + rewrite <- app_assoc. apply closed_from_app. repeat constructor.
    + rewrite <- app_assoc. apply same_below_app.
    + rewrite !length_app. lia.
  - unfold Config.defaults, pickle_copy.
    destruct (deref h (Config._defaults c)) as [D|]; [|discriminate].
    destruct (alloc D h) as [h1 dv] eqn:Ea.
    destruct (alloc_above _ _ Ea) as (Hdv & ext & -> & Hext).
    destruct (dict_of (h ++ ext) dv) as [kvs|] eqn:Ed; [|discriminate].
    unfold Group___init__. intros [= <- <-]. simpl.
    pose proof (closed_from_app _ Hext) as Hc.
    split; [|split; [|split]].
    + destruct (dict_get kvs (KStr cat)) as [x|] eqn:Eg.
      * exact (dict_of_above _ _ Hc Hdv Ed Eg).
      * simpl. rewrite length_app. lia.
    + now apply closed_from_snoc_empty, closed_from_snoc_empty.
    + rewrite <- !app_assoc. apply same_below_app.
    + rewrite !length_app. lia.
Qed.

(** What attribute access on a [Group] hands out refers to no object older
    than the [Group]'s defaults do. *)
Lemma getattr_above n h g item h1 x :
  closed_from n h -> val_above n (_defaults g) -> (n <= List.length h)%nat ->
  Group___getattr__ h g item = (h1, Ok x) ->
  closed_from n h1
  /\ same_below (List.length h) h h1
  /\ val_above n (default (accessor_Value x))
  /\ match x with AGroup g' => val_above n (_defaults g') | AValue _ => True end.
Proof.
  intros Hc Hv Hn. unfold Group___getattr__, Group_is_group, Group_is_value, defaults_getitem.
  destruct (dict_of h (_defaults g)) as [kvs|] eqn:Ed; [|discriminate].
  simpl str. destruct (dict_get kvs (KStr item)) as [d|] eqn:Eg.
  - pose proof (dict_of_above _ _ Hc Hv Ed Eg) as Hd.
    destruct (isinstance_dict h d); simpl.
    + intros [= <- <-]. simpl.
      split; [now apply closed_from_snoc_empty|]. split; [apply same_below_app|].
      split; [exact Hn|exact Hd].
    + intros [= <- <-]. simpl.
      split; [exact Hc|]. split; [intros l _; reflexivity|]. split; [exact Hd|exact I].
  - simpl. destruct (force_registration g); [discriminate|].
    intros [= <- <-]. simpl.
    split; [exact Hc|]. split; [intros l _; reflexivity|]. split; exact I.
Qed.




(** * Writing *)

(** What a direct [set] of a mapping hands to the driver. *)
Lemma accessor_set_mapping w x value kvs :
  deref (objects w) value = Some (JDict kvs) ->
  accessor_set w x value =
  (driver_set w (_driver (accessor_Value x)) (identifier_data (accessor_Value x))
     (JDict (_str_key_dict kvs)), Ok tt).
Proof.
  intros Hd. destruct x as [v|g]; simpl.
  - unfold Value_set. rewrite Hd. reflexivity.
  - unfold Group_set. rewrite (@deref_dict_isinstance _ _ _ Hd).
    unfold Value_set. rewrite Hd. reflexivity.
Qed.




(** * Scoped read-modify-write *)

(** ** On a scalar *)

(** C8: when the value a section retrieves is neither a list nor a dict,
    entering fails with [TypeError], which is not the not-found error
    [KeyError]; the body and [__aexit__] do not run and the driver is left
    as it was, with no [set] call made. *)
Theorem section_on_scalar_fails (w w1 w2 : world) (mgr : _ValueCtxManager)
    (body : section_body) (raw : pyval) :
  aenter_acquire w mgr = (w1, Returned tt) ->
  accessor__get w1 (value_obj mgr) (coro mgr) = (w2, Ok raw) ->
  isinstance_list_or_dict (objects w2) raw = false ->
  async_with w mgr body = (w2, Raised TypeError)
  /\ TypeError <> KeyError
  /\ stored w2 = stored w
  /\ set_calls w2 = set_calls w.
Proof.
  intros Ha Hg Hi.
  split.
  - unfold async_with, __aenter__, aenter_read. rewrite Ha, Hg, Hi. reflexivity.
  - split; [discriminate|].
    destruct (aenter_acquire_data w mgr) as (A1 & A2 & _). rewrite Ha in A1, A2. simpl in *.
    destruct (accessor__get_only_objects w1 (value_obj mgr) (coro mgr)) as (B1 & B2 & _).
    rewrite Hg in B1, B2. simpl in *. split; congruence.
Qed.

Lemma section_on_scalar_fails_witness :
  let wm := Value___call__ scalar_world (AValue plain_value) None true in
  async_with (fst wm) (snd wm) idle_body
  = (with_locks (fst wm) [true], Raised TypeError)
  /\ stored (with_locks (fst wm) [true]) = stored (fst wm).
Proof.
  pose (wm := Value___call__ scalar_world (AValue plain_value) None true).
  destruct (@section_on_scalar_fails (fst wm) (with_locks (fst wm) [true])
              (with_locks (fst wm) [true]) (snd wm) idle_body (PInt 5)
              eq_refl eq_refl eq_refl) as (H1 & _ & H2 & _).
  split; [exact H1|exact H2].
Defined.

(** ** The dirty check *)

(** The [try] block of [__aexit__] on a [Value]: it makes a [set] call
    exactly when the working copy, its keys cast, differs from the snapshot,
    and the call hands the driver the working copy with its keys cast. *)
Lemma aexit_try_writes_iff_differs w mgr x raw original :
  value_obj mgr = AValue x ->
  deref (objects w) (raw_value mgr) = Some raw ->
  deref (objects w) (__original_value mgr) = Some original ->
  aexit_try w mgr
  = if py_ne (str_key_value raw) original
    then (driver_set w (_driver x) (identifier_data x) (str_key_value raw), Ok tt)
    else (w, Ok tt).
Proof.
  intros Hx Hr Ho. unfold aexit_try. rewrite Hr, Ho, Hx.
  destruct (py_ne (str_key_value raw) original); [|reflexivity].
  simpl. unfold Value_set. now rewrite Hr.
Qed.

(** A section that reads a well-formed value with string keys, mutates
    nothing and exits makes no [set] call and leaves the driver as it was. *)
Lemma idle_section_makes_no_set_call w mgr w1 mgr1 r :
  __aenter__ w mgr = (w1, Returned mgr1) ->
  deref (objects w1) (raw_value mgr1) = Some r ->
  wf_json r -> str_keyed r ->
  set_calls (fst (async_with w mgr idle_body)) = set_calls w
  /\ stored (fst (async_with w mgr idle_body)) = stored w.
Proof.
  intros Henter Hr Hwf Hsk.
  assert (Ho : deref (objects w1) (__original_value mgr1) = Some r).
  { unfold __aenter__ in Henter.
    destruct (aenter_acquire w mgr) as [w0 [[]|e|]]; try discriminate.
    unfold aenter_read in Henter.
    destruct (accessor__get w0 (value_obj mgr) (coro mgr)) as [w2 [raw|e]]; [|discriminate].
    destruct (isinstance_list_or_dict (objects w2) raw) eqn:Ei; simpl in Henter;
      [|discriminate].
    destruct (shallow_copy (objects w2) raw) as [h original] eqn:Ec.
    injection Henter as <- <-. simpl in *.
    rewrite (@shallow_copy_deref (objects w2) raw h original Ei Ec). exact Hr. }
  assert (Hdata : stored w1 = stored w /\ set_calls w1 = set_calls w).
  { unfold __aenter__ in Henter.
    pose proof (aenter_acquire_data w mgr) as (A1 & A2 & _).
    destruct (aenter_acquire w mgr) as [w0 [[]|e|]]; try discriminate. simpl in A1, A2.
    pose proof (aenter_read_only_objects w0 mgr) as (B1 & B2 & _).
    rewrite Henter in B1, B2. simpl in B1, B2. split; congruence. }
  unfold async_with. rewrite Henter. unfold idle_body. rewrite with_objects_same.
  unfold __aexit__, aexit_try. rewrite Hr, Ho.
  rewrite (@str_key_value_id r Hwf Hsk). unfold py_ne. rewrite (@py_eq_refl r Hwf). simpl.
  destruct (aexit_finally_data w1 mgr1 (Ok tt)) as (C1 & C2 & _).
  destruct Hdata as [D1 D2].
  destruct (aexit_finally w1 mgr1 (Ok tt)) as [w3 [[]|e]]; simpl in *; split; congruence.
Qed.

(** A mutation of the working copy itself is written back: in the world of
    [threshold_world], the section that sets [v["threshold"] = 6] makes one
    [set] call, with the new value. *)
Lemma top_level_mutation_is_written_back :
  exists w',
    section threshold_world (AValue plain_value) None true top_body = (w', Returned tt)
    /\ set_calls w' = [(slot_of 0%nat global_address, JDict [(KStr "threshold", JInt 6)])]
    /\ stored w' = [(slot_of 0%nat global_address, JDict [(KStr "threshold", JInt 6)])]
    /\ locked w' 0%nat = false.
Proof. eexists. split; [vm_compute; reflexivity|]. repeat split. Qed.

(** C2 at a failing input: the driver holds [{"flags": {"b": true, "c": 1}}],
    and the body of the section sets [v["flags"]["b"] = False]. The snapshot
    [raw_value.copy()] is a shallow copy and shares the inner dict with the
    working copy, so at exit both read [{"flags": {"b": false, "c": 1}}]:
    they compare equal, [__aexit__] makes no [set] call, and the driver still
    holds the old value although the section has exited normally. *)
Theorem nested_mutation_is_not_written_back :
  let wm := Value___call__ nested_world (AValue plain_value) None true in
  exists w2 mgr,
    __aenter__ (fst wm) (snd wm) = (w2, Returned mgr)
    /\ deref (objects w2) (raw_value mgr) = Some scenario_stored
    /\ deref (objects w2) (__original_value mgr) = Some scenario_stored
    /\ let h3 := fst (nested_body (raw_value mgr) (objects w2)) in
       snd (nested_body (raw_value mgr) (objects w2)) = Ok tt
       /\ deref h3 (raw_value mgr) = Some nested_mutated
       /\ deref h3 (__original_value mgr) = Some nested_mutated
       /\ py_ne nested_mutated scenario_stored = true
       /\ exists w4,
            __aexit__ (with_objects w2 h3) mgr = (w4, Ok tt)
            /\ section nested_world (AValue plain_value) None true nested_body
               = (w4, Returned tt)
            /\ set_calls w4 = []
            /\ stored w4 = [(slot_of 0%nat global_address, scenario_stored)].
Proof.
  simpl. eexists. eexists. split; [vm_compute; reflexivity|].
  repeat split; try (vm_compute; reflexivity).
  eexists. split; [vm_compute; reflexivity|]. repeat split; vm_compute; reflexivity.
Qed.

(** ** The lock *)

(** Once [__aenter__] has returned, the section releases its lock however
    the body ends and whatever the write-back does. *)
Lemma entered_section_releases_lock w mgr body w1 mgr1 :
  __acquire_lock mgr = true ->
  __aenter__ w mgr = (w1, Returned mgr1) ->
  locked (fst (async_with w mgr body)) (__lock mgr) = false.
Proof.
  intros Hacq Henter. unfold async_with. rewrite Henter.
  destruct (aenter_manager _ _ Henter) as (_ & Ha & Hl).
  destruct (body (raw_value mgr1) (objects w1)) as [h2 r].
  unfold __aexit__.
  destruct (aexit_try (with_objects w1 h2) mgr1) as [w3 r3].
  unfold aexit_finally. rewrite Ha, Hacq, Hl.
  pose proof (lock_release_unlocked w3 (__lock mgr)) as Hu.
  destruct (lock_release w3 (__lock mgr)) as [w4 [[]|e]]; simpl in *;
    [destruct r3|]; exact Hu.
Qed.


(** * The singleton cache *)

Module ConfigMetaFacts.
Import ConfigMeta.

Lemma cache_key_eqb_eq a b : cache_key_eqb a b = true <-> a = b.
Proof.
  destruct a as [a1 a2], b as [b1 b2]. unfold cache_key_eqb. simpl.
  rewrite andb_true_iff, !String.eqb_eq.
  split; [intros [-> ->]|intros [= -> ->]]; auto.
Qed.

Lemma cache_key_eqb_refl a : cache_key_eqb a a = true.
Proof. now apply cache_key_eqb_eq. Qed.

Lemma cache_get_remove_same c k : cache_get (cache_remove c k) k = None.
Proof.
  induction c as [|[k0 r0] t IH]; simpl; [reflexivity|].
  destruct (cache_key_eqb k0 k) eqn:E; [exact IH|].
  simpl. now rewrite E.
Qed.

Lemma cache_get_remove c k k' r :
  cache_get (cache_remove c k) k' = Some r -> cache_get c k' = Some r.
Proof.
  induction c as [|[k0 r0] t IH]; simpl; [discriminate|].
  destruct (cache_key_eqb k0 k) eqn:E.
  - intros H. destruct (cache_key_eqb k0 k') eqn:E'; [|auto].
    apply cache_key_eqb_eq in E, E'. subst k k'.
    rewrite cache_get_remove_same in H. discriminate.
  - simpl. destruct (cache_key_eqb k0 k'); auto.
Qed.

Lemma cache_sound_call st h n u d f df :
  cache_sound st -> cache_sound (fst (fst (__call__ st h n u d f df))).
Proof.
  intros Hs. unfold __call__. destruct n as [name|]; [|exact Hs].
  destruct (cache_get (_config_cache st) (name, u)) as [r|] eqn:Ec; [exact Hs|].
  destruct (Config.__init__ h name u d f df) as [h1 inst] eqn:Ei. simpl.
  assert (Hkey : key_of inst = (name, u)).
  { unfold Config.__init__ in Ei.
    destruct (match df with
              | Some v => if truthy h v then (h, v)
                          else (h ++ [ODict []], PRef (List.length h))
              | None => (h ++ [ODict []], PRef (List.length h))
              end) as [h' d']. injection Ei as _ <-. reflexivity. }
  intros k r. simpl.
  destruct (cache_key_eqb (name, u) k) eqn:E.
  - apply cache_key_eqb_eq in E. subst k. intros [= <-].
    exists inst. split; [|exact Hkey].
    rewrite nth_error_app2, Nat.sub_diag by lia. reflexivity.
  - intros H. destruct (Hs _ _ H) as (c & Hc & Hk).
    exists c. split; [|exact Hk].
    rewrite nth_error_app1; [exact Hc|]. apply nth_error_Some. congruence.
Qed.

Lemma cache_sound_run h es : cache_sound (fst (run h es)).
Proof.
  unfold run.
  assert (H : forall sh, cache_sound (fst sh) -> cache_sound (fst (fold_left apply_event es sh))).
  { induction es as [|e t IH]; intros sh Hs; simpl; [exact Hs|].
    apply IH. destruct e as [n u d f df|k]; simpl.
    - apply cache_sound_call. exact Hs.
    - intros k' r Hr. simpl in Hr. apply cache_get_remove in Hr. exact (Hs _ _ Hr). }
  apply H. intros k r Hr. discriminate Hr.
Qed.

(** Two live instances made for one key are one instance. *)
Lemma cache_sound_unique st :
  cache_sound st ->
  forall r r' c c',
    live st r -> live st r' ->
    nth_error (instances st) r = Some c -> nth_error (instances st) r' = Some c' ->
    key_of c = key_of c' -> r = r'.
Proof.
  intros Hs r r' c c' [k Hk] [k' Hk'] Hc Hc' Hkey.
  destruct (Hs _ _ Hk) as (c0 & Hc0 & E0). destruct (Hs _ _ Hk') as (c1 & Hc1 & E1).
  assert (k = k') by congruence. subst k'. congruence.
Qed.

(** After a successful call the key is cached under the reference returned. *)
Lemma call_caches st h name u d f df st1 h1 r :
  __call__ st h (Some name) u d f df = (st1, h1, Ok r) ->
  cache_get (_config_cache st1) (name, u) = Some r.
Proof.
  unfold __call__.
  destruct (cache_get (_config_cache st) (name, u)) as [r0|] eqn:Ec.
  - intros [= <- _ <-]. exact Ec.
  - destruct (Config.__init__ h name u d f df) as [h' inst].
    intros [= <- _ <-]. simpl. now rewrite cache_key_eqb_refl.
Qed.

(** A call for a cached key changes nothing and returns the cached
    reference, whatever the other arguments. *)
Lemma call_cached st h name u d f df r :
  cache_get (_config_cache st) (name, u) = Some r ->
  __call__ st h (Some name) u d f df = (st, h, Ok r).
Proof. intros Hc. unfold __call__. now rewrite Hc. Qed.

End ConfigMetaFacts.



(** C10: when the key [(cog_name, unique_identifier)] has a live cached
    instance, a construction with that key returns the cached reference and
    changes neither the registry nor the heap, whatever driver,
    [force_registration] and defaults it is given; and an instance that was
    constructed with a driver, a flag and defaults still has exactly those
    after a second construction with other ones. *)
Theorem cached_config_ignores_arguments :
  (forall (st : ConfigMeta.registry) (h : heap) (name uid : string) (r : config_ref)
          (c : Config.t) (d : driver_ref) (f : bool) (df : option pyval),
      ConfigMeta.cache_get (ConfigMeta._config_cache st) (name, uid) = Some r ->
      nth_error (ConfigMeta.instances st) r = Some c ->
      ConfigMeta.__call__ st h (Some name) uid d f df = (st, h, Ok r)
      /\ nth_error
           (ConfigMeta.instances (fst (fst (ConfigMeta.__call__ st h (Some name) uid d f df))))
           r = Some c)
  /\ (forall (st : ConfigMeta.registry) (h : heap) (name uid : string)
             (d1 d2 : driver_ref) (f1 f2 : bool) (df1 df2 : option pyval),
        ConfigMeta.cache_get (ConfigMeta._config_cache st) (name, uid) = None ->
        exists st1 h1 r c,
          ConfigMeta.__call__ st h (Some name) uid d1 f1 df1 = (st1, h1, Ok r)
          /\ ConfigMeta.__call__ st1 h1 (Some name) uid d2 f2 df2 = (st1, h1, Ok r)
          /\ nth_error (ConfigMeta.instances st1) r = Some c
          /\ Config._driver c = d1
          /\ Config.force_registration c = f1
          /\ Config._defaults c
             = match df1 with
               | Some v => if truthy h v then v else PRef (List.length h)
               | None => PRef (List.length h)
               end).
Proof.
  split.
  - intros st h name uid r c d f df Hc Hn.
    rewrite (ConfigMetaFacts.call_cached st h name uid d f df Hc). simpl. auto.
  - intros st h name uid d1 d2 f1 f2 df1 df2 Hnone.
    destruct (ConfigMeta.__call__ st h (Some name) uid d1 f1 df1) as [[st1 h1] res] eqn:E.
    pose proof E as E'. unfold ConfigMeta.__call__ in E'. rewrite Hnone in E'.
    destruct (Config.__init__ h name uid d1 f1 df1) as [h' inst] eqn:Ei.
    injection E' as <- <- <-.
    exists {| ConfigMeta.instances := ConfigMeta.instances st ++ [inst];
              ConfigMeta._config_cache :=
                ((name, uid), List.length (ConfigMeta.instances st))
                  :: ConfigMeta._config_cache st |},
      h', (List.length (ConfigMeta.instances st)), inst.
    split; [reflexivity|].
    split; [apply ConfigMetaFacts.call_cached, (ConfigMetaFacts.call_caches _ _ _ _ _ _ _ E)|].
    split; [simpl; rewrite nth_error_app2, Nat.sub_diag by lia; reflexivity|].
    unfold Config.__init__ in Ei.
    destruct df1 as [v|]; [destruct (truthy h v)|]; injection Ei as _ <-; simpl; auto.
Qed.

Lemma cached_config_ignores_arguments_witness :
  ConfigMeta.__call__
    (fst (fst (ConfigMeta.__call__ ConfigMeta.no_configs [] (Some "Mod") "4961522000"
                 0%nat false None)))
    [ODict []] (Some "Mod") "4961522000" 7%nat true (Some (PInt 3))
  = (fst (fst (ConfigMeta.__call__ ConfigMeta.no_configs [] (Some "Mod") "4961522000"
                 0%nat false None)),
     [ODict []], Ok 0%nat).
Proof.
  exact (proj1 (proj1 cached_config_ignores_arguments
                  (fst (fst (ConfigMeta.__call__ ConfigMeta.no_configs [] (Some "Mod")
                               "4961522000" 0%nat false None)))
                  [ODict []] "Mod" "4961522000" 0%nat
                  {| Config.cog_name := "Mod"; Config.unique_identifier := "4961522000";
                     Config._driver := 0%nat; Config.force_registration := false;
                     Config._defaults := PRef 0; Config.custom_groups := [] |}
                  7%nat true (Some (PInt 3)) eq_refl eq_refl)).
Defined.

(** * Two sections on one address *)

(** A change of the world that keeps locks, cache and driver keeps what
    holds of a task that does not move. *)
Lemma task_ok_frame p w w' t :
  locks w' = locks w -> _lock_cache w' = _lock_cache w ->
  task_ok p w t -> task_ok p w' t.
Proof.
  intros Hl Hc [Hm Hcalls]. split; [|exact Hcalls].
  destruct (manager_of t) as [mgr|]; [|exact I].
  destruct Hm as (A & B & C & D). rewrite Hc. repeat split; try assumption.
  intros Hin. rewrite (@locked_same_locks w w' _ Hl). auto.
Qed.

Lemma write_seen_frame pj w w' ti tj :
  stored w' = stored w -> write_seen pj w ti tj -> write_seen pj w' ti tj.
Proof. intros Hs H v Hc Hb. rewrite Hs. now apply H. Qed.

Lemma locks_exist_frame w w' :
  locks w' = locks w -> _lock_cache w' = _lock_cache w -> locks_exist w -> locks_exist w'.
Proof. intros Hl Hc H k l. rewrite Hc, Hl. apply H. Qed.

Lemma task_ok_locked_frame p w w' t :
  (forall l, locked w' l = locked w l) -> _lock_cache w' = _lock_cache w ->
  task_ok p w t -> task_ok p w' t.
Proof.
  intros Hl Hc [Hm Hcalls]. split; [|exact Hcalls].
  destruct (manager_of t) as [mgr|]; [|exact I].
  destruct Hm as (A & B & C & D). rewrite Hc. repeat split; try assumption.
  intros Hin. rewrite Hl. auto.
Qed.

Lemma in_section_manager t : in_section t = true -> exists mgr, manager_of t = Some mgr.
Proof. destruct t; simpl; try discriminate; eauto. Qed.

(** Two tasks with managers for one slot hold one lock. *)
Lemma task_ok_same_lock p q w t u mt mu :
  lock_slot p = lock_slot q ->
  task_ok p w t -> task_ok q w u ->
  manager_of t = Some mt -> manager_of u = Some mu ->
  __lock mt = __lock mu.
Proof.
  intros Hls [Ht _] [Hu _] Emt Emu. rewrite Emt in Ht. rewrite Emu in Hu.
  destruct Ht as (_ & _ & Ct & _). destruct Hu as (_ & _ & Cu & _).
  rewrite Hls in Ct. congruence.
Qed.

Lemma inv_parts_sym p q w t u : inv_parts p q w t u -> inv_parts q p w u t.
Proof.
  intros (A & B & C & D & E & F).
  split; [exact A|]. split; [exact C|]. split; [exact B|].
  split; [intros X Y; exact (D Y X)|]. split; [exact F|exact E].
Qed.

(** A turn of one task keeps the invariant. *)
Lemma turn_preserves p q w t u w' t' :
  lock_slot p = lock_slot q -> p_acquire_lock p = true ->
  inv_parts p q w t u ->
  task_step p w t = Some (w', t') ->
  inv_parts p q w' t' u.
Proof.
  intros Hls Hacq (Hle & Ht & Hu & Hex & Hs1 & Hs2) Hstep.
  destruct t as [|mgr|mgr|mgr|mgr r|mgr r r1 calls|r calls]; simpl in Hstep.
  - (* the manager is made *)
    unfold Value___call__, get_lock in Hstep. cbv zeta in Hstep.
    change (slot_of (_config (accessor_Value (p_accessor p)))
              (identifier_data (accessor_Value (p_accessor p)))) with (lock_slot p) in Hstep.
    destruct (table_get (_lock_cache w) (lock_slot p)) as [l|] eqn:Ec;
      injection Hstep as <- <-.
    + assert (Hlk : forall l0, locked (with_locks w (locks w ++ [false])) l0 = locked w l0)
        by (intros l0; unfold locked; simpl; apply nth_snoc_false).
      split; [|split; [|split; [|split; [|split]]]].
      * intros k l0 Hk. simpl in *. rewrite length_app. pose proof (Hle _ _ Hk). lia.
      * split; [|left; reflexivity]. simpl. repeat split; auto. discriminate.
      * now apply (@task_ok_locked_frame q w _ u Hlk).
      * discriminate.
      * intros v Hc _. simpl. now apply Hs1.
      * intros v Hc. discriminate Hc.
    + split; [|split; [|split; [|split; [|split]]]].
      * intros k l0. simpl. rewrite length_app. simpl.
        destruct (slot_eqb (lock_slot p) k) eqn:E.
        -- apply slot_eqb_eq in E. subst k. rewrite table_get_set_same.
           intros [= <-]. lia.
        -- rewrite table_get_set_other
             by (intros Heq; rewrite <- Heq, slot_eqb_refl in E; discriminate).
           intros Hk. pose proof (Hle _ _ Hk). lia.
      * split; [|left; reflexivity]. simpl. repeat split; auto.
        -- apply table_get_set_same.
        -- discriminate.
      * destruct Hu as [Hm Hcalls]. split; [|exact Hcalls].
        destruct (manager_of u) as [mu|]; [|exact I].
        destruct Hm as (_ & _ & Cu & _). rewrite <- Hls, Ec in Cu. discriminate.
      * discriminate.
      * intros v Hc _. simpl. now apply Hs1.
      * intros v Hc. discriminate Hc.
  - (* the lock is taken *)
    destruct Ht as [(Hv & Hf & Hc & _) _]. simpl in *.
    unfold aenter_acquire, lock_acquire in Hstep. rewrite Hf in Hstep.
    destruct (locked w (__lock mgr)) eqn:El; [discriminate|].
    injection Hstep as <- <-.
    assert (Hfree : in_section u = true -> False).
    { intros Hin. destruct (in_section_manager _ Hin) as [mu Emu].
      destruct Hu as [Hm _]. rewrite Emu in Hm. destruct Hm as (_ & _ & Cu & Du).
      rewrite <- Hls, Hc in Cu. injection Cu as Cu. rewrite <- Cu in Du.
      rewrite (Du Hin) in El. discriminate. }
    split; [|split; [|split; [|split; [|split]]]].
    + intros k l0 Hk. simpl in *. rewrite length_list_set. now apply (Hle k).
    + split; [|left; reflexivity]. simpl. repeat split; auto.
      intros _. unfold locked. simpl. apply nth_list_set_same. now apply (Hle _ _ Hc).
    + destruct Hu as [Hm Hcalls]. split; [|exact Hcalls].
      destruct (manager_of u) as [mu|]; [|exact I].
      destruct Hm as (A & B & C & D). repeat split; auto; intros Hin; exfalso; auto.
    + intros _. exact Hfree.
    + intros v Hcl _. simpl. now apply Hs1.
    + intros v Hcl. discriminate Hcl.
  - (* the read, the check and the snapshot *)
    pose proof (aenter_read_only_objects w mgr) as (Os & Oc & Ol & Oh).
    destruct (aenter_read w mgr) as [w1 [mgr1| e|]] eqn:Er; [| |discriminate];
      injection Hstep as <- <-; simpl in Os, Oc, Ol, Oh.
    + destruct (aenter_read_manager _ _ Er) as (Mv & Mf & Ml & _).
      destruct Ht as [(Hv & Hf & Hc & Hd) _]. simpl in *.
      split; [|split; [|split; [|split; [|split]]]].
      * now apply (@locks_exist_frame w w1).
      * split; [|left; reflexivity]. simpl.
        rewrite Mv, Mf, Ml, Oh. repeat split; auto.
        intros _. rewrite (@locked_same_locks w w1 _ Ol). auto.
      * now apply (@task_ok_frame q w w1 u).
      * intros _. now apply Hex.
      * intros v Hcl _. rewrite Os. now apply Hs1.
      * intros v Hcl. discriminate Hcl.
    + split; [|split; [|split; [|split; [|split]]]].
      * now apply (@locks_exist_frame w w1).
      * split; [exact I|left; reflexivity].
      * now apply (@task_ok_frame q w w1 u).
      * discriminate.
      * intros v _ Hb. discriminate Hb.
      * intros v Hcl. discriminate Hcl.
  - (* the body *)
    destruct (p_body p (raw_value mgr) (objects w)) as [h r] eqn:Eb.
    injection Hstep as <- <-.
    split; [|split; [|split; [|split; [|split]]]].
    + exact Hle.
    + destruct Ht as [Hm _]. split; [exact Hm|left; reflexivity].
    + exact Hu.
    + exact Hex.
    + intros v Hcl _. simpl. now apply Hs1.
    + intros v Hcl. discriminate Hcl.
  - (* the try block of __aexit__ *)
    pose proof (aexit_try_locks w mgr) as [Ol Oh].
    pose proof (aexit_try_calls w mgr) as Hcalls.
    destruct (aexit_try w mgr) as [w1 r1] eqn:Ee.
    injection Hstep as <- <-. simpl in Ol, Oh, Hcalls.
    destruct Ht as [(Hv & Hf & Hc & Hd) _]. simpl in *.
    rewrite Hv in Hcalls.
    change (slot_of (_driver (accessor_Value (p_accessor p)))
              (identifier_data (accessor_Value (p_accessor p))))
      with (data_slot p) in Hcalls.
    split; [|split; [|split; [|split; [|split]]]].
    + now apply (@locks_exist_frame w w1).
    + split.
      * simpl. rewrite Oh. repeat split; auto.
        intros _. rewrite (@locked_same_locks w w1 _ Ol). auto.
      * simpl. destruct Hcalls as [[E _]|[j [E _]]]; [left|right; exists j]; exact E.
    + now apply (@task_ok_frame q w w1 u).
    + intros _. now apply Hex.
    + intros v _ Hb. discriminate Hb.
    + intros v Hcl _. simpl in Hcl.
      destruct Hcalls as [[E _]|[j [E Hj]]]; rewrite E in Hcl; [discriminate|].
      injection Hcl as <-. exact Hj.
  - (* the finally clause *)
    destruct Ht as [(Hv & Hf & Hc & Hd) Hcalls]. simpl in *.
    unfold aexit_finally in Hstep. rewrite Hf in Hstep.
    pose proof (lock_release_data w (__lock mgr)) as (Os & _ & _).
    pose proof (lock_release_cache w (__lock mgr)) as (Oh & Olen).
    destruct (lock_release w (__lock mgr)) as [w2 r2] eqn:Erel. simpl in Os, Oh, Olen.
    assert (Hw : w' = w2) by (destruct r2; injection Hstep as <- _; reflexivity).
    assert (Ht' : exists r', t' = TDone r' calls)
      by (destruct r2; injection Hstep as _ <-; eauto).
    destruct Ht' as [r' ->]. subst w'. clear Hstep.
    assert (Hfree : in_section u = true -> False) by (intros Hin; now apply Hex).
    split; [|split; [|split; [|split; [|split]]]].
    + intros k l0. rewrite Oh, Olen. apply Hle.
    + split; [exact I|exact Hcalls].
    + destruct Hu as [Hm Hcu]. split; [|exact Hcu].
      destruct (manager_of u) as [mu|]; [|exact I].
      destruct Hm as (A & B & C & D). rewrite Oh.
      repeat split; auto; intros Hin; exfalso; auto.
    + discriminate.
    + intros v _ Hb. discriminate Hb.
    + intros v Hcl Hb. rewrite Os. now apply Hs2.
  - discriminate.
Qed.

(** A cancellation keeps the invariant. *)
Lemma cancel_preserves p q w t u t' :
  inv_parts p q w t u -> task_cancel t = Some t' -> inv_parts p q w t' u.
Proof.
  intros (Hle & Ht & Hu & Hex & Hs1 & Hs2) Hc.
  destruct t as [|mgr|mgr|mgr|mgr r|mgr r r1 calls|r calls]; simpl in Hc;
    try discriminate; injection Hc as <-.
  - split; [exact Hle|]. split; [split; [exact I|now left]|]. split; [exact Hu|].
    split; [discriminate|].
    split; [intros v _ Hb; discriminate Hb|intros v Hcl; discriminate Hcl].
  - split; [exact Hle|]. split; [split; [exact I|now left]|]. split; [exact Hu|].
    split; [discriminate|].
    split; [intros v _ Hb; discriminate Hb|intros v Hcl; discriminate Hcl].
  - destruct Ht as [Hm _]. split; [exact Hle|]. split; [split; [exact Hm|now left]|].
    split; [exact Hu|]. split; [exact Hex|]. split.
    + intros v Hcl _. now apply Hs1.
    + intros v Hcl. discriminate Hcl.
  - destruct Ht as [Hm _]. split; [exact Hle|]. split; [split; [exact Hm|now left]|].
    split; [exact Hu|]. split; [exact Hex|]. split.
    + intros v _ Hb. discriminate Hb.
    + intros v Hcl. discriminate Hcl.
  - split; [exact Hle|]. split; [exact Ht|].
    split; [exact Hu|]. split; [exact Hex|]. split; [exact Hs1|exact Hs2].
Qed.

(** The collection of an unreferenced lock keeps the invariant. *)
Lemma collect_preserves p q w t u k l :
  inv_parts p q w t u ->
  table_get (_lock_cache w) k = Some l -> unreferenced l t -> unreferenced l u ->
  inv_parts p q (forget_lock w k) t u.
Proof.
  intros (Hle & Ht & Hu & Hex & Hs1 & Hs2) Hk Ht0 Hu0.
  assert (Hok : forall r x, task_ok r w x -> unreferenced l x ->
                            task_ok r (forget_lock w k) x).
  { intros r x [Hm Hcalls] Hun. split; [|exact Hcalls].
    unfold unreferenced in Hun.
    destruct (manager_of x) as [mgr|]; [|exact I].
    destruct Hm as (A & B & C & D). repeat split; auto.
    simpl. rewrite table_get_remove_other; [exact C|].
    intros ->. rewrite Hk in C. injection C as C. auto. }
  split; [|split; [|split; [|split; [|split]]]]; auto.
  intros k0 l0 H0. simpl in H0. apply table_get_remove in H0. exact (Hle _ _ H0).
Qed.

(** Every state two sections on one address reach satisfies the invariant. *)
Lemma reachable_inv p1 p2 w0 s :
  lock_slot p1 = lock_slot p2 ->
  p_acquire_lock p1 = true -> p_acquire_lock p2 = true ->
  locks_exist w0 ->
  reachable p1 p2 w0 s -> serial_inv p1 p2 s.
Proof.
  intros Hls Ha1 Ha2 Hle Hr. induction Hr as [|s s' Hr IH Hstep].
  - simpl. repeat split; auto; try discriminate; now left.
  - destruct Hstep as [w t1 t2 w' t1' Hs|w t1 t2 w' t2' Hs|w t1 t2 t1' Hc|w t1 t2 t2' Hc
                       |w t1 t2 k l Hk H1 H2]; simpl in IH |- *.
    + exact (@turn_preserves p1 p2 w t1 t2 w' t1' Hls Ha1 IH Hs).
    + apply inv_parts_sym.
      exact (@turn_preserves p2 p1 w t2 t1 w' t2' (eq_sym Hls) Ha2 (inv_parts_sym IH) Hs).
    + exact (@cancel_preserves p1 p2 w t1 t2 t1' IH Hc).
    + apply inv_parts_sym.
      exact (@cancel_preserves p2 p1 w t2 t1 t2' (inv_parts_sym IH) Hc).
    + exact (@collect_preserves p1 p2 w t1 t2 k l IH Hk H1 H2).
Qed.

Lemma reachable_turns1 p1 p2 w0 n : forall w t1 t2,
  reachable p1 p2 w0 (w, t1, t2) ->
  reachable p1 p2 w0 (fst (turns p1 n (w, t1)), snd (turns p1 n (w, t1)), t2).
Proof.
  induction n as [|n IH]; intros w t1 t2 Hr; simpl; [exact Hr|].
  destruct (task_step p1 w t1) as [[w' t1']|] eqn:E; [|exact Hr].
  apply IH. eapply reach_step; [exact Hr|]. now apply turn1.
Qed.

Lemma reachable_turns2 p1 p2 w0 n : forall w t1 t2,
  reachable p1 p2 w0 (w, t1, t2) ->
  reachable p1 p2 w0 (fst (turns p2 n (w, t2)), t1, snd (turns p2 n (w, t2))).
Proof.
  induction n as [|n IH]; intros w t1 t2 Hr; simpl; [exact Hr|].
  destruct (task_step p2 w t2) as [[w' t2']|] eqn:E; [|exact Hr].
  apply IH. eapply reach_step; [exact Hr|]. now apply turn2.
Qed.

(** A task left alone goes through its section as [section] does: in six
    turns it is over with the same world and the same result, or it waits at
    the lock where [section] is blocked. *)
Lemma turns_section p w :
  match section w (p_accessor p) (p_default p) (p_acquire_lock p) (p_body p) with
  | (w', Returned _) => exists calls, turns p 6 (w, TStart) = (w', TDone (Ok tt) calls)
  | (w', Raised e) => exists calls, turns p 6 (w, TStart) = (w', TDone (Raise e) calls)
  | (w', Blocked) => exists mgr, turns p 6 (w, TStart) = (w', TAcquire mgr)
  end.
Proof.
  unfold section. simpl turns.
  destruct (Value___call__ w (p_accessor p) (p_default p) (p_acquire_lock p))
    as [w1 mgr] eqn:Ec. simpl fst. simpl snd.
  unfold async_with, __aenter__. simpl task_step.
  destruct (aenter_acquire w1 mgr) as [w2 [[]|e|]] eqn:Ea; simpl.
  - destruct (aenter_read w2 mgr) as [w3 [mgr1|e|]] eqn:Er; simpl.
    + destruct (p_body p (raw_value mgr1) (objects w3)) as [h r] eqn:Eb. simpl.
      unfold __aexit__.
      destruct (aexit_try (with_objects w3 h) mgr1) as [w4 r1] eqn:Et. simpl.
      destruct (aexit_finally w4 mgr1 r1) as [w5 r2] eqn:Ef. simpl.
      destruct r2 as [[]|e2]; [|eauto].
      destruct r as [[]|e1]; eauto.
    + eauto.
    + exfalso. exact (aenter_read_not_blocked _ _ Er).
  - eauto.
  - unfold aenter_acquire, lock_acquire in Ea.
    destruct (__acquire_lock mgr); [|discriminate].
    destruct (locked w1 (__lock mgr)); [|discriminate].
    injection Ea as <-. eauto.
Qed.

(** [Group._get] on a found value, with the caller's default or with the
    [Group]'s own defaults. *)
Lemma Group__get_found_default (w : world) (g : Group) (default_arg : option pyval)
    (s d : json) :
  driver_get w (_driver (as_Value g)) (identifier_data (as_Value g)) = Ok s ->
  deref (objects w) (match default_arg with Some dv => dv | None => _defaults g end)
  = Some d ->
  exists w' v,
    Group__get w g default_arg = (w', Ok v)
    /\ deref (objects w') v = Some (merge_value s (Some d)).
Proof.
  intros Hs Hd. destruct default_arg as [dv|].
  - unfold Group__get. rewrite with_objects_same.
    unfold Value__get. rewrite Hs.
    destruct (alloc s (objects w)) as [h2 raw] eqn:Es. simpl objects.
    pose proof (alloc_deref _ _ Es) as Hraw.
    destruct (alloc_extends _ _ Es) as [ext ->].
    apply deref_app with (ext := ext) in Hd.
    rewrite (deref_isinstance_dict _ _ Hraw).
    destruct (is_dict s) eqn:Ed.
    + unfold Group_nested_update. rewrite Hraw, Hd.
      destruct (alloc (merge_value s (Some d)) (objects w ++ ext)) as [h3 v] eqn:Em.
      eexists _, v. split; [reflexivity|]. simpl. exact (alloc_deref _ _ Em).
    + eexists _, raw. split; [reflexivity|]. simpl. rewrite Hraw.
      destruct s; try reflexivity. discriminate.
  - destruct (@Group__get_found w g s d Hs Hd) as (w' & v & E & _ & D). eauto.
Qed.



(** ** A lock left locked *)

(** A task cancelled at its initial read is over at once, with the world,
    and so the lock it took, as it was. *)
Lemma cancelled_read_keeps_lock p1 p2 w mgr t2 :
  sys_step p1 p2 (w, TRead mgr, t2) (w, TDone (Raise CancelledError) [], t2).
Proof. now apply cancel1. Qed.

(** A task whose read fails is over with the lock it took still locked. *)
Lemma failed_read_keeps_lock p w mgr w' e :
  __acquire_lock mgr = true ->
  locked w (__lock mgr) = true ->
  aenter_read w mgr = (w', Raised e) ->
  task_step p w (TRead mgr) = Some (w', TDone (Raise e) [])
  /\ locked w' (__lock mgr) = true.
Proof.
  intros Hf Hl Hr. simpl. rewrite Hr. split; [reflexivity|].
  pose proof (aenter_read_only_objects w mgr) as (_ & _ & Ol & _).
  rewrite Hr in Ol. simpl in Ol. now rewrite (@locked_same_locks w w' _ Ol).
Qed.

(** Next to a task that is over, a task that waits for a locked lock can
    only go on waiting or be cancelled: no step unlocks the lock. *)
Lemma abandoned_lock_blocks_for_ever p1 p2 w r c mgr2 t2 s' :
  __acquire_lock mgr2 = true ->
  locked w (__lock mgr2) = true ->
  t2 = TAcquire mgr2 \/ t2 = TDone (Raise CancelledError) [] ->
  sys_step p1 p2 (w, TDone r c, t2) s' ->
  exists w' t2',
    s' = (w', TDone r c, t2')
    /\ locked w' (__lock mgr2) = true
    /\ (t2' = TAcquire mgr2 \/ t2' = TDone (Raise CancelledError) []).
Proof.
  intros Hf Hl Ht2 Hstep.
  inversion Hstep as [w0 a b w1 a' Hs|w0 a b w1 b' Hs|w0 a b a' Hc|w0 a b b' Hc
                      |w0 a b k l Hk H1 H2]; subst.
  - discriminate Hs.
  - destruct Ht2 as [-> | ->]; simpl in Hs; [|discriminate].
    unfold aenter_acquire, lock_acquire in Hs. rewrite Hf, Hl in Hs. discriminate.
  - discriminate Hc.
  - destruct Ht2 as [-> | ->]; simpl in Hc; [|discriminate].
    injection Hc as <-. exists w, (TDone (Raise CancelledError) []). auto.
  - exists (forget_lock w k), t2. auto.
Qed.

(** C3 at two failing inputs. (1) The driver holds the scalar [5]; two
    managers are made for the address, so that they share its lock. Entering
    the first takes the lock, reads the scalar and raises [TypeError] from
    [__aenter__]; [__aexit__], whose [finally] clause is the only place that
    releases, never runs. The lock stays locked, and entering the second
    manager waits for it without end. (2) The driver holds a dict; a first
    task takes the lock and is suspended at its initial read, a second makes
    its manager and waits for the lock, and the first is cancelled: it is
    over with [CancelledError], the lock is still locked, and the second has
    no turn to take. *)
Theorem failed_enter_leaves_lock_held :
  (let wm1 := Value___call__ scalar_world (AValue plain_value) None true in
   let wm2 := Value___call__ (fst wm1) (AValue plain_value) None true in
   __lock (snd wm1) = __lock (snd wm2)
   /\ locked (fst wm2) (__lock (snd wm1)) = false
   /\ exists w3,
        async_with (fst wm2) (snd wm1) idle_body = (w3, Raised TypeError)
        /\ locked w3 (__lock (snd wm1)) = true
        /\ async_with w3 (snd wm2) idle_body = (w3, Blocked))
  /\ (let s1 := turns writer 2 (threshold_world, TStart) in
      let s2 := turns writer 1 (fst s1, TStart) in
      exists mgr1 mgr2,
        snd s1 = TRead mgr1
        /\ snd s2 = TAcquire mgr2
        /\ task_cancel (snd s1) = Some (TDone (Raise CancelledError) [])
        /\ reachable writer writer threshold_world
             (fst s2, TDone (Raise CancelledError) [], snd s2)
        /\ locked (fst s2) (__lock mgr2) = true
        /\ task_step writer (fst s2) (snd s2) = None).
Proof.
  split.
  - simpl. split; [reflexivity|]. split; [reflexivity|].
    eexists. split; [vm_compute; reflexivity|]. split; vm_compute; reflexivity.
  - intros s1 s2. eexists. eexists.
    split; [reflexivity|]. split; [reflexivity|]. split; [reflexivity|].
    split; [|split; reflexivity].
    eapply reach_step.
    + apply (@reachable_turns2 writer writer threshold_world 1 (fst s1) (snd s1) TStart).
      apply (@reachable_turns1 writer writer threshold_world 2 threshold_world
               TStart TStart).
      apply reach_start.
    + apply cancel1. reflexivity.
Qed.

(** * Round trips through the driver *)

(** [Value.set] followed by [Value._get], the driver handing back what it
    was handed: whatever the default, the read gives back [_str_key_dict] of
    the value that was set when that is a dict, and the value itself
    otherwise. In what is read back the keys of the dict, and of the dicts
    reached through dict values, are [str]; a dict inside a list is read
    back as it was set, keys that are not [str] included. A well-formed
    value whose dicts reached through dict values have [str] keys comes back
    as it was. *)
Theorem Value_set_then_get (w : world) (self : Value) (value : pyval) (j : json)
    (default_arg : option pyval) :
  deref (objects w) value = Some j ->
  exists w1 w2 v,
    Value_set w self value = (w1, Ok tt)
    /\ Value__get w1 self default_arg = (w2, Ok v)
    /\ deref (objects w2) v = Some (str_key_value j)
    /\ match j with
       | JDict kvs => str_key_value j = JDict (_str_key_dict kvs)
       | _ => str_key_value j = j
       end
    /\ str_keyed (str_key_value j)
    /\ (wf_json j -> str_keyed j -> deref (objects w2) v = Some j).
Proof.
  intros Hd. unfold Value_set. rewrite Hd.
  set (w1 := driver_set w (_driver self) (identifier_data self) (str_key_value j)).
  assert (Hg : driver_get w1 (_driver self) (identifier_data self) = Ok (str_key_value j)).
  { unfold driver_get, w1. simpl. now rewrite table_get_set_same. }
  destruct (alloc (str_key_value j) (objects w1)) as [h v] eqn:Ea.
  exists w1, (with_objects w1 h), v.
  split; [reflexivity|].
  split; [unfold Value__get; rewrite Hg, Ea; reflexivity|].
  pose proof (alloc_deref _ _ Ea) as Hv. simpl objects.
  split; [exact Hv|]. split; [destruct j; reflexivity|].
  split; [apply str_key_value_str_keyed|].
  intros Hwf Hsk. rewrite (@str_key_value_id j Hwf Hsk) in Hv. exact Hv.
Qed.

(** [{"a": [{1: 2}]}] is read back with the key [1] of the dict inside the
    list still an [int]. *)
Lemma Value_set_then_get_witness :
  exists w1 w2 v,
    Value_set (with_objects empty_world (fst (alloc listed_mapping [])))
      plain_value (snd (alloc listed_mapping [])) = (w1, Ok tt)
    /\ Value__get w1 plain_value None = (w2, Ok v)
    /\ deref (objects w2) v = Some (JDict [(KStr "a", JList [JDict [(KInt 1, JInt 2)]])]).
Proof.
  destruct (@Value_set_then_get (with_objects empty_world (fst (alloc listed_mapping [])))
              plain_value (snd (alloc listed_mapping [])) listed_mapping None eq_refl)
    as (w1 & w2 & v & H1 & H2 & H3 & _).
  exists w1, w2, v. split; [exact H1|]. split; [exact H2|exact H3].
Defined.

(** [Value.clear] followed by [Value._get]: whatever was stored, the read
    falls back to the caller's default when there is one and to the
    [Value]'s own default object otherwise; clearing again changes nothing,
    and clearing makes no [set] call. *)
Theorem Value_clear_then_get (w : world) (self : Value) (default_arg : option pyval) :
  let w1 := Value_clear w self in
  Value__get w1 self default_arg
  = (w1, Ok (match default_arg with Some d => d | None => default self end))
  /\ Value_clear w1 self = w1
  /\ set_calls w1 = set_calls w.
Proof.
  intros w1. subst w1. unfold Value_clear, driver_clear, Value__get, driver_get. simpl.
  rewrite table_get_remove_same. split; [reflexivity|]. split; [|reflexivity].
  f_equal.
  generalize (stored w). intros t. generalize (slot_of (_driver self) (identifier_data self)). intros k.
  induction t as [|[k0 v0] t IH]; simpl; [reflexivity|].
  destruct (slot_eqb k0 k) eqn:E; [exact IH|]. simpl. rewrite E. now rewrite IH.
Qed.

(** What [Group.get_attr] gives when the item resolves to a [Value]: the
    item is bound to something that is not a dict, or is not bound and
    registration is not forced. *)
Lemma get_attr_Value (h : heap) (self : Group) (item : key) (kvs : list (key * pyval)) :
  dict_of h (_defaults self) = Some kvs ->
  match dict_get kvs (KStr (str item)) with
  | Some d => isinstance_dict h d = false
  | None => force_registration self = false
  end ->
  Group_get_attr h self item
  = (h, Ok (AValue {| identifier_data := get_child (identifier_data (as_Value self)) (str item);
                      default := match dict_get kvs (KStr (str item)) with
                                 | Some d => d
                                 | None => PNone
                                 end;
                      _driver := _driver (as_Value self);
                      _config := _config (as_Value self) |})).
Proof.
  intros Hk Hv.
  unfold Group_get_attr, Group___getattr__, Group_is_group, Group_is_value, defaults_getitem.
  rewrite Hk. simpl str.
  destruct (dict_get kvs (KStr (str item))) as [d|]; rewrite Hv; reflexivity.
Qed.

(** [Group.set_raw] with one path item, followed by a read through
    [Group.get_attr] for the same item, when the item resolves to a
    [Value]: the path item and the attribute are cast with [str] alike, so
    both name one address, and the read gives back the value as it was handed
    over, no key of it cast. *)
Theorem set_raw_then_get_attr (w : world) (self : Group) (item : key) (value : pyval)
    (j : json) (kvs : list (key * pyval)) :
  deref (objects w) value = Some j ->
  dict_of (objects w) (_defaults self) = Some kvs ->
  match dict_get kvs (KStr (str item)) with
  | Some d => isinstance_dict (objects w) d = false
  | None => force_registration self = false
  end ->
  exists w1 x w2 v,
    Group_set_raw w self [item] value = (w1, Ok tt)
    /\ Group_get_attr (objects w1) self item = (objects w1, Ok (AValue x))
    /\ identifier_data x = get_child (identifier_data (as_Value self)) (str item)
    /\ get w1 (AValue x) = (w2, Ok v)
    /\ deref (objects w2) v = Some j.
Proof.
  intros Hd Hk Hv.
  set (a := get_child (identifier_data (as_Value self)) (str item)).
  set (w1 := driver_set w (_driver (as_Value self)) a j).
  destruct (alloc j (objects w1)) as [h v] eqn:Ea.
  eexists w1, _, (with_objects w1 h), v.
  split; [unfold Group_set_raw; rewrite Hd; reflexivity|].
  split; [exact (@get_attr_Value (objects w1) self item kvs Hk Hv)|].
  split; [reflexivity|].
  split; [|exact (alloc_deref _ _ Ea)].
  unfold get, accessor__get, Value__get, driver_get. simpl _driver. simpl identifier_data.
  fold a. unfold w1 at 1. simpl stored. rewrite table_get_set_same. rewrite Ea. reflexivity.
Qed.

Lemma set_raw_then_get_attr_witness :
  exists w1 x w2 v,
    Group_set_raw (with_objects scenario_world
                     (fst (alloc listed_mapping (objects scenario_world))))
      scenario_group [KInt 7] (snd (alloc listed_mapping (objects scenario_world)))
    = (w1, Ok tt)
    /\ Group_get_attr (objects w1) scenario_group (KInt 7) = (objects w1, Ok (AValue x))
    /\ identifier_data x = get_child global_address "7"
    /\ get w1 (AValue x) = (w2, Ok v)
    /\ deref (objects w2) v = Some listed_mapping.
Proof.
  exact (@set_raw_then_get_attr
           (with_objects scenario_world (fst (alloc listed_mapping (objects scenario_world))))
           scenario_group (KInt 7) (snd (alloc listed_mapping (objects scenario_world)))
           listed_mapping _ eq_refl eq_refl eq_refl).
Defined.

(** [Group.clear_raw] with one path item, followed by a read through
    [Group.get_attr] for the same item, when the item resolves to a
    [Value]: whatever was stored for the item, the read gives the [Value]'s
    default, the object the [Group]'s defaults bind to the item or [None]
    for an item that is not registered. *)
Theorem clear_raw_then_get_attr (w : world) (self : Group) (item : key)
    (kvs : list (key * pyval)) :
  dict_of (objects w) (_defaults self) = Some kvs ->
  match dict_get kvs (KStr (str item)) with
  | Some d => isinstance_dict (objects w) d = false
  | None => force_registration self = false
  end ->
  let w1 := Group_clear_raw w self [item] in
  exists x,
    Group_get_attr (objects w1) self item = (objects w1, Ok (AValue x))
    /\ get w1 (AValue x)
       = (w1, Ok (match dict_get kvs (KStr (str item)) with
                  | Some d => d
                  | None => PNone
                  end)).
Proof.
  intros Hk Hv w1.
  eexists. split; [exact (@get_attr_Value (objects w1) self item kvs Hk Hv)|].
  unfold get, accessor__get, Value__get, driver_get. simpl _driver. simpl identifier_data.
  unfold w1, Group_clear_raw, driver_clear. simpl stored. simpl fold_left.
  rewrite table_get_remove_same. reflexivity.
Qed.

Lemma clear_raw_then_get_attr_witness :
  exists x,
    Group_get_attr (objects (Group_clear_raw scenario_stored_world scenario_group
                               [KStr "threshold"]))
      scenario_group (KStr "threshold")
    = (objects scenario_stored_world, Ok (AValue x))
    /\ get (Group_clear_raw scenario_stored_world scenario_group [KStr "threshold"]) (AValue x)
       = (Group_clear_raw scenario_stored_world scenario_group [KStr "threshold"],
          Ok (PInt 5)).
Proof.
  exact (@clear_raw_then_get_attr scenario_stored_world scenario_group (KStr "threshold")
           _ eq_refl eq_refl).
Defined.

(** * One lock per address *)

Lemma table_get_Some_In (V : Type) (t : list (slot * V)) k v :
  table_get t k = Some v -> exists k0, In (k0, v) t /\ slot_eqb k0 k = true.
Proof.
  induction t as [|[k0 v0] t IH]; simpl; [discriminate|].
  destruct (slot_eqb k0 k) eqn:E.
  - intros [= ->]. exists k0. auto.
  - intros H. destruct (IH H) as (k1 & Hin & Hk). exists k1. auto.
Qed.

(** What one call of [Value.get_lock] does. *)
Lemma get_lock_spec (w : world) (x : Value) :
  locks_exist w ->
  let w1 := fst (get_lock w x) in
  let l := snd (get_lock w x) in
  table_get (_lock_cache w1) (slot_of (_config x) (identifier_data x)) = Some l
  /\ (forall k, k <> (slot_of (_config x) (identifier_data x)) ->
                table_get (_lock_cache w1) k = table_get (_lock_cache w) k)
  /\ match table_get (_lock_cache w) (slot_of (_config x) (identifier_data x)) with
     | Some l0 => l = l0
     | None => l = List.length (locks w)
     end
  /\ locks_exist w1
  /\ (l < List.length (locks w1))%nat
  /\ (forall l0, locked w1 l0 = locked w l0)
  /\ stored w1 = stored w /\ set_calls w1 = set_calls w /\ objects w1 = objects w.
Proof.
  intros He. unfold get_lock. cbv zeta.
  assert (Hn : forall k k', slot_eqb k k' = false -> k <> k').
  { intros k k' E ->. rewrite slot_eqb_refl in E. discriminate. }
  assert (Hlk : forall l0, nth l0 (locks w ++ [false]) false = nth l0 (locks w) false).
  { intros l0. apply nth_snoc_false. }
  destruct (table_get (_lock_cache w) (slot_of (_config x) (identifier_data x))) as [l|] eqn:Ec; simpl.
  - split; [exact Ec|]. split; [reflexivity|]. split; [reflexivity|].
    split; [|split; [|split; [exact Hlk|auto]]].
    + intros k l0 Hk. simpl in Hk. specialize (He _ _ Hk). simpl. rewrite length_app. simpl. lia.
    + specialize (He _ _ Ec). rewrite length_app. simpl. lia.
  - split; [apply table_get_set_same|].
    split; [intros k Hk; apply table_get_set_other; intros E; apply Hk; now symmetry|].
    split; [reflexivity|].
    split; [|split; [rewrite length_app; simpl; lia|split; [exact Hlk|auto]]].
    intros k l0. simpl.
    destruct (slot_eqb (slot_of (_config x) (identifier_data x)) k) eqn:E.
    + apply slot_eqb_eq in E. subst k. rewrite table_get_set_same. intros [= <-].
      rewrite length_app. simpl. lia.
    + rewrite table_get_set_other by exact (Hn _ _ E). intros Hk. specialize (He _ _ Hk).
      rewrite length_app. simpl. lia.
Qed.

Lemma get_lock_distinct (w : world) (x : Value) :
  locks_exist w -> locks_distinct w -> locks_distinct (fst (get_lock w x)).
Proof.
  intros He Hd. unfold get_lock. cbv zeta.
  assert (Hn : forall k k', slot_eqb k k' = false -> k <> k').
  { intros k k' E ->. rewrite slot_eqb_refl in E. discriminate. }
  destruct (table_get (_lock_cache w) (slot_of (_config x) (identifier_data x))) as [l|] eqn:Ec; simpl;
    [exact Hd|].
  intros k k' l0. simpl.
  destruct (slot_eqb (slot_of (_config x) (identifier_data x)) k) eqn:E;
    destruct (slot_eqb (slot_of (_config x) (identifier_data x)) k') eqn:E'.
  - apply slot_eqb_eq in E, E'. congruence.
  - apply slot_eqb_eq in E. subst k.
    rewrite table_get_set_same, table_get_set_other by exact (Hn _ _ E').
    intros [= <-] Hk'. specialize (He _ _ Hk'). lia.
  - apply slot_eqb_eq in E'. subst k'.
    rewrite table_get_set_same, table_get_set_other by exact (Hn _ _ E).
    intros Hk [= <-]. specialize (He _ _ Hk). lia.
  - rewrite !table_get_set_other by (apply Hn; assumption). apply Hd.
Qed.

(** [Value.get_lock], called for one accessor and then for another with the
    first lock still referenced: the two calls give one lock exactly when
    the accessors belong to one [Config] and their addresses have the same
    five fields, owner name, instance id, category, primary keys and nested
    path. The calls keep the cache in order (every cached lock exists and is
    cached under one address only), lock and unlock nothing, and do not
    touch the driver. *)
Theorem get_lock_one_lock_per_address (w : world) (a b : Value) :
  locks_exist w -> locks_distinct w ->
  let w1 := fst (get_lock w a) in
  let la := snd (get_lock w a) in
  let w2 := fst (get_lock w1 b) in
  let lb := snd (get_lock w1 b) in
  (la = lb <->
   _config a = _config b
   /\ cog_name (identifier_data a) = cog_name (identifier_data b)
   /\ uuid (identifier_data a) = uuid (identifier_data b)
   /\ category (identifier_data a) = category (identifier_data b)
   /\ primary_key (identifier_data a) = primary_key (identifier_data b)
   /\ identifiers (identifier_data a) = identifiers (identifier_data b))
  /\ locks_exist w2
  /\ locks_distinct w2
  /\ (forall l, locked w2 l = locked w l)
  /\ stored w2 = stored w
  /\ set_calls w2 = set_calls w.
Proof.
  intros He Hd w1 la w2 lb.
  destruct (get_lock_spec a He) as (Ha & Hoa & _ & He1 & _ & Hl1 & Hs1 & Hc1 & _).
  fold w1 la in Ha, Hoa, He1, Hl1, Hs1, Hc1.
  pose proof (get_lock_distinct a He Hd) as Hd1. fold w1 in Hd1.
  destruct (get_lock_spec b He1) as (Hb & Hob & Hsame & He2 & _ & Hl2 & Hs2 & Hc2 & _).
  fold w2 lb in Hb, Hob, Hsame, He2, Hl2, Hs2, Hc2.
  pose proof (get_lock_distinct b He1 Hd1) as Hd2. fold w2 in Hd2.
  assert (Hslot : slot_of (_config a) (identifier_data a)
                  = slot_of (_config b) (identifier_data b)
                  <-> _config a = _config b
                      /\ cog_name (identifier_data a) = cog_name (identifier_data b)
                      /\ uuid (identifier_data a) = uuid (identifier_data b)
                      /\ category (identifier_data a) = category (identifier_data b)
                      /\ primary_key (identifier_data a) = primary_key (identifier_data b)
                      /\ identifiers (identifier_data a) = identifiers (identifier_data b)).
  { unfold slot_of, address_of. split.
    - intros [= -> -> -> -> -> ->]. repeat split.
    - intros (-> & -> & -> & -> & -> & ->). reflexivity. }
  split; [|split; [exact He2|split; [exact Hd2|split; [|split; congruence]]]].
  - rewrite <- Hslot. split.
    + intros E. rewrite <- E in Hb.
      destruct (slot_eqb (slot_of (_config b) (identifier_data b)) (slot_of (_config a) (identifier_data a))) eqn:Eab.
      * apply slot_eqb_eq in Eab. now symmetry.
      * assert (Hne : (slot_of (_config a) (identifier_data a)) <> (slot_of (_config b) (identifier_data b))).
        { intros E'. rewrite E', slot_eqb_refl in Eab. discriminate. }
        rewrite <- (Hob _ Hne) in Ha. exact (Hd2 _ _ _ Ha Hb).
    + intros E. rewrite <- E in Hsame. rewrite Ha in Hsame. now symmetry.
  - intros l. now rewrite Hl2, Hl1.
Qed.

Lemma get_lock_one_lock_per_address_witness :
  identifier_data plain_value <> identifier_data flagged_value
  /\ snd (get_lock empty_world plain_value)
     = snd (get_lock (fst (get_lock empty_world plain_value)) flagged_value).
Proof.
  split; [discriminate|].
  refine (proj2 (proj1 (@get_lock_one_lock_per_address empty_world plain_value
                          flagged_value _ _)) _).
  - intros k l H. discriminate H.
  - intros k k' l H. discriminate H.
  - repeat split.
Defined.

(** * Sections that do not take the lock *)

Lemma get_lock_locked (w : world) (x : Value) (l : lock_ref) :
  locked (fst (get_lock w x)) l = locked w l.
Proof.
  unfold get_lock. cbv zeta.
  destruct (table_get (_lock_cache w) (slot_of (_config x) (identifier_data x))); simpl;
    apply nth_snoc_false.
Qed.

(** [async with x(default, acquire_lock=False) as v: body(v)] never waits,
    whoever holds the lock of the address, and leaves every lock as it
    found it. *)
Theorem section_without_lock (w : world) (x : accessor) (default_arg : option pyval)
    (body : section_body) :
  snd (section w x default_arg false body) <> Blocked
  /\ forall l, locked (fst (section w x default_arg false body)) l = locked w l.
Proof.
  unfold section, Value___call__.
  pose proof (get_lock_locked w (accessor_Value x)) as Hg.
  destruct (get_lock w (accessor_Value x)) as [w1 lk]. simpl in Hg.
  set (mgr := {| value_obj := x; coro := default_arg; raw_value := PNone;
                 __original_value := PNone; __acquire_lock := false; __lock := lk |}).
  unfold async_with, __aenter__, aenter_acquire. simpl __acquire_lock.
  pose proof (aenter_read_only_objects w1 mgr) as (_ & _ & Hl & _).
  pose proof (@aenter_read_not_blocked w1 mgr) as Hnb.
  destruct (aenter_read w1 mgr) as [w2 [mgr1| e |]] eqn:Er.
  - destruct (aenter_read_manager _ _ Er) as (_ & Ha & _ & _). simpl in Ha, Hl.
    destruct (body (raw_value mgr1) (objects w2)) as [h2 r].
    unfold __aexit__.
    pose proof (aexit_try_locks (with_objects w2 h2) mgr1) as [Ht _].
    destruct (aexit_try (with_objects w2 h2) mgr1) as [w3 r3]. simpl in Ht.
    unfold aexit_finally. rewrite Ha.
    assert (Hall : forall l, locked w3 l = locked w l).
    { intros l. rewrite <- Hg. unfold locked. now rewrite Ht, Hl. }
    destruct r3 as [[]|e3]; simpl; (split; [destruct r; discriminate || discriminate|exact Hall]).
  - simpl in *. split; [discriminate|]. intros l. rewrite <- Hg. unfold locked. now rewrite Hl.
  - exfalso. exact (Hnb w2 eq_refl).
Qed.

(** * Sections on a stored list *)

Lemma py_eq_JList_length (a b : list json) :
  py_eq (JList a) (JList b) = true -> List.length a = List.length b.
Proof.
  revert b. induction a as [|x t IH]; intros [|y u]; simpl; try discriminate; auto.
  intros H. apply andb_true_iff in H. destruct H as [_ H]. f_equal. apply IH. exact H.
Qed.

Lemma alloc_list_spec (xs : list json) : forall h h1 vs,
  alloc_list xs h = (h1, vs) ->
  (exists ext, h1 = h ++ ext) /\ Forall2 (fun v x => deref h1 v = Some x) vs xs.
Proof.
  induction xs as [|x t IH]; intros h h1 vs H; simpl in H.
  - injection H as <- <-. split; [exists []; now rewrite app_nil_r|constructor].
  - destruct (alloc x h) as [h0 v0] eqn:Ex.
    destruct (alloc_list t h0) as [h2 vs2] eqn:Et.
    injection H as <- <-.
    destruct (alloc_extends _ _ Ex) as [e1 ->].
    destruct (IH _ _ _ Et) as ([e2 ->] & HF).
    split; [exists (e1 ++ e2); now rewrite app_assoc|].
    constructor; [|exact HF].
    apply deref_app. exact (alloc_deref _ _ Ex).
Qed.

(** A list cell reads as the list of what its items read as, when the items
    read in a part of the heap that lies before the cell. *)
Lemma deref_list_cell (h0 h : heap) (l : nat) (vs : list pyval) (xs : list json) :
  (List.length h0 <= l)%nat ->
  nth_error h l = Some (OList vs) ->
  same_below (List.length h0) h0 h ->
  Forall2 (fun v x => deref h0 v = Some x) vs xs ->
  deref h (PRef l) = Some (JList xs).
Proof.
  intros Hle Hn Hs HF.
  assert (Hl : (l < List.length h)%nat) by (apply nth_error_Some; congruence).
  assert (E : firstn (List.length h0) h = h0).
  { apply nth_error_ext. intros n. rewrite nth_error_firstn.
    destruct (Nat.ltb_spec n (List.length h0)) as [Hlt|Hge].
    - now apply Hs.
    - symmetry. now apply nth_error_None. }
  unfold deref. destruct (List.length h) as [|m] eqn:Em; [lia|].
  simpl. rewrite Hn.
  assert (Ht : traverse (deref_fuel m h) vs = Some xs).
  { clear Hn. induction HF as [|v x vs' xs' Hv _ IH]; simpl; [reflexivity|].
    rewrite IH.
    assert (Hd : deref_fuel m h v = Some x).
    { rewrite <- (firstn_skipn (List.length h0) h), E.
      apply deref_fuel_app. apply deref_fuel_mono with (n := List.length h0); [lia|exact Hv]. }
    now rewrite Hd. }
  now rewrite Ht.
Qed.

(** Entering a section that takes the lock, on a [Value] for which the
    driver holds a list and whose lock is free: the working copy and the
    snapshot are two new list cells with the same items. *)
Lemma enter_on_list (w : world) (x : Value) (default_arg : option pyval) (xs : list json) :
  locks_exist w -> lock_free w x ->
  driver_get w (_driver x) (identifier_data x) = Ok (JList xs) ->
  exists w2 mgr1 h1 vs,
    __aenter__ (fst (Value___call__ w (AValue x) default_arg true))
      (snd (Value___call__ w (AValue x) default_arg true)) = (w2, Returned mgr1)
    /\ value_obj mgr1 = AValue x
    /\ __acquire_lock mgr1 = true
    /\ raw_value mgr1 = PRef (List.length h1)
    /\ __original_value mgr1 = PRef (S (List.length h1))
    /\ objects w2 = h1 ++ [OList vs; OList vs]
    /\ Forall2 (fun v j => deref h1 v = Some j) vs xs
    /\ stored w2 = stored w
    /\ set_calls w2 = set_calls w
    /\ table_get (_lock_cache w2) (slot_of (_config x) (identifier_data x)) = Some (__lock mgr1)
    /\ locked w2 (__lock mgr1) = true.
Proof.
  intros He Hf Hs. unfold Value___call__. simpl accessor_Value.
  destruct (get_lock_spec x He) as (Hc & _ & Hl & He1 & Hlt & Hlk & Hs1 & Hc1 & Ho1).
  destruct (get_lock w x) as [w1 lk] eqn:Eg. simpl in *.
  assert (Hfree : locked w1 lk = false).
  { rewrite Hlk. destruct (table_get (_lock_cache w) (slot_of (_config x) (identifier_data x))) as [l0|] eqn:E.
    - subst lk. exact (Hf _ E).
    - subst lk. unfold locked. apply nth_overflow. lia. }
  unfold __aenter__, aenter_acquire, lock_acquire. simpl __acquire_lock. simpl __lock.
  rewrite Hfree.
  set (w1' := with_locks w1 (list_set (locks w1) lk true)).
  unfold aenter_read. simpl value_obj. simpl coro. unfold accessor__get, Value__get.
  assert (Hg : driver_get w1' (_driver x) (identifier_data x) = Ok (JList xs)).
  { unfold driver_get in *. simpl. rewrite Hs1. exact Hs. }
  rewrite Hg. rewrite alloc_JList.
  destruct (alloc_list xs (objects w1')) as [h1 vs] eqn:Ea.
  destruct (alloc_list_spec _ _ Ea) as (_ & HF).
  cbv iota beta. simpl objects.
  assert (Hn : nth_error (h1 ++ [OList vs]) (List.length h1) = Some (OList vs)).
  { rewrite nth_error_app2, Nat.sub_diag by lia. reflexivity. }
  unfold isinstance_list_or_dict, shallow_copy. rewrite Hn. cbv iota beta. simpl negb.
  cbv iota.
  eexists _, _, h1, vs. split; [reflexivity|]. simpl.
  split; [reflexivity|]. split; [reflexivity|]. split; [reflexivity|].
  split; [rewrite length_app, Nat.add_comm; reflexivity|].
  split; [now rewrite <- app_assoc|]. split; [exact HF|].
  split; [exact Hs1|]. split; [exact Hc1|]. split; [exact Hc|].
  unfold locked. simpl. now apply nth_list_set_same.
Qed.

(** Leaving a section that has taken the lock, on a [Value], when the
    working copy and the snapshot are list cells: the lock is released, and
    a [set] call is made, with the working copy, exactly when the two
    differ. *)
Lemma exit_on_list (w : world) (mgr : _ValueCtxManager) (x : Value) (h1 : heap)
    (vs vs' : list pyval) (xs xs' : list json) :
  value_obj mgr = AValue x ->
  __acquire_lock mgr = true ->
  raw_value mgr = PRef (List.length h1) ->
  __original_value mgr = PRef (S (List.length h1)) ->
  objects w = h1 ++ [OList vs'; OList vs] ->
  Forall2 (fun v j => deref h1 v = Some j) vs xs ->
  Forall2 (fun v j => deref h1 v = Some j) vs' xs' ->
  locked w (__lock mgr) = true ->
  let w1 := if py_ne (JList xs') (JList xs)
            then driver_set w (_driver x) (identifier_data x) (JList xs') else w in
  __aexit__ w mgr = (with_locks w1 (list_set (locks w) (__lock mgr) false), Ok tt).
Proof.
  intros Hx Ha Hr Ho Hobj HF HF' Hl w1.
  assert (Hsb : same_below (List.length h1) h1 (objects w)).
  { rewrite Hobj. apply same_below_app. }
  assert (Dr : deref (objects w) (raw_value mgr) = Some (JList xs')).
  { rewrite Hr. apply (@deref_list_cell h1 (objects w) (List.length h1) vs' xs');
      [lia| |exact Hsb|exact HF'].
    rewrite Hobj, nth_error_app2, Nat.sub_diag by lia. reflexivity. }
  assert (Do : deref (objects w) (__original_value mgr) = Some (JList xs)).
  { rewrite Ho. apply (@deref_list_cell h1 (objects w) (S (List.length h1)) vs xs);
      [lia| |exact Hsb|exact HF].
    rewrite Hobj, nth_error_app2 by lia.
    replace (S (List.length h1) - List.length h1)%nat with 1%nat by lia. reflexivity. }
  unfold __aexit__. rewrite (@aexit_try_writes_iff_differs w mgr x _ _ Hx Dr Do).
  simpl str_key_value. subst w1.
  destruct (py_ne (JList xs') (JList xs)); unfold aexit_finally; rewrite Ha;
    unfold lock_release, locked in *; simpl locks; rewrite Hl; reflexivity.
Qed.

Lemma heap_update_middle (h1 t : heap) (o o' : pyobj) :
  heap_update (h1 ++ o :: t) (List.length h1) o' = h1 ++ o' :: t.
Proof. induction h1 as [|y r IH]; simpl; [reflexivity|]. now rewrite IH. Qed.

Lemma list_remove_length (A : Type) (same : A -> bool) (xs ys : list A) :
  list_remove same xs = Some ys -> List.length xs = S (List.length ys).
Proof.
  revert ys. induction xs as [|y t IH]; intros ys; simpl; [discriminate|].
  destruct (same y); [now intros [= <-]|].
  destruct (list_remove same t) as [t'|]; [|discriminate].
  intros [= <-]. simpl. f_equal. now apply IH.
Qed.

Lemma list_remove_Forall2 (A B : Type) (R : A -> B -> Prop) (f : A -> bool) (g : B -> bool)
    (vs : list A) (xs : list B) :
  (forall v x, R v x -> f v = g x) ->
  Forall2 R vs xs ->
  match list_remove f vs, list_remove g xs with
  | Some vs', Some xs' => Forall2 R vs' xs'
  | None, None => True
  | _, _ => False
  end.
Proof.
  intros Hfg HF. induction HF as [|v x vs xs Hvx HF IH]; simpl; [exact I|].
  rewrite (Hfg _ _ Hvx). destruct (g x); [exact HF|].
  destruct (list_remove f vs) as [vs'|], (list_remove g xs) as [xs'|]; simpl;
    try contradiction; [now constructor|exact I].
Qed.

Lemma eq_int_deref (h : heap) (v : pyval) (j : json) (z : Z) :
  deref h v = Some j -> eq_int z v = py_eq j (JInt z).
Proof.
  unfold deref. destruct v as [| b | y | s | l]; simpl.
  - destruct (List.length h); simpl; intros [= <-]; reflexivity.
  - destruct (List.length h); simpl; intros [= <-]; reflexivity.
  - destruct (List.length h); simpl; intros [= <-]; reflexivity.
  - destruct (List.length h); simpl; intros [= <-]; reflexivity.
  - destruct (List.length h) as [|n]; simpl; [discriminate|].
    destruct (nth_error h l) as [[xs|kvs]|]; [| |discriminate].
    + destruct (traverse (deref_fuel n h) xs); simpl; [|discriminate].
      intros [= <-]. reflexivity.
    + destruct (traverse _ kvs); simpl; [|discriminate]. intros [= <-]. reflexivity.
Qed.

(** The section of [KickBanMixin.tempban],
    [async with ...current_tempbans() as current_tempbans:
    current_tempbans.append(member.id)], when the driver holds a list for
    the address and the lock of the address is free: the section runs to its
    end, makes one [set] call, after which the driver holds the old list
    with the member's id at its end, and leaves the lock free. *)
Theorem tempban_section_appends (w : world) (x : Value) (member_id : Z) (xs : list json) :
  locks_exist w -> lock_free w x ->
  driver_get w (_driver x) (identifier_data x) = Ok (JList xs) ->
  exists w',
    section w (AValue x) None true (append_body member_id) = (w', Returned tt)
    /\ driver_get w' (_driver x) (identifier_data x) = Ok (JList (xs ++ [JInt member_id]))
    /\ new_calls w w' = [(slot_of (_driver x) (identifier_data x), JList (xs ++ [JInt member_id]))]
    /\ lock_free w' x.
Proof.
  intros He Hf Hs.
  destruct (enter_on_list None He Hf Hs)
    as (w2 & mgr1 & h1 & vs & Hen & Hx & Ha & Hr & Ho & Hobj & HF & Hst & Hca & Hc & Hl).
  unfold section. destruct (Value___call__ w (AValue x) None true) as [w1 mgr].
  simpl in Hen. unfold async_with. rewrite Hen.
  assert (Hb : append_body member_id (raw_value mgr1) (objects w2)
               = (h1 ++ [OList (vs ++ [PInt member_id]); OList vs], Ok tt)).
  { unfold append_body. rewrite Hr, Hobj, nth_error_app2, Nat.sub_diag by lia. simpl.
    now rewrite heap_update_middle. }
  rewrite Hb.
  assert (HF' : Forall2 (fun v j => deref h1 v = Some j) (vs ++ [PInt member_id])
                  (xs ++ [JInt member_id])).
  { apply Forall2_app; [exact HF|]. constructor; [|constructor].
    unfold deref. destruct (List.length h1); reflexivity. }
  pose proof (@exit_on_list (with_objects w2 (h1 ++ [OList (vs ++ [PInt member_id]); OList vs]))
                mgr1 x h1 vs (vs ++ [PInt member_id]) xs (xs ++ [JInt member_id])
                Hx Ha Hr Ho eq_refl HF HF' Hl) as Hex.
  assert (Hne : py_ne (JList (xs ++ [JInt member_id])) (JList xs) = true).
  { unfold py_ne. destruct (py_eq (JList (xs ++ [JInt member_id])) (JList xs)) eqn:E;
      [|reflexivity].
    apply py_eq_JList_length in E. rewrite length_app in E. simpl in E. lia. }
  rewrite Hne in Hex. cbv zeta in Hex. rewrite Hex.
  eexists. split; [reflexivity|].
  split; [unfold driver_get; simpl; now rewrite table_get_set_same|].
  split.
  - unfold new_calls. simpl. rewrite Hca, skipn_app, skipn_all, Nat.sub_diag. reflexivity.
  - intros l. simpl. rewrite Hc. intros [= <-]. unfold locked. simpl.
    apply nth_list_set_same. now apply locked_lt.
Qed.

Lemma tempban_section_appends_witness :
  exists w',
    section (driver_set empty_world 0%nat global_address (JList [JInt 7])) (AValue plain_value)
      None true (append_body 9) = (w', Returned tt)
    /\ driver_get w' 0%nat global_address = Ok (JList [JInt 7; JInt 9]).
Proof.
  destruct (@tempban_section_appends
              (driver_set empty_world 0%nat global_address (JList [JInt 7]))
              plain_value 9 [JInt 7]) as (w' & H1 & H2 & _).
  - intros k l H. discriminate H.
  - intros l H. discriminate H.
  - reflexivity.
  - exists w'. split; [exact H1|exact H2].
Defined.

(** The section of [Mod.red_delete_data_for_user],
    [async with ...current_tempbans() as tbs: tbs.remove(user_id)] with the
    [ValueError] of [remove] passed over, when the driver holds a list for
    the address and the lock of the address is free: the section runs to its
    end and leaves the lock free; when an item of the list equals the id, it
    makes one [set] call, after which the driver holds the list without the
    first such item; when none does, it makes no [set] call and the driver
    holds what it held. *)
Theorem delete_data_section_removes (w : world) (x : Value) (user_id : Z) (xs : list json) :
  locks_exist w -> lock_free w x ->
  driver_get w (_driver x) (identifier_data x) = Ok (JList xs) ->
  wf_json (JList xs) ->
  exists w',
    section w (AValue x) None true (remove_body user_id) = (w', Returned tt)
    /\ lock_free w' x
    /\ match list_remove (fun j => py_eq j (JInt user_id)) xs with
       | Some ys =>
           driver_get w' (_driver x) (identifier_data x) = Ok (JList ys)
           /\ new_calls w w' = [(slot_of (_driver x) (identifier_data x), JList ys)]
       | None => stored w' = stored w /\ new_calls w w' = []
       end.
Proof.
  intros He Hf Hs Hwf.
  destruct (enter_on_list None He Hf Hs)
    as (w2 & mgr1 & h1 & vs & Hen & Hx & Ha & Hr & Ho & Hobj & HF & Hst & Hca & Hc & Hl).
  unfold section. destruct (Value___call__ w (AValue x) None true) as [w1 mgr].
  simpl in Hen. unfold async_with. rewrite Hen.
  pose proof (@list_remove_Forall2 _ _ (fun v j => deref h1 v = Some j)
                (eq_int user_id) (fun j => py_eq j (JInt user_id)) vs xs
                (fun v j H => eq_int_deref _ _ user_id H) HF) as Hrm.
  assert (Hfree : forall w3 : world,
             _lock_cache w3 = _lock_cache w2 ->
             lock_free (with_locks w3 (list_set (locks w2) (__lock mgr1) false)) x).
  { intros w3 E l. simpl. rewrite E, Hc. intros [= <-]. unfold locked. simpl.
    apply nth_list_set_same. now apply locked_lt. }
  unfold remove_body. rewrite Hr, Hobj, nth_error_app2, Nat.sub_diag by lia.
  simpl nth_error. cbv iota.
  destruct (list_remove (eq_int user_id) vs) as [vs'|] eqn:Ev;
    destruct (list_remove (fun j => py_eq j (JInt user_id)) xs) as [ys|] eqn:Ex;
    try contradiction.
  - rewrite heap_update_middle.
    pose proof (@exit_on_list (with_objects w2 (h1 ++ [OList vs'; OList vs]))
                  mgr1 x h1 vs vs' xs ys Hx Ha Hr Ho eq_refl HF Hrm Hl) as Hex.
    assert (Hne : py_ne (JList ys) (JList xs) = true).
    { unfold py_ne. destruct (py_eq (JList ys) (JList xs)) eqn:E; [|reflexivity].
      apply py_eq_JList_length in E. apply list_remove_length in Ex. lia. }
    rewrite Hne in Hex. cbv zeta in Hex. rewrite Hex.
    eexists. split; [reflexivity|]. split; [now apply Hfree|].
    split; [unfold driver_get; simpl; now rewrite table_get_set_same|].
    unfold new_calls. simpl. rewrite Hca, skipn_app, skipn_all, Nat.sub_diag. reflexivity.
  - rewrite <- Hobj, with_objects_same.
    pose proof (@exit_on_list w2 mgr1 x h1 vs vs xs xs Hx Ha Hr Ho Hobj HF HF Hl) as Hex.
    assert (Heq : py_ne (JList xs) (JList xs) = false).
    { unfold py_ne. now rewrite (@py_eq_refl (JList xs) Hwf). }
    rewrite Heq in Hex. cbv zeta in Hex. rewrite Hex.
    eexists. split; [reflexivity|]. split; [now apply Hfree|].
    simpl. split; [exact Hst|]. now apply new_calls_same.
Qed.

Lemma delete_data_section_removes_witness :
  exists w',
    section (driver_set empty_world 0%nat global_address (JList [JInt 7; JInt 9; JInt 7]))
      (AValue plain_value) None true (remove_body 7) = (w', Returned tt)
    /\ driver_get w' 0%nat global_address = Ok (JList [JInt 9; JInt 7]).
Proof.
  destruct (@delete_data_section_removes
              (driver_set empty_world 0%nat global_address (JList [JInt 7; JInt 9; JInt 7]))
              plain_value 7 [JInt 7; JInt 9; JInt 7]) as (w' & H1 & _ & H2 & _).
  - intros k l H. discriminate H.
  - intros l H. discriminate H.
  - reflexivity.
  - simpl. tauto.
  - exists w'. split; [exact H1|exact H2].
Defined.

(** * The keys [_str_key_dict] makes *)

Lemma str_key_fold_get (value : items) : forall (acc : items) (s : string),
  dict_get
    (fold_left (fun acc kv => dict_set acc (KStr (str (fst kv))) (str_key_value (snd kv)))
       value acc) (KStr s)
  = match last_with_str value s with
    | Some v => Some (str_key_value v)
    | None => dict_get acc (KStr s)
    end.
Proof.
  induction value as [|[k v] t IH]; intros acc s; simpl; [reflexivity|].
  rewrite IH. destruct (last_with_str t s) as [v'|]; [reflexivity|].
  destruct (String.eqb (str k) s) eqn:E.
  - apply String.eqb_eq in E. subst s. apply dict_get_set_same.
  - apply dict_get_set_other. intros [= H]. rewrite H, String.eqb_refl in E. discriminate.
Qed.

Lemma str_key_fold_keys (value : items) : forall (acc : items),
  NoDup (dict_keys acc) ->
  (forall k, In k (dict_keys acc) -> exists s, k = KStr s) ->
  let r := fold_left
             (fun acc kv => dict_set acc (KStr (str (fst kv))) (str_key_value (snd kv)))
             value acc in
  NoDup (dict_keys r) /\ (forall k, In k (dict_keys r) -> exists s, k = KStr s).
Proof.
  induction value as [|[k v] t IH]; intros acc Hnd Hk; simpl; [auto|].
  apply IH; [now apply dict_set_NoDup|].
  intros k' Hin. apply dict_keys_set in Hin. destruct Hin as [->|Hin]; eauto.
Qed.

(** What [_str_key_dict] binds: a [str] key [s] to the value of the last
    item whose key has the [str] form [s], with [_str_key_dict] applied to it
    when it is a dict; nothing to a key that is not a [str]; and no key
    twice. Of two items whose keys collide, [1] and ["1"] say, the earlier
    is lost. *)
Theorem str_key_dict_lookup (value : items) (k : key) :
  dict_get (_str_key_dict value) k
  = match k with
    | KStr s => option_map str_key_value (last_with_str value s)
    | KInt _ => None
    end
  /\ NoDup (dict_keys (_str_key_dict value)).
Proof.
  destruct (@str_key_fold_keys value [] (NoDup_nil _) (fun k (H : In k []) => match H with end))
    as [Hnd Hks].
  split; [|exact Hnd].
  destruct k as [s|z].
  - unfold _str_key_dict. rewrite str_key_fold_get. simpl.
    destruct (last_with_str value s); reflexivity.
  - apply dict_get_None. intros Hin. destruct (Hks _ Hin) as [s Hs]. discriminate Hs.
Qed.

Lemma str_key_value_wf (j : json) : wf_json j -> wf_json (str_key_value j).
Proof.
  induction j as [| b | z | s | xs IH | kvs IH] using json_nested_ind; intros Hwf;
    try exact Hwf.
  apply wf_json_dict in Hwf. destruct Hwf as [_ Hall].
  change (wf_json (JDict (_str_key_dict kvs))). apply wf_json_dict.
  split; [exact (proj1 (@str_key_fold_keys kvs [] (NoDup_nil _)
                         (fun k (H : In k []) => match H with end)))|].
  unfold _str_key_dict.
  assert (H : forall acc, Forall (fun kv => wf_json (snd kv)) acc ->
                Forall (fun kv => wf_json (snd kv))
                  (fold_left
                     (fun acc kv => dict_set acc (KStr (str (fst kv))) (str_key_value (snd kv)))
                     kvs acc)).
  { induction kvs as [|[k v] t IHt]; intros acc Hacc; simpl; [exact Hacc|].
    inversion IH as [|? ? Hv IHv]; subst. inversion Hall as [|? ? Hwv Hallt]; subst.
    apply (IHt IHv Hallt). apply Forall_dict_set; [exact Hacc|].
    intros k' _. simpl. exact (Hv Hwv). }
  apply H. constructor.
Qed.

(** [_str_key_dict] is idempotent on the values Python has (no dict binds a
    key twice): applied to its own result it changes nothing, and its result
    is again such a value. *)
Theorem str_key_value_idempotent (j : json) :
  wf_json j ->
  wf_json (str_key_value j)
  /\ str_key_value (str_key_value j) = str_key_value j.
Proof.
  intros Hwf. pose proof (str_key_value_wf j Hwf) as Hw. split; [exact Hw|].
  apply str_key_value_id; [exact Hw|apply str_key_value_str_keyed].
Qed.

Lemma str_key_value_idempotent_witness :
  str_key_value (str_key_value (JDict [(KInt 1, JInt 2); (KStr "1", JInt 3)]))
  = str_key_value (JDict [(KInt 1, JInt 2); (KStr "1", JInt 3)]).
Proof.
  refine (proj2 (@str_key_value_idempotent (JDict [(KInt 1, JInt 2); (KStr "1", JInt 3)]) _)).
  simpl. split; [|tauto].
  constructor; [|constructor; [intros []|constructor]].
  intros [H|[]]. discriminate H.
Defined.

Lemma str_int_inj (a b : Z) : str (KInt a) = str (KInt b) -> a = b.
Proof.
  simpl. intros H.
  assert (Hn : forall z, Z.to_int z <> Decimal.Pos Decimal.Nil
                         /\ Z.to_int z <> Decimal.Neg Decimal.Nil).
  { intros [|p|p]; simpl; split; try discriminate; intros [= E];
      exact (Unsigned.to_uint_nonnil p E). }
  apply to_int_inj.
  assert (E : Some (Z.to_int a) = Some (Z.to_int b)).
  { rewrite <- (NilZero.isi (Z.to_int a)) by apply Hn.
    rewrite <- (NilZero.isi (Z.to_int b)) by apply Hn. now rewrite H. }
  now injection E.
Qed.

(** When the keys of a dict have pairwise different [str] forms,
    [_str_key_dict] loses no item: it gives the items in their order, each
    key cast and [_str_key_dict] applied to each value that is a dict. That
    is so for a dict whose keys are all [int]s, [str] being one-to-one on
    them. *)
Theorem str_key_dict_keeps_distinct :
  (forall value : items,
      NoDup (map str (dict_keys value)) ->
      _str_key_dict value
      = map (fun kv => (KStr (str (fst kv)), str_key_value (snd kv))) value)
  /\ (forall value : items,
        NoDup (dict_keys value) ->
        Forall (fun k => exists z, k = KInt z) (dict_keys value) ->
        NoDup (map str (dict_keys value))).
Proof.
  split.
  - intros value Hnd. unfold _str_key_dict.
    assert (H : forall acc : items,
               NoDup (map str (dict_keys acc) ++ map str (dict_keys value)) ->
               (forall k, In k (dict_keys acc) -> exists s, k = KStr s) ->
               fold_left
                 (fun acc kv => dict_set acc (KStr (str (fst kv))) (str_key_value (snd kv)))
                 value acc
               = acc ++ map (fun kv => (KStr (str (fst kv)), str_key_value (snd kv))) value).
    { clear Hnd. induction value as [|[k v] t IH]; intros acc Hacc Hks; simpl.
      - now rewrite app_nil_r.
      - assert (Hfresh : ~ In (KStr (str k)) (dict_keys acc)).
        { simpl in Hacc. apply NoDup_remove_2 in Hacc. intros Hin. apply Hacc.
          apply in_or_app. left. apply in_map_iff. exists (KStr (str k)). auto. }
        rewrite (@dict_set_fresh _ acc (KStr (str k)) (str_key_value v) Hfresh). rewrite IH.
        + now rewrite <- app_assoc.
        + unfold dict_keys in *. rewrite !map_app. simpl. rewrite <- app_assoc. exact Hacc.
        + intros k' Hin. unfold dict_keys in Hin. rewrite map_app in Hin.
          apply in_app_or in Hin. destruct Hin as [Hin|[<-|[]]]; [exact (Hks _ Hin)|simpl; eauto]. }
    apply (H []); [exact Hnd|intros k []].
  - intros value. unfold dict_keys. generalize (map fst value). clear value.
    intros ks Hnd Hint. induction ks as [|k t IH]; simpl; [constructor|].
    inversion Hnd as [|? ? Hn Ht]; subst. inversion Hint as [|? ? [z ->] Hit]; subst.
    constructor; [|now apply IH].
    intros Hin. apply in_map_iff in Hin. destruct Hin as (k' & Hk' & Hin').
    rewrite Forall_forall in Hit. destruct (Hit _ Hin') as [z' ->].
    apply str_int_inj in Hk'. subst z'. contradiction.
Qed.

Lemma str_key_dict_keeps_distinct_witness :
  _str_key_dict [(KInt 1, JInt 2); (KInt 10, JDict [(KInt 3, JNone)])]
  = [(KStr "1", JInt 2); (KStr "10", JDict [(KStr "3", JNone)])].
Proof.
  refine (proj1 str_key_dict_keeps_distinct
            [(KInt 1, JInt 2); (KInt 10, JDict [(KInt 3, JNone)])] _).
  simpl. constructor; [|constructor; [intros []|constructor]].
  intros [H|[]]. discriminate H.
Defined.

(** * [get_latest_confs] *)

Lemma in_refs_In (r : config_ref) (s : list config_ref) : in_refs r s = true <-> In r s.
Proof.
  unfold in_refs. rewrite existsb_exists. split.
  - intros (x & Hin & E). apply Nat.eqb_eq in E. now subst.
  - intros Hin. exists r. split; [exact Hin|apply Nat.eqb_refl].
Qed.

Lemma get_latest_confs_In (m : module_state) (r : config_ref) :
  In r (snd (get_latest_confs m)) <-> In r (cache_refs m) /\ ~ In r (_retrieved m).
Proof.
  unfold get_latest_confs. simpl. rewrite filter_In, nodup_In, negb_true_iff.
  fold (cache_refs m). split; intros [H1 H2]; (split; [exact H1|]).
  - intros Hin. apply in_refs_In in Hin. congruence.
  - destruct (in_refs r (_retrieved m)) eqn:E; [|reflexivity].
    apply in_refs_In in E. contradiction.
Qed.

Lemma cache_remove_refs (c : list (ConfigMeta.cache_key * config_ref)) (k : ConfigMeta.cache_key)
    (r : config_ref) :
  In r (map snd (ConfigMeta.cache_remove c k)) -> In r (map snd c).
Proof.
  induction c as [|[k0 r0] t IH]; simpl; [auto|].
  destruct (ConfigMeta.cache_key_eqb k0 k); simpl; intuition.
Qed.

Lemma cache_remove_NoDup (c : list (ConfigMeta.cache_key * config_ref))
    (k : ConfigMeta.cache_key) :
  NoDup (map snd c) -> NoDup (map snd (ConfigMeta.cache_remove c k)).
Proof.
  induction c as [|[k0 r0] t IH]; simpl; intros H; [constructor|].
  inversion H as [|? ? Hn Ht]; subst.
  destruct (ConfigMeta.cache_key_eqb k0 k); simpl; [auto|].
  constructor; [|auto]. intros Hin. apply Hn. eapply cache_remove_refs. exact Hin.
Qed.

Lemma cache_get_refs (c : list (ConfigMeta.cache_key * config_ref)) (k : ConfigMeta.cache_key)
    (r : config_ref) :
  ConfigMeta.cache_get c k = Some r -> In r (map snd c).
Proof.
  induction c as [|[k0 r0] t IH]; simpl; [discriminate|].
  destruct (ConfigMeta.cache_key_eqb k0 k); [intros [= ->]; now left|auto].
Qed.

Lemma cache_remove_gone (c : list (ConfigMeta.cache_key * config_ref))
    (k : ConfigMeta.cache_key) (r : config_ref) :
  NoDup (map snd c) -> ConfigMeta.cache_get c k = Some r ->
  ~ In r (map snd (ConfigMeta.cache_remove c k)).
Proof.
  induction c as [|[k0 r0] t IH]; simpl; intros Hnd Hg; [discriminate|].
  inversion Hnd as [|? ? Hn Ht]; subst.
  destruct (ConfigMeta.cache_key_eqb k0 k).
  - injection Hg as ->. intros Hin. apply Hn. eapply cache_remove_refs. exact Hin.
  - simpl. intros [->|Hin].
    + apply Hn. eapply cache_get_refs. exact Hg.
    + exact (IH Ht Hg Hin).
Qed.

Lemma module_step_inv (s : module_run_state) (e : module_event) :
  module_inv s -> module_inv (module_step s e).
Proof.
  destruct s as [[m h] outs]. intros (Hnd & Hb & Ho & Hout).
  destruct e as [n u d f df|k|]; simpl.
  - unfold ConfigMeta.__call__. destruct n as [name|]; [|simpl; auto].
    destruct (ConfigMeta.cache_get (ConfigMeta._config_cache (configs m)) (name, u)) as [r0|];
      [simpl; auto|].
    destruct (Config.__init__ h name u d f df) as [h1 inst]. simpl.
    unfold cache_refs in *. simpl. rewrite length_app. simpl.
    split; [constructor; [intros Hin; specialize (Hb _ Hin); lia|exact Hnd]|].
    split; [intros r [<-|Hin]; [lia|specialize (Hb _ Hin); lia]|].
    split; [|exact Hout].
    intros r Hin. destruct (Ho _ Hin) as [Hlt [Hr|Hc]].
    + split; [lia|now left].
    + split; [lia|]. right. intros [E|Hc']; [lia|contradiction].
  - unfold collect_config.
    destruct (ConfigMeta.cache_get (ConfigMeta._config_cache (configs m)) k) as [r0|] eqn:Eg;
      [|simpl; auto].
    unfold cache_refs in *. simpl.
    split; [now apply cache_remove_NoDup|].
    split; [intros r Hin; apply Hb; eapply cache_remove_refs; exact Hin|].
    split; [|exact Hout].
    intros r Hin. destruct (Ho _ Hin) as [Hlt [Hr|Hc]]; (split; [exact Hlt|]).
    + destruct (Nat.eqb r r0) eqn:E.
      * apply Nat.eqb_eq in E. subst r0. right. now apply cache_remove_gone.
      * left. apply filter_In. split; [exact Hr|]. now rewrite E.
    + right. intros Hin'. apply Hc. eapply cache_remove_refs. exact Hin'.
  - unfold cache_refs. simpl. fold (cache_refs m).
    set (new := filter (fun r => negb (in_refs r (_retrieved m)))
                  (nodup Nat.eq_dec (cache_refs m))).
    assert (Hnew : forall r, In r new <-> In r (cache_refs m) /\ ~ In r (_retrieved m)).
    { intros r. exact (get_latest_confs_In m r). }
    split; [exact Hnd|]. split; [exact Hb|].
    rewrite concat_app. simpl. rewrite app_nil_r.
    split.
    + intros r Hin. apply in_app_or in Hin. destruct Hin as [Hin|Hin].
      * destruct (Ho _ Hin) as [Hlt [Hr|Hc]]; (split; [exact Hlt|]);
          [left; apply in_or_app; now left|now right].
      * apply Hnew in Hin. destruct Hin as [Hc Hr].
        split; [now apply Hb|]. left. apply in_or_app. right. apply Hnew. auto.
    + apply NoDup_app; [exact Hout| |].
      * apply NoDup_filter, NoDup_nodup.
      * intros r Hin Hin'. apply Hnew in Hin'. destruct Hin' as [Hc Hr].
        destruct (Ho _ Hin) as [_ [Hr'|Hc']]; contradiction.
Qed.

Lemma module_run_inv (h : heap) (es : list module_event) : module_inv (module_run h es).
Proof.
  unfold module_run.
  assert (H : forall s, module_inv s -> module_inv (fold_left module_step es s)).
  { induction es as [|e t IH]; intros s Hs; simpl; [exact Hs|].
    apply IH. now apply module_step_inv. }
  apply H. simpl. split; [constructor|].
  split; [intros r []|]. split; [intros r []|constructor].
Qed.

(** [get_latest_confs] over any run of constructions, collections and calls
    of it: (1) no instance is returned twice, by one call or by two; (2) a
    call returns the instances the cache holds that no earlier call has
    returned, each once; (3) a call made right after another returns
    nothing. *)
Theorem get_latest_confs_reports_once :
  (forall (h : heap) (es : list module_event), NoDup (List.concat (snd (module_run h es))))
  /\ (forall (m : module_state) (r : config_ref),
        In r (snd (get_latest_confs m)) <-> In r (cache_refs m) /\ ~ In r (_retrieved m))
  /\ (forall m : module_state, NoDup (snd (get_latest_confs m)))
  /\ (forall m : module_state, snd (get_latest_confs (fst (get_latest_confs m))) = []).
Proof.
  split.
  { intros h es. pose proof (module_run_inv h es) as H.
    destruct (module_run h es) as [[m h'] outs]. exact (proj2 (proj2 (proj2 H))). }
  split; [exact get_latest_confs_In|].
  split; [intros m; apply NoDup_filter, NoDup_nodup|].
  intros m.
  destruct (snd (get_latest_confs (fst (get_latest_confs m)))) as [|r t] eqn:E; [reflexivity|].
  assert (Hin : In r (snd (get_latest_confs (fst (get_latest_confs m)))))
    by (rewrite E; now left).
  apply get_latest_confs_In in Hin. destruct Hin as [Hc Hr]. exfalso. apply Hr.
  simpl. apply in_or_app.
  destruct (in_refs r (_retrieved m)) eqn:Er.
  - left. now apply in_refs_In.
  - right. apply (get_latest_confs_In m r). split; [exact Hc|].
    intros Hin. apply in_refs_In in Hin. congruence.
Qed.

(** * [Config.get_conf] *)

Lemma call_returns (st : ConfigMeta.registry) (h : heap) (name u : string) (d : driver_ref)
    (f : bool) (df : option pyval) :
  exists st1 h1 r, ConfigMeta.__call__ st h (Some name) u d f df = (st1, h1, Ok r).
Proof.
  unfold ConfigMeta.__call__.
  destruct (ConfigMeta.cache_get (ConfigMeta._config_cache st) (name, u)) as [r|]; [eauto|].
  destruct (Config.__init__ h name u d f df) as [h1 inst]. eauto.
Qed.

Lemma call_keeps_cached (st : ConfigMeta.registry) (h : heap) (name u : string) (d : driver_ref)
    (f : bool) (df : option pyval) (k : ConfigMeta.cache_key) (r : config_ref) :
  ConfigMeta.cache_get (ConfigMeta._config_cache st) k = Some r ->
  ConfigMeta.cache_get
    (ConfigMeta._config_cache (fst (fst (ConfigMeta.__call__ st h (Some name) u d f df)))) k
  = Some r.
Proof.
  intros Hk. unfold ConfigMeta.__call__.
  destruct (ConfigMeta.cache_get (ConfigMeta._config_cache st) (name, u)) as [r0|] eqn:E;
    [exact Hk|].
  destruct (Config.__init__ h name u d f df) as [h1 inst]. simpl.
  destruct (ConfigMeta.cache_key_eqb (name, u) k) eqn:Ek; [|exact Hk].
  apply ConfigMetaFacts.cache_key_eqb_eq in Ek. subst k. congruence.
Qed.

(** [Config.get_conf], called twice with the first instance still alive:
    both calls return an instance, never the [ValueError] of a missing name,
    since the name falls back to that of the cog's class when none, or an
    empty one, is given; each call, the second as well, fetches a driver with
    [get_driver] and calls its [migrate_identifier] when it has one; the two
    instances are one exactly when the names are the same and the
    identifiers are the same number; and then the second call has left the
    registry and the heap as they were, whatever flag it was given.
    [Config.get_core_conf] twice gives one instance, the driver being
    fetched, and migrated if it can be, both times. *)
Theorem get_conf_one_instance_per_key
    (get_driver : string -> string -> bool -> driver_ref)
    (has_migrate_identifier : driver_ref -> bool)
    (st : ConfigMeta.registry) (h : heap) (t1 t2 : string) (id1 id2 : Z) (f1 f2 : bool)
    (n1 n2 : option string) (a1 a2 : bool) :
  ConfigMeta.cache_sound st ->
  let name (cog_name : option string) (t : string) :=
    match cog_name with
    | Some n => if String.eqb n "" then t else n
    | None => t
    end in
  let migrated (n : string) (id : Z) (a : bool) :=
    if has_migrate_identifier (get_driver n (str (KInt id)) a)
    then [(get_driver n (str (KInt id)) a, id)] else [] in
  (exists st1 h1 r1 st2 h2 r2,
      Config_get_conf get_driver has_migrate_identifier st h t1 id1 f1 n1 a1
      = (st1, h1, Ok r1, migrated (name n1 t1) id1 a1)
      /\ Config_get_conf get_driver has_migrate_identifier st1 h1 t2 id2 f2 n2 a2
         = (st2, h2, Ok r2, migrated (name n2 t2) id2 a2)
      /\ (r1 = r2 <-> name n1 t1 = name n2 t2 /\ id1 = id2)
      /\ (r1 = r2 -> st2 = st1 /\ h2 = h1))
  /\ (exists st1 h1 r,
        Config_get_core_conf get_driver has_migrate_identifier st h f1 a1
        = (st1, h1, Ok r, migrated "Core" 0 a1)
        /\ Config_get_core_conf get_driver has_migrate_identifier st1 h1 f2 a2
           = (st1, h1, Ok r, migrated "Core" 0 a2)).
Proof.
  intros Hs name migrated. split.
  - unfold Config_get_conf. cbv zeta. fold (name n1 t1) (name n2 t2).
    fold (migrated (name n1 t1) id1 a1) (migrated (name n2 t2) id2 a2).
    set (u1 := str (KInt id1)). set (u2 := str (KInt id2)).
    set (d1 := get_driver (name n1 t1) u1 a1). set (d2 := get_driver (name n2 t2) u2 a2).
    destruct (call_returns st h (name n1 t1) u1 d1 f1 None) as (st1 & h1 & r1 & E1).
    destruct (call_returns st1 h1 (name n2 t2) u2 d2 f2 None) as (st2 & h2 & r2 & E2).
    exists st1, h1, r1, st2, h2, r2.
    split; [now rewrite E1|]. split; [now rewrite E2|].
    pose proof (ConfigMetaFacts.call_caches _ _ _ _ _ _ _ E1) as C1.
    pose proof (ConfigMetaFacts.call_caches _ _ _ _ _ _ _ E2) as C2.
    pose proof (ConfigMetaFacts.cache_sound_call h (Some (name n1 t1)) u1 d1 f1 None Hs) as S1.
    rewrite E1 in S1. simpl in S1.
    pose proof (ConfigMetaFacts.cache_sound_call h1 (Some (name n2 t2)) u2 d2 f2 None S1) as S2.
    pose proof (@call_keeps_cached st1 h1 (name n2 t2) u2 d2 f2 None _ _ C1) as K1.
    rewrite E2 in S2, K1. simpl in S2, K1.
    assert (Hkey : (name n1 t1, u1) = (name n2 t2, u2) <-> name n1 t1 = name n2 t2 /\ id1 = id2).
    { split.
      - intros [= En Eu]. split; [exact En|]. now apply str_int_inj.
      - intros [-> ->]. reflexivity. }
    split; [split|].
    + intros <-. apply Hkey.
      destruct (S2 _ _ K1) as (c1 & Hc1 & Ek1). destruct (S2 _ _ C2) as (c2 & Hc2 & Ek2).
      congruence.
    + intros Hk. apply Hkey in Hk. injection Hk as En Eu. rewrite <- En, <- Eu in E2.
      rewrite (ConfigMetaFacts.call_cached st1 h1 (name n1 t1) u1 d2 f2 None C1) in E2.
      congruence.
    + intros <-.
      assert (Hk : (name n1 t1, u1) = (name n2 t2, u2)).
      { destruct (S2 _ _ K1) as (c1 & Hc1 & Ek1). destruct (S2 _ _ C2) as (c2 & Hc2 & Ek2).
        congruence. }
      injection Hk as En Eu. rewrite <- En, <- Eu in E2.
      rewrite (ConfigMetaFacts.call_cached st1 h1 (name n1 t1) u1 d2 f2 None C1) in E2.
      injection E2 as <- <-. auto.
  - unfold Config_get_core_conf, Config_get_conf. cbv zeta. simpl String.eqb. cbv iota.
    fold (migrated "Core" 0 a1) (migrated "Core" 0 a2).
    destruct (call_returns st h "Core" (str (KInt 0))
                (get_driver "Core" (str (KInt 0)) a1) f1 None) as (st1 & h1 & r1 & E1).
    exists st1, h1, r1. split; [now rewrite E1|].
    now rewrite (ConfigMetaFacts.call_cached st1 h1 "Core" (str (KInt 0))
                   (get_driver "Core" (str (KInt 0)) a2) f2 None
                   (ConfigMetaFacts.call_caches _ _ _ _ _ _ _ E1)).
Qed.

Lemma get_conf_one_instance_per_key_witness :
  exists st1 h1 r,
    Config_get_core_conf (fun _ _ _ => 0%nat) (fun _ => true) ConfigMeta.no_configs []
      true false
    = (st1, h1, Ok r, [(0%nat, 0)])
    /\ Config_get_core_conf (fun _ _ _ => 0%nat) (fun _ => true) st1 h1 false false
       = (st1, h1, Ok r, [(0%nat, 0)]).
Proof.
  refine (proj2 (@get_conf_one_instance_per_key (fun _ _ _ => 0%nat) (fun _ => true)
                   ConfigMeta.no_configs [] "Mod" "Mod" 1 1 true false None None false false
                   _)).
  intros k r H. discriminate H.
Defined.

(** * Expired temporary bans *)

Lemma subsequence_refl (A : Type) (xs : list A) : subsequence xs xs.
Proof. induction xs; constructor; assumption. Qed.

Lemma subsequence_trans (A : Type) (zs ys xs : list A) :
  subsequence zs ys -> subsequence ys xs -> subsequence zs xs.
Proof.
  intros H1 H2. revert zs H1. induction H2 as [|x ys xs H IH|x ys xs H IH]; intros zs H1.
  - exact H1.
  - constructor. now apply IH.
  - inversion H1 as [|? ? ? H1'|? ? ? H1']; subst.
    + constructor. now apply IH.
    + apply sub_keep. now apply IH.
Qed.

Lemma subsequence_length (A : Type) (ys xs : list A) :
  subsequence ys xs -> (List.length ys <= List.length xs)%nat.
Proof. induction 1; simpl; lia. Qed.

Lemma list_remove_subsequence (A : Type) (same : A -> bool) (xs ys : list A) :
  list_remove same xs = Some ys -> subsequence ys xs.
Proof.
  revert ys. induction xs as [|x t IH]; intros ys; simpl; [discriminate|].
  destruct (same x).
  - intros [= <-]. constructor. apply subsequence_refl.
  - destruct (list_remove same t) as [t'|]; [|discriminate].
    intros [= <-]. apply sub_keep. now apply IH.
Qed.

Lemma list_remove_count (uid : Z) (xs : list Z) :
  match list_remove (Z.eqb uid) xs with
  | Some ys =>
      forall z, count_occ Z.eq_dec xs z
                = (count_occ Z.eq_dec ys z + if Z.eq_dec uid z then 1 else 0)%nat
  | None => count_occ Z.eq_dec xs uid = 0%nat
  end.
Proof.
  induction xs as [|x t IH]; simpl; [reflexivity|].
  destruct (Z.eqb uid x) eqn:E.
  - apply Z.eqb_eq in E. subst x. intros z.
    destruct (Z.eq_dec uid z); lia.
  - apply Z.eqb_neq in E.
    destruct (list_remove (Z.eqb uid) t) as [t'|]; simpl.
    + intros z. rewrite (IH z). destruct (Z.eq_dec x z); lia.
    + destruct (Z.eq_dec x uid); [congruence|exact IH].
Qed.

Module KickBanFacts.
Import KickBanMixin.

Section Loop.
Variable expired : nat -> Z -> result bool.
Variable unban : nat -> Z -> unban_outcome.

(** The loop from any of its rounds on, when every id still to be visited
    is in the list as often as it is still to be visited. *)
Lemma expirations_loop_spec (todo : list Z) : forall (i : nat) (cur : list Z) (changed : bool),
  (forall z, (count_occ Z.eq_dec todo z <= count_occ Z.eq_dec cur z)%nat) ->
  let ys := fst (expirations_loop expired unban i todo cur changed) in
  let res := snd (expirations_loop expired unban i todo cur changed) in
  subsequence ys cur
  /\ (forall e, res = Raise e ->
                exists j uid, expired j uid = Raise e \/ unban j uid = Failed e)
  /\ (forall c, res = Ok c ->
                (c = true <-> changed = true \/ (List.length ys < List.length cur)%nat)
                /\ (c = false -> ys = cur)).
Proof.
  induction todo as [|uid rest IH]; intros i cur changed Hc; simpl.
  - split; [apply subsequence_refl|]. split; [discriminate|].
    intros c [= <-]. split; [|reflexivity]. split; [auto|]. intros [H|H]; [exact H|lia].
  - assert (Hrest : forall z, (count_occ Z.eq_dec rest z <= count_occ Z.eq_dec cur z)%nat).
    { intros z. specialize (Hc z). simpl in Hc. destruct (Z.eq_dec uid z); lia. }
    destruct (expired i uid) as [[|]|e] eqn:Ee.
    + destruct (unban i uid) as [| |code|e] eqn:Eu.
      * pose proof (list_remove_count uid cur) as Hr.
        destruct (list_remove (Z.eqb uid) cur) as [l|] eqn:El.
        -- assert (Hl : forall z, (count_occ Z.eq_dec rest z <= count_occ Z.eq_dec l z)%nat).
           { intros z. specialize (Hc z). specialize (Hr z). simpl in Hc.
             destruct (Z.eq_dec uid z); lia. }
           destruct (IH (S i) l true Hl) as (Hs & He & Hk).
           pose proof (list_remove_subsequence _ _ El) as Hsl.
           pose proof (list_remove_length _ _ El) as Hlen.
           pose proof (subsequence_length Hs) as Hle.
           split; [exact (subsequence_trans Hs Hsl)|]. split; [exact He|].
           intros c Hcres. destruct (Hk c Hcres) as [Hk1 Hk2].
           assert (c = true) by (apply Hk1; now left). subst c.
           split; [split; [intros _; right; lia|reflexivity]|discriminate].
        -- specialize (Hc uid). simpl in Hc. destruct (Z.eq_dec uid uid); [lia|congruence].
      * pose proof (list_remove_count uid cur) as Hr.
        destruct (list_remove (Z.eqb uid) cur) as [l|] eqn:El.
        -- assert (Hl : forall z, (count_occ Z.eq_dec rest z <= count_occ Z.eq_dec l z)%nat).
           { intros z. specialize (Hc z). specialize (Hr z). simpl in Hc.
             destruct (Z.eq_dec uid z); lia. }
           destruct (IH (S i) l true Hl) as (Hs & He & Hk).
           pose proof (list_remove_subsequence _ _ El) as Hsl.
           pose proof (list_remove_length _ _ El) as Hlen.
           pose proof (subsequence_length Hs) as Hle.
           split; [exact (subsequence_trans Hs Hsl)|]. split; [exact He|].
           intros c Hcres. destruct (Hk c Hcres) as [Hk1 Hk2].
           assert (c = true) by (apply Hk1; now left). subst c.
           split; [split; [intros _; right; lia|reflexivity]|discriminate].
        -- specialize (Hc uid). simpl in Hc. destruct (Z.eq_dec uid uid); [lia|congruence].
      * destruct (Z.eqb code 50013 || Z.eqb code 403).
        -- simpl. split; [apply subsequence_refl|]. split; [discriminate|].
           intros c [= <-]. split; [|reflexivity]. split; [auto|]. intros [H|H]; [exact H|lia].
        -- exact (IH (S i) cur changed Hrest).
      * simpl. split; [apply subsequence_refl|].
        split; [intros e' [= <-]; exists i, uid; now right|discriminate].
    + exact (IH (S i) cur changed Hrest).
    + simpl. split; [apply subsequence_refl|].
      split; [intros e' [= <-]; exists i, uid; now left|discriminate].
Qed.

Lemma expirations_loop_idle (todo : list Z) : forall (i : nat) (cur : list Z) (changed : bool),
  (forall j uid, expired j uid = Ok false) ->
  expirations_loop expired unban i todo cur changed = (cur, Ok changed).
Proof.
  induction todo as [|uid rest IH]; intros i cur changed H; simpl; [reflexivity|].
  rewrite H. now apply IH.
Qed.

Lemma expirations_loop_all (todo : list Z) : forall (i : nat) (changed : bool),
  (forall j uid, expired j uid = Ok true) ->
  (forall j uid, unban j uid = Unbanned \/ unban j uid = NotFound) ->
  expirations_loop expired unban i todo todo changed
  = ([], Ok (match todo with [] => changed | _ => true end)).
Proof.
  induction todo as [|uid rest IH]; intros i changed He Hu; simpl; [reflexivity|].
  rewrite He, Z.eqb_refl.
  destruct (Hu i uid) as [-> | ->]; rewrite (IH (S i) true He Hu); destruct rest; reflexivity.
Qed.

End Loop.

End KickBanFacts.

(** [KickBanMixin._check_guild_tempban_expirations], whatever the bans'
    times and the unbans' outcomes: (1) what is left in the list are items
    of the list as it was, in their order; (2) the [remove] calls never fail:
    an exception of the call is one that reading a ban's time or unbanning
    raised; (3) the call returns [True] exactly when it has made the list
    shorter, and when it returns [False] the list is as it was; (4) when no
    ban is over, the list is as it was and the call returns [False];
    (5) when every ban is over and every unban succeeds or finds the ban
    gone, the list ends empty. *)
Theorem check_guild_tempban_expirations_spec
    (expired : nat -> Z -> result bool) (unban : nat -> Z -> KickBanMixin.unban_outcome)
    (guild_tempbans : list Z) :
  let ys := fst (KickBanMixin._check_guild_tempban_expirations expired unban guild_tempbans) in
  let res := snd (KickBanMixin._check_guild_tempban_expirations expired unban guild_tempbans) in
  subsequence ys guild_tempbans
  /\ (forall e, res = Raise e ->
                exists j uid, expired j uid = Raise e \/ unban j uid = KickBanMixin.Failed e)
  /\ (forall c, res = Ok c ->
                (c = true <-> (List.length ys < List.length guild_tempbans)%nat)
                /\ (c = false -> ys = guild_tempbans))
  /\ ((forall j uid, expired j uid = Ok false) -> ys = guild_tempbans /\ res = Ok false)
  /\ ((forall j uid, expired j uid = Ok true) ->
      (forall j uid, unban j uid = KickBanMixin.Unbanned \/ unban j uid = KickBanMixin.NotFound) ->
      ys = []).
Proof.
  intros ys res. subst ys res. unfold KickBanMixin._check_guild_tempban_expirations.
  destruct (@KickBanFacts.expirations_loop_spec expired unban guild_tempbans 0%nat
              guild_tempbans false (fun z => le_n _)) as (Hs & He & Hk).
  split; [exact Hs|]. split; [exact He|]. split.
  - intros c Hc. destruct (Hk c Hc) as [Hk1 Hk2]. split; [|exact Hk2].
    rewrite Hk1. split; [intros [H|H]; [discriminate|exact H]|now right].
  - split.
    + intros H. rewrite (@KickBanFacts.expirations_loop_idle expired unban guild_tempbans
                           0%nat guild_tempbans false H). auto.
    + intros H1 H2. rewrite (@KickBanFacts.expirations_loop_all expired unban guild_tempbans
                               0%nat false H1 H2). reflexivity.
Qed.

Lemma check_guild_tempban_expirations_spec_witness :
  fst (KickBanMixin._check_guild_tempban_expirations
         (fun _ _ => Ok true) (fun _ _ => KickBanMixin.Unbanned) [7; 9; 7])
  = [].
Proof.
  refine (proj2 (proj2 (proj2 (proj2
            (@check_guild_tempban_expirations_spec
               (fun _ _ => Ok true) (fun _ _ => KickBanMixin.Unbanned) [7; 9; 7])))) _ _).
  - reflexivity.
  - intros j uid. now left.
Defined.

(** * Root groups without defaults *)

Lemma alloc_items_keys (kvs : items) : forall h h' vs,
  alloc_items kvs h = (h', vs) -> map fst vs = map fst kvs.
Proof.
  induction kvs as [|[k v] t IH]; intros h h' vs H; simpl in H.
  - now injection H as <- <-.
  - destruct (alloc v h) as [h1 v1]. destruct (alloc_items t h1) as [h2 vs2] eqn:E.
    injection H as <- <-. simpl. f_equal. exact (IH _ _ _ E).
Qed.

(** [Config._get_base_group] called with fewer primary keys than the
    category has, or for a category the schema does not have: the [Group] it
    makes has no defaults, whatever is registered, so that every item asked
    of it through [get_attr] is an [AttributeError] under
    [force_registration] and otherwise a [Value] at the child address whose
    default is [None]. *)
Theorem base_group_without_defaults
    (get_pkey_info : string -> list (string * nat) -> nat * bool)
    (h : heap) (c : Config.t) (ref : config_ref) (category : string)
    (primary_keys : list string) :
  (List.length primary_keys < fst (get_pkey_info category (Config.custom_groups c)))%nat
  \/ (exists D, deref h (Config._defaults c) = Some (JDict D)
                /\ dict_get D (KStr category) = None) ->
  exists h' g,
    Config._get_base_group get_pkey_info h c ref category primary_keys = Ok (h', g)
    /\ identifier_data (as_Value g)
       = {| cog_name := Config.cog_name c;
            uuid := Config.unique_identifier c;
            category := category;
            primary_key := primary_keys;
            identifiers := [];
            primary_key_len := fst (get_pkey_info category (Config.custom_groups c));
            is_custom := snd (get_pkey_info category (Config.custom_groups c)) |}
    /\ dict_of h' (_defaults g) = Some []
    /\ forall item,
         Group_get_attr h' g item
         = if Config.force_registration c then (h', Raise AttributeError)
           else (h', Ok (AValue {| identifier_data :=
                                     get_child (identifier_data (as_Value g)) (str item);
                                   default := PNone;
                                   _driver := Config._driver c;
                                   _config := ref |})).
Proof.
  intros H. unfold Config._get_base_group.
  destruct (get_pkey_info category (Config.custom_groups c)) as [pkey_len custom]. simpl fst in *.
  simpl snd.
  assert (Hattr : forall h' g,
             dict_of h' (_defaults g) = Some [] ->
             forall item,
               Group_get_attr h' g item
               = if force_registration g then (h', Raise AttributeError)
                 else (h', Ok (AValue {| identifier_data :=
                                           get_child (identifier_data (as_Value g)) (str item);
                                         default := PNone;
                                         _driver := _driver (as_Value g);
                                         _config := _config (as_Value g) |}))).
  { intros h' g Hd item.
    unfold Group_get_attr, Group___getattr__, Group_is_group, Group_is_value. rewrite Hd.
    simpl. destruct (force_registration g); reflexivity. }
  destruct (List.length primary_keys <? pkey_len)%nat eqn:El.
  - eexists _, _. split; [reflexivity|]. split; [reflexivity|].
    assert (Hd : dict_of ((h ++ [ODict []]) ++ [ODict []]) (PRef (List.length h)) = Some []).
    { simpl. rewrite <- app_assoc, nth_error_app2, Nat.sub_diag by lia. reflexivity. }
    split; [exact Hd|]. intros item. rewrite Hattr by exact Hd. reflexivity.
  - destruct H as [H|(D & HD & Hg)]; [apply Nat.ltb_ge in El; lia|].
    unfold Config.defaults, pickle_copy. rewrite HD. rewrite alloc_JDict.
    destruct (alloc_items D h) as [h1 vs] eqn:Ea.
    assert (Hn : dict_of (h1 ++ [ODict vs]) (PRef (List.length h1)) = Some vs).
    { simpl. rewrite nth_error_app2, Nat.sub_diag by lia. reflexivity. }
    rewrite Hn.
    assert (Hnone : dict_get vs (KStr category) = None).
    { apply dict_get_None. apply dict_get_None in Hg. unfold dict_keys in *.
      now rewrite (alloc_items_keys _ _ Ea). }
    rewrite Hnone.
    eexists _, _. split; [reflexivity|]. split; [reflexivity|].
    assert (Hd : dict_of (((h1 ++ [ODict vs]) ++ [ODict []]) ++ [ODict []])
                   (PRef (List.length (h1 ++ [ODict vs]))) = Some []).
    { simpl. rewrite <- app_assoc, nth_error_app2, Nat.sub_diag by lia. reflexivity. }
    split; [exact Hd|]. intros item. rewrite Hattr by exact Hd. reflexivity.
Qed.

Lemma base_group_without_defaults_witness :
  exists h' g,
    Config._get_base_group (fun _ _ => (1%nat, false)) tags_heap tags_config 0%nat "GUILD" []
    = Ok (h', g)
    /\ dict_of h' (_defaults g) = Some [].
Proof.
  destruct (@base_group_without_defaults (fun _ _ => (1%nat, false)) tags_heap tags_config
              0%nat "GUILD" [] (or_introl (le_n 1))) as (h' & g & H1 & _ & H2 & _).
  exists h', g. split; [exact H1|exact H2].
Defined.

(** * Sections on a stored dict *)

Lemma alloc_items_spec (kvs : items) : forall h h1 vs,
  alloc_items kvs h = (h1, vs) ->
  Forall2 (fun kv item => fst kv = fst item /\ deref h1 (snd kv) = Some (snd item)) vs kvs.
Proof.
  induction kvs as [|[k v] t IH]; intros h h1 vs H; simpl in H.
  - injection H as <- <-. constructor.
  - destruct (alloc v h) as [h0 v0] eqn:Ex.
    destruct (alloc_items t h0) as [h2 vs2] eqn:Et.
    injection H as <- <-.
    assert (Hext : exists e2, h2 = h0 ++ e2).
    { clear - Et. revert h0 h2 vs2 Et. induction t as [|[k1 v1] t IHt]; intros h0 h2 vs2 Et;
        simpl in Et.
      - injection Et as <- <-. exists []. now rewrite app_nil_r.
      - destruct (alloc v1 h0) as [h3 v3] eqn:E3.
        destruct (alloc_items t h3) as [h4 vs4] eqn:E4. injection Et as <- <-.
        destruct (alloc_extends _ _ E3) as [e3 ->]. destruct (IHt _ _ _ E4) as [e4 ->].
        exists (e3 ++ e4). now rewrite app_assoc. }
    destruct Hext as [e2 ->].
    constructor; [|exact (IH _ _ _ Et)].
    simpl. split; [reflexivity|]. apply deref_app. exact (alloc_deref _ _ Ex).
Qed.

(** A dict cell reads as the dict of what its items read as, when the items
    read in a part of the heap that lies before the cell. *)
Lemma deref_dict_cell (h0 h : heap) (l : nat) (vs : list (key * pyval)) (kvs : items) :
  (List.length h0 <= l)%nat ->
  nth_error h l = Some (ODict vs) ->
  same_below (List.length h0) h0 h ->
  Forall2 (fun kv item => fst kv = fst item /\ deref h0 (snd kv) = Some (snd item)) vs kvs ->
  deref h (PRef l) = Some (JDict kvs).
Proof.
  intros Hle Hn Hs HF.
  assert (Hl : (l < List.length h)%nat) by (apply nth_error_Some; congruence).
  assert (E : firstn (List.length h0) h = h0).
  { apply nth_error_ext. intros n. rewrite nth_error_firstn.
    destruct (Nat.ltb_spec n (List.length h0)) as [Hlt|Hge].
    - now apply Hs.
    - symmetry. now apply nth_error_None. }
  unfold deref. destruct (List.length h) as [|m] eqn:Em; [lia|].
  simpl. rewrite Hn.
  assert (Ht : traverse (fun kv => option_map (pair (fst kv)) (deref_fuel m h (snd kv))) vs
               = Some kvs).
  { clear Hn. induction HF as [|[k v] [k' x] vs' xs' [Hk Hv] _ IH]; simpl; [reflexivity|].
    rewrite IH. simpl in Hk, Hv. subst k'.
    assert (Hd : deref_fuel m h v = Some x).
    { rewrite <- (firstn_skipn (List.length h0) h), E.
      apply deref_fuel_app. apply deref_fuel_mono with (n := List.length h0); [lia|exact Hv]. }
    now rewrite Hd. }
  now rewrite Ht.
Qed.

Lemma dict_set_Forall2 (A B : Type) (R : A -> B -> Prop) (vs : list (key * A))
    (kvs : list (key * B)) (k : key) (x : A) (y : B) :
  Forall2 (fun kv item => fst kv = fst item /\ R (snd kv) (snd item)) vs kvs ->
  R x y ->
  Forall2 (fun kv item => fst kv = fst item /\ R (snd kv) (snd item))
    (dict_set vs k x) (dict_set kvs k y).
Proof.
  intros HF Hxy. induction HF as [|[k1 v1] [k2 v2] vs' kvs' [Hk Hv] HF' IH]; simpl.
  - constructor; [auto|constructor].
  - simpl in Hk. subst k2. destruct (key_eqb k1 k).
    + constructor; [simpl; auto|exact HF'].
    + constructor; [simpl; auto|exact IH].
Qed.

Lemma scalar_value_deref (h : heap) (x : pyval) (j : json) :
  scalar_value x = Some j -> deref h x = Some j.
Proof.
  unfold deref. destruct x; simpl; try discriminate; intros [= <-];
    destruct (List.length h); reflexivity.
Qed.

(** Entering a section that takes the lock, on a [Value] for which the
    driver holds a dict and whose lock is free: the working copy and the
    snapshot are two new dict cells with the same items. *)
Lemma enter_on_dict (w : world) (x : Value) (default_arg : option pyval) (D : items) :
  locks_exist w -> lock_free w x ->
  driver_get w (_driver x) (identifier_data x) = Ok (JDict D) ->
  exists w2 mgr1 h1 vs,
    __aenter__ (fst (Value___call__ w (AValue x) default_arg true))
      (snd (Value___call__ w (AValue x) default_arg true)) = (w2, Returned mgr1)
    /\ value_obj mgr1 = AValue x
    /\ __acquire_lock mgr1 = true
    /\ raw_value mgr1 = PRef (List.length h1)
    /\ __original_value mgr1 = PRef (S (List.length h1))
    /\ objects w2 = h1 ++ [ODict vs; ODict vs]
    /\ Forall2 (fun kv item => fst kv = fst item /\ deref h1 (snd kv) = Some (snd item)) vs D
    /\ stored w2 = stored w
    /\ set_calls w2 = set_calls w
    /\ table_get (_lock_cache w2) (slot_of (_config x) (identifier_data x)) = Some (__lock mgr1)
    /\ locked w2 (__lock mgr1) = true.
Proof.
  intros He Hf Hs. unfold Value___call__. simpl accessor_Value.
  destruct (get_lock_spec x He) as (Hc & _ & Hl & He1 & Hlt & Hlk & Hs1 & Hc1 & Ho1).
  destruct (get_lock w x) as [w1 lk] eqn:Eg. simpl in *.
  assert (Hfree : locked w1 lk = false).
  { rewrite Hlk. destruct (table_get (_lock_cache w) (slot_of (_config x) (identifier_data x))) as [l0|] eqn:E.
    - subst lk. exact (Hf _ E).
    - subst lk. unfold locked. apply nth_overflow. lia. }
  unfold __aenter__, aenter_acquire, lock_acquire. simpl __acquire_lock. simpl __lock.
  rewrite Hfree.
  set (w1' := with_locks w1 (list_set (locks w1) lk true)).
  unfold aenter_read. simpl value_obj. simpl coro. unfold accessor__get, Value__get.
  assert (Hg : driver_get w1' (_driver x) (identifier_data x) = Ok (JDict D)).
  { unfold driver_get in *. simpl. rewrite Hs1. exact Hs. }
  rewrite Hg. rewrite alloc_JDict.
  destruct (alloc_items D (objects w1')) as [h1 vs] eqn:Ea.
  pose proof (alloc_items_spec _ _ Ea) as HF.
  cbv iota beta. simpl objects.
  assert (Hn : nth_error (h1 ++ [ODict vs]) (List.length h1) = Some (ODict vs)).
  { rewrite nth_error_app2, Nat.sub_diag by lia. reflexivity. }
  unfold isinstance_list_or_dict, shallow_copy. rewrite Hn. cbv iota beta. simpl negb.
  cbv iota.
  eexists _, _, h1, vs. split; [reflexivity|]. simpl.
  split; [reflexivity|]. split; [reflexivity|]. split; [reflexivity|].
  split; [rewrite length_app, Nat.add_comm; reflexivity|].
  split; [now rewrite <- app_assoc|]. split; [exact HF|].
  split; [exact Hs1|]. split; [exact Hc1|]. split; [exact Hc|].
  unfold locked. simpl. now apply nth_list_set_same.
Qed.

(** A section on a stored dict whose body assigns to an item of the working
    copy, [v[k] = x] with a scalar [x], and then returns or raises, when the
    lock of the address is free: the working copy, its keys cast to [str],
    is compared to the snapshot; when they differ one [set] call is made and
    the driver holds the cast working copy, and when they are equal no call
    is made and the driver holds what it held. Either way the lock is free
    again, and an exception of the body goes on to the caller after the
    write. *)
Theorem section_on_dict_assigns (w : world) (x : Value) (D : items) (k : key) (v : pyval)
    (j : json) (r : result unit) :
  locks_exist w -> lock_free w x ->
  driver_get w (_driver x) (identifier_data x) = Ok (JDict D) ->
  scalar_value v = Some j ->
  let new := JDict (_str_key_dict (dict_set D k j)) in
  exists w',
    section w (AValue x) None true (setitem_body k v r)
    = (w', match r with Ok _ => Returned tt | Raise e => Raised e end)
    /\ lock_free w' x
    /\ if py_ne new (JDict D)
       then driver_get w' (_driver x) (identifier_data x) = Ok new
            /\ new_calls w w' = [(slot_of (_driver x) (identifier_data x), new)]
       else stored w' = stored w /\ new_calls w w' = [].
Proof.
  intros He Hf Hs Hv new.
  destruct (enter_on_dict None He Hf Hs)
    as (w2 & mgr1 & h1 & vs & Hen & Hx & Ha & Hr & Ho & Hobj & HF & Hst & Hca & Hc & Hl).
  unfold section. destruct (Value___call__ w (AValue x) None true) as [w1 mgr].
  simpl in Hen. unfold async_with. rewrite Hen.
  unfold setitem_body. rewrite Hr, Hobj, nth_error_app2, Nat.sub_diag by lia.
  simpl nth_error. cbv iota. rewrite heap_update_middle.
  set (w3 := with_objects w2 (h1 ++ [ODict (dict_set vs k v); ODict vs])).
  assert (Hsb : same_below (List.length h1) h1 (objects w3)) by apply same_below_app.
  assert (HF' : Forall2 (fun kv item => fst kv = fst item /\ deref h1 (snd kv) = Some (snd item))
                  (dict_set vs k v) (dict_set D k j)).
  { apply (@dict_set_Forall2 _ _ (fun a b => deref h1 a = Some b)); [exact HF|].
    now apply scalar_value_deref. }
  assert (Dr : deref (objects w3) (raw_value mgr1) = Some (JDict (dict_set D k j))).
  { rewrite Hr.
    apply (@deref_dict_cell h1 (objects w3) (List.length h1) (dict_set vs k v) (dict_set D k j));
      [lia| |exact Hsb|exact HF'].
    unfold w3. simpl objects. rewrite nth_error_app2, Nat.sub_diag by lia. reflexivity. }
  assert (Do : deref (objects w3) (__original_value mgr1) = Some (JDict D)).
  { rewrite Ho. apply (@deref_dict_cell h1 (objects w3) (S (List.length h1)) vs D);
      [lia| |exact Hsb|exact HF].
    unfold w3. simpl objects. rewrite nth_error_app2 by lia.
    replace (S (List.length h1) - List.length h1)%nat with 1%nat by lia. reflexivity. }
  unfold __aexit__. rewrite (@aexit_try_writes_iff_differs w3 mgr1 x _ _ Hx Dr Do).
  change (str_key_value (JDict (dict_set D k j))) with new.
  assert (Hfree : forall w4 : world,
             _lock_cache w4 = _lock_cache w2 ->
             lock_free (with_locks w4 (list_set (locks w2) (__lock mgr1) false)) x).
  { intros w4 E l. simpl. rewrite E, Hc. intros [= <-]. unfold locked. simpl.
    apply nth_list_set_same. now apply locked_lt. }
  destruct (py_ne new (JDict D)); unfold aexit_finally; rewrite Ha;
    unfold lock_release, locked in *; simpl locks; rewrite Hl.
  - eexists. split; [reflexivity|]. split; [now apply Hfree|].
    split; [unfold driver_get; simpl; now rewrite table_get_set_same|].
    unfold new_calls. simpl. rewrite Hca, skipn_app, skipn_all, Nat.sub_diag. reflexivity.
  - eexists. split; [reflexivity|]. split; [now apply Hfree|].
    simpl. split; [exact Hst|]. now apply new_calls_same.
Qed.

Lemma section_on_dict_assigns_witness :
  exists w',
    section threshold_world (AValue plain_value) None true
      (setitem_body (KInt 1) (PInt 6) (Raise KeyError))
    = (w', Raised KeyError)
    /\ driver_get w' 0%nat global_address
       = Ok (JDict [(KStr "threshold", JInt 5); (KStr "1", JInt 6)]).
Proof.
  destruct (@section_on_dict_assigns threshold_world plain_value
              [(KStr "threshold", JInt 5)] (KInt 1) (PInt 6) (JInt 6) (Raise KeyError))
    as (w' & H1 & _ & H2 & _).
  - intros k l H. discriminate H.
  - intros l H. discriminate H.
  - reflexivity.
  - reflexivity.
  - exists w'. split; [exact H1|exact H2].
Defined.

(** * What [Group.set] refuses and [Group.set_raw] lets through *)

(** A value that is not a dict, at a [Group]'s own address: [Group.set]
    refuses it with [ValueError] and leaves the world as it was; but
    [Group.set_raw] with an empty path hands it to the driver at that very
    address, and the [Group]'s reads then return it as it is, with no merge
    against the defaults. *)
Theorem set_raw_bypasses_group_check (w : world) (self : Group) (value : pyval) (j d : json) :
  deref (objects w) value = Some j ->
  is_dict j = false ->
  deref (objects w) (_defaults self) = Some d ->
  Group_set w self value = (w, Raise ValueError)
  /\ exists w1 w2 v,
       Group_set_raw w self [] value = (w1, Ok tt)
       /\ driver_get w1 (_driver (as_Value self)) (identifier_data (as_Value self)) = Ok j
       /\ get w1 (AGroup self) = (w2, Ok v)
       /\ deref (objects w2) v = Some j.
Proof.
  intros Hv Hj Hd. split.
  - unfold Group_set. rewrite (deref_isinstance_dict _ _ Hv), Hj. reflexivity.
  - set (w1 := driver_set w (_driver (as_Value self)) (identifier_data (as_Value self)) j).
    assert (Hg : driver_get w1 (_driver (as_Value self)) (identifier_data (as_Value self))
                 = Ok j).
    { unfold driver_get, w1. simpl. now rewrite table_get_set_same. }
    destruct (alloc d (objects w1)) as [h1 dv] eqn:Ed.
    destruct (alloc j h1) as [h2 v] eqn:Ej.
    exists w1, (with_objects (with_objects w1 h1) h2), v.
    split; [unfold Group_set_raw; rewrite Hv; reflexivity|].
    split; [exact Hg|].
    pose proof (alloc_deref _ _ Ej) as Dv.
    split; [|exact Dv].
    unfold get, accessor__get, Group__get, Group_defaults, pickle_copy.
    change (objects w1) with (objects w) at 1. rewrite Hd.
    change (alloc d (objects w)) with (alloc d (objects w1)). rewrite Ed.
    unfold Value__get.
    assert (Hg' : driver_get (with_objects w1 h1) (_driver (as_Value self))
                    (identifier_data (as_Value self)) = Ok j) by exact Hg.
    rewrite Hg'. simpl objects. rewrite Ej. simpl objects.
    rewrite (deref_isinstance_dict _ _ Dv), Hj. reflexivity.
Qed.

Lemma set_raw_bypasses_group_check_witness :
  Group_set scenario_world scenario_group (PInt 5) = (scenario_world, Raise ValueError).
Proof.
  exact (proj1 (@set_raw_bypasses_group_check scenario_world scenario_group (PInt 5)
                  (JInt 5) scenario_schema eq_refl eq_refl eq_refl)).
Defined.

(** * Editing the prefixes *)

Module MainFacts.
Import Main.

Lemma ascii_compare_refl (a : ascii) : Ascii.compare a a = Eq.
Proof. unfold Ascii.compare. apply N.compare_refl. Qed.

Lemma string_compare_trans (a : string) : forall b c,
  String.compare a b <> Gt -> String.compare b c <> Gt -> String.compare a c <> Gt.
Proof.
  induction a as [|x a IH]; intros b c Hab Hbc.
  - destruct c; simpl; discriminate.
  - destruct b as [|y b]; [simpl in Hab; congruence|].
    destruct c as [|z c]; [simpl in Hbc; congruence|].
    simpl in *. unfold Ascii.compare in *.
    destruct (N.compare_spec (N_of_ascii x) (N_of_ascii y)) as [Exy|Lxy|Gxy];
      [| |congruence];
      destruct (N.compare_spec (N_of_ascii y) (N_of_ascii z)) as [Eyz|Lyz|Gyz];
      try congruence.
    + rewrite Exy, Eyz, N.compare_refl. eapply IH; eassumption.
    + rewrite Exy. rewrite (proj2 (N.compare_lt_iff _ _) Lyz). discriminate.
    + rewrite <- Eyz. rewrite (proj2 (N.compare_lt_iff _ _) Lxy). discriminate.
    + rewrite (proj2 (N.compare_lt_iff _ _) (N.lt_trans _ _ _ Lxy Lyz)). discriminate.
Qed.

Lemma leb_trans (a b c : string) :
  String.leb a b = true -> String.leb b c = true -> String.leb a c = true.
Proof.
  unfold String.leb. intros Hab Hbc.
  pose proof (@string_compare_trans a b c) as H.
  destruct (String.compare a b); try discriminate;
    destruct (String.compare b c); try discriminate;
    destruct (String.compare a c); try reflexivity;
    exfalso; apply H; congruence.
Qed.

Lemma prefix_leb (p : string) : forall q, String.prefix p q = true -> String.leb p q = true.
Proof.
  unfold String.leb.
  induction p as [|x p IH]; intros q H.
  - destruct q; reflexivity.
  - destruct q as [|y q]; simpl in H; [discriminate|].
    destruct (ascii_dec x y) as [->|]; [|discriminate].
    simpl. rewrite ascii_compare_refl. now apply IH.
Qed.

Lemma insert_desc_perm (s : string) (l : list string) : Permutation (s :: l) (insert_desc s l).
Proof.
  induction l as [|x t IH]; simpl; [reflexivity|].
  destruct (String.leb x s); [reflexivity|].
  rewrite perm_swap. now constructor.
Qed.

Lemma sorted_reverse_perm (l : list string) : Permutation l (sorted_reverse l).
Proof.
  induction l as [|x t IH]; simpl; [constructor|].
  rewrite <- insert_desc_perm. now constructor.
Qed.

Lemma insert_desc_sorted (s : string) (l : list string) :
  StronglySorted (fun a b => String.leb b a = true) l ->
  StronglySorted (fun a b => String.leb b a = true) (insert_desc s l).
Proof.
  induction 1 as [|x t Hs IH Hx]; simpl.
  - constructor; constructor.
  - destruct (String.leb x s) eqn:E.
    + constructor; [now constructor|].
      constructor; [exact E|].
      rewrite Forall_forall in *. intros y Hy. exact (@leb_trans y x s (Hx y Hy) E).
    + constructor; [exact IH|].
      assert (Hsx : String.leb s x = true).
      { destruct (String.leb_total s x) as [H|H]; [exact H|congruence]. }
      rewrite Forall_forall in *. intros y Hy.
      apply (Permutation_in _ (Permutation_sym (insert_desc_perm s t))) in Hy.
      destruct Hy as [<-|Hy]; [exact Hsx|now apply Hx].
Qed.

Lemma sorted_reverse_sorted (l : list string) :
  StronglySorted (fun a b => String.leb b a = true) (sorted_reverse l).
Proof.
  induction l as [|x t IH]; simpl; [constructor|]. now apply insert_desc_sorted.
Qed.

Lemma sorted_after (l a b : list string) (p q : string) :
  StronglySorted (fun x y => String.leb y x = true) l ->
  l = a ++ p :: b -> In q b -> String.leb q p = true.
Proof.
  intros Hs. revert a. induction Hs as [|x t Hs IH Hx]; intros a E Hq.
  - destruct a; discriminate.
  - destruct a as [|y a]; simpl in E; injection E as -> ->.
    + rewrite Forall_forall in Hx. now apply Hx.
    + now apply (IH a).
Qed.

Section SetPrefixes.
Variable x : Value.

Lemma set_prefixes_Value (w : world) (prefixes : list string) :
  exists h,
    set_prefixes (AValue x) w prefixes
    = (driver_set (with_objects w h) (_driver x) (identifier_data x)
         (JList (map JStr (sorted_reverse prefixes))), Ok tt).
Proof.
  unfold set_prefixes.
  destruct (alloc (JList (map JStr (sorted_reverse prefixes))) (objects w)) as [h v] eqn:Ea.
  exists h. simpl. unfold Value_set. simpl objects. rewrite (alloc_deref _ _ Ea). reflexivity.
Qed.

End SetPrefixes.

End MainFacts.

(** [_edit_prefix] given a list of prefixes that is not empty, with
    [red._config.prefix] a [Value]: it makes one [set] call and the driver
    then holds the given prefixes, each as often as it was given, the
    greatest first; so a prefix never stands before a longer one that begins
    with it. Given no prefixes under [no_prompt], it changes nothing. *)
Theorem edit_prefix_stores_sorted (confirm : string -> bool) (x : Value) (w : world)
    (p : string) (ps : list string) (no_prompt : bool) (lines : list (list string)) :
  let stored_list := Main.sorted_reverse (p :: ps) in
  (exists w',
      Main._edit_prefix confirm (AValue x) w (Some (p :: ps)) no_prompt lines
      = (w', Main.Ended (Ok tt))
      /\ driver_get w' (_driver x) (identifier_data x) = Ok (JList (map JStr stored_list))
      /\ new_calls w w' = [(slot_of (_driver x) (identifier_data x), JList (map JStr stored_list))])
  /\ Permutation (p :: ps) stored_list
  /\ StronglySorted (fun a b => String.leb b a = true) stored_list
  /\ (forall short long before after,
        String.prefix short long = true -> short <> long ->
        stored_list = before ++ short :: after -> ~ In long after)
  /\ (forall arg, arg = None \/ arg = Some [] ->
        Main._edit_prefix confirm (AValue x) w arg true lines = (w, Main.Ended (Ok tt))).
Proof.
  intros stored_list. split.
  - destruct (MainFacts.set_prefixes_Value x w (p :: ps)) as [h Hset].
    unfold Main._edit_prefix. rewrite Hset.
    eexists. split; [reflexivity|].
    split; [unfold driver_get; simpl; now rewrite table_get_set_same|].
    unfold new_calls. simpl. rewrite skipn_app, skipn_all, Nat.sub_diag. reflexivity.
  - split; [apply MainFacts.sorted_reverse_perm|].
    split; [apply MainFacts.sorted_reverse_sorted|].
    split.
    + intros short long before after Hp Hne E Hin.
      apply Hne. apply String.leb_antisym; [now apply MainFacts.prefix_leb|].
      exact (@MainFacts.sorted_after _ before after short long
               (MainFacts.sorted_reverse_sorted (p :: ps)) E Hin).
    + intros arg [-> | ->]; reflexivity.
Qed.

Lemma edit_prefix_stores_sorted_witness :
  exists w',
    Main._edit_prefix (fun _ => false) (AValue plain_value) empty_world (Some ["!"; "!!"])
      true []
    = (w', Main.Ended (Ok tt))
    /\ driver_get w' 0%nat global_address = Ok (JList [JStr "!!"; JStr "!"]).
Proof.
  destruct (proj1 (@edit_prefix_stores_sorted (fun _ => false) plain_value empty_world
                     "!" ["!!"] true [])) as (w' & H1 & H2 & _).
  exists w'. split; [exact H1|exact H2].
Defined.

(** [prompt_for_prefixes] with [red._config.prefix] a [Value]: the lines
    that are empty or hold a prefix beginning with [/] are passed over; the
    first other line is stored, the greatest prefix first, by one [set]
    call, and what is stored is not empty and holds no prefix beginning with
    [/]; when no line is valid the call ends with the [EOFError] of [input]
    and the driver is untouched. [_edit_prefix] itself makes no such check
    of the prefixes it is given. *)
Theorem prompt_for_prefixes_spec (x : Value) (w : world) (lines : list (list string)) :
  match find (fun l => negb (Main.invalid_prefixes l)) lines with
  | Some prefixes =>
      exists w',
        Main.prompt_for_prefixes (AValue x) w lines = (w', Main.Ended (Ok tt))
        /\ driver_get w' (_driver x) (identifier_data x)
           = Ok (JList (map JStr (Main.sorted_reverse prefixes)))
        /\ new_calls w w'
           = [(slot_of (_driver x) (identifier_data x),
               JList (map JStr (Main.sorted_reverse prefixes)))]
        /\ Main.sorted_reverse prefixes <> []
        /\ Forall (fun p => String.prefix "/" p = false) (Main.sorted_reverse prefixes)
  | None => Main.prompt_for_prefixes (AValue x) w lines = (w, Main.EOFError)
  end
  /\ exists w',
       Main._edit_prefix (fun _ => false) (AValue x) w (Some ["/"]) true lines
       = (w', Main.Ended (Ok tt))
       /\ driver_get w' (_driver x) (identifier_data x) = Ok (JList [JStr "/"]).
Proof.
  split.
  - induction lines as [|l rest IH]; simpl; [reflexivity|].
    destruct (Main.invalid_prefixes l) eqn:E; simpl; [exact IH|].
    destruct (MainFacts.set_prefixes_Value x w l) as [h Hset]. rewrite Hset.
    eexists. split; [reflexivity|].
    split; [unfold driver_get; simpl; now rewrite table_get_set_same|].
    split; [unfold new_calls; simpl;
            rewrite skipn_app, skipn_all, Nat.sub_diag; reflexivity|].
    unfold Main.invalid_prefixes in E. apply orb_false_iff in E. destruct E as [E1 E2].
    pose proof (MainFacts.sorted_reverse_perm l) as Hp.
    split.
    + intros Hnil. rewrite Hnil in Hp. apply Permutation_sym, Permutation_nil in Hp.
      subst l. discriminate E1.
    + apply Forall_forall. intros q Hq.
      apply (Permutation_in _ (Permutation_sym Hp)) in Hq.
      destruct (String.prefix "/" q) eqn:Eq; [|reflexivity].
      assert (Hex : existsb (String.prefix "/") l = true)
        by (apply existsb_exists; exists q; auto).
      congruence.
  - destruct (MainFacts.set_prefixes_Value x w ["/"]) as [h Hset].
    unfold Main._edit_prefix. rewrite Hset.
    eexists. split; [reflexivity|].
    unfold driver_get. simpl. now rewrite table_get_set_same.
Qed.
